(** * LookupTableIDAViaGraph: IDA* search over pre-expanded prune-table graphs

    A shallow embedding of [rubikscubennnsolver/LookupTableIDAViaGraph.py]
    and the properties of its constructor, heuristic, recursive search and
    iterative-deepening driver.

    Conventions of the embedding:
    - Python integers are [Z]; a [bytes] object is a [list byte];
      move names and sticker colours are [string]s.
    - A [dict] whose iteration order is observed ([ida_nodes]) is an
      association list in insertion order; the other dicts are [gmap]s.
    - Methods that mutate the object run in a state-and-exception monad in
      which the mutations made before a [raise] stay visible afterwards,
      as they do in Python.
    - Logging is left out.  [ida_search], [solve_loop] and [solve] are
      the methods on an interpreter whose recursion limit is not reached
      and whose clock always advances; [ida_search_fuel], with room for a
      given number of nested calls, and [solve_loop_timed] and
      [solve_timed], with the clock readings as a parameter, are the
      methods without these two assumptions.
    - The entries of [prune_tables] are taken to be distinct objects.
    - Of [build_ida_graph] the formation of the node key is embedded, not
      its file handling; [solve_via_c], which hands the search to an
      external program, is not embedded. *)

From Stdlib Require Import ZArith.
From Stdlib.Strings Require Import Byte Ascii.
From stdpp Require Import base option list gmap strings fin_maps pretty.

Local Open Scope Z_scope.

(** ** Python primitives *)

(** The exceptions this module can end with.  [NoIDASolution lo hi] keeps
    the two numbers of its message; [StructError] is [struct.error];
    [RecursionError] marks the depth bound of [ida_search_fuel];
    [ZeroDivisionError] comes from the rates [solve] computes for its
    log lines. *)
Inductive exn : Type :=
| Exception (msg : string)
| NoIDASolution (lo hi : Z)
| KeyError
| IndexError
| StructError
| NameError (name : string)
| RecursionError
| ZeroDivisionError.

Inductive result (A : Type) : Type :=
| Ok (a : A)
| Raise (e : exn).
Arguments Ok {A} a.
Arguments Raise {A} e.

(** [seq[i]] for an index that may be negative: the position read, if any. *)
Definition py_index (len i : Z) : option nat :=
  if (0 <=? i) && (i <? len) then Some (Z.to_nat i)
  else if (- len <=? i) && (i <? 0) then Some (Z.to_nat (len + i))
  else None.

Definition py_getitem {A} (l : list A) (i : Z) : option A :=
  match py_index (Z.of_nat (length l)) i with
  | Some n => l !! n
  | None => None
  end.

Definition py_setitem {A} (l : list A) (i : Z) (x : A) : option (list A) :=
  match py_index (Z.of_nat (length l)) i with
  | Some n => Some (<[n:=x]> l)
  | None => None
  end.

(** [seq[start:stop]]: negative bounds count from the end, then both are
    clamped to the sequence. *)
Definition py_slice {A} (l : list A) (start stop : Z) : list A :=
  let n := Z.of_nat (length l) in
  let clamp i := if i <? 0 then Z.max 0 (i + n) else Z.min i n in
  take (Z.to_nat (clamp stop - clamp start)) (drop (Z.to_nat (clamp start)) l).

Definition byte_val (b : byte) : Z := Z.of_N (Byte.to_N b).

(** [struct.unpack(">L", bs)[0]] *)
Definition unpack_L (bs : list byte) : option Z :=
  match bs with
  | [b0; b1; b2; b3] =>
      Some (Z.lor (Z.shiftl (byte_val b0) 24)
           (Z.lor (Z.shiftl (byte_val b1) 16)
           (Z.lor (Z.shiftl (byte_val b2) 8) (byte_val b3))))
  | _ => None
  end.

(** An insertion-ordered dict: assigning to a present key keeps its place. *)
Fixpoint dict_set {K V} `{EqDecision K} (k : K) (v : V) (d : list (K * V))
  : list (K * V) :=
  match d with
  | [] => [(k, v)]
  | (k', v') :: d' =>
      if decide (k = k') then (k, v) :: d' else (k', v') :: dict_set k v d'
  end.

(** ** The data model *)

(** A prune table: its binary graph, the scratch node the search moves
    along it, and the collaborator's encoder of the puzzle state. *)
Record PruneTable : Type := {
  ida_graph : list byte;
  ida_graph_node : Z;
  state_index : list string → Z;
}.

Definition with_node (pt : PruneTable) (node : Z) : PruneTable :=
  {| ida_graph := ida_graph pt; ida_graph_node := node;
     state_index := state_index pt |}.

(** [self.parent]: the puzzle's sticker buffer and its solution log. *)
Record Cube : Type := {
  state : list string;
  solution : list string;
}.

(** The collaborators that live outside this file. *)
Class Collaborators : Type := {
  steps_on_same_face_and_layer : option string → string → bool;
  rotate : string → Cube → Cube;
  parent_nuke_corners : Cube → Cube;
  parent_nuke_edges : Cube → Cube;
  parent_nuke_centers : Cube → Cube;
}.

(** The attributes that stay fixed during a search: those computed by
    [__init__] and the staging attributes a caller sets before [solve].
    The attributes a search writes are in [Store] below. *)
Record LookupTableIDAViaGraph : Type := {
  moves_all : list string;
  step_index : gmap string Z;
  ROW_LENGTH : Z;
  steps_on_same_face_and_layer_cache : gmap (option string * string) bool;
  steps_not_on_same_face_and_layer : gmap (option string) (list string);
  recolor_positions : list Z;
  recolor_map : gmap string string;
  nuke_corners : bool;
  nuke_edges : bool;
  nuke_centers : bool;
  min_edge_paired_count : Z;
  multiplier : option Z;
  avoid_oll : option Z;
}.

(** ** [__init__] *)

(** [for x in moves_illegal: if x not in moves_all: raise Exception(...)] *)
Fixpoint check_moves_illegal (moves_all moves_illegal : list string)
  : result unit :=
  match moves_illegal with
  | [] => Ok ()
  | x :: rest =>
      if bool_decide (x ∈ moves_all) then check_moves_illegal moves_all rest
      else Raise (Exception
             ("illegal move " +:+ x +:+ " is not in the list of legal moves"))
  end.

Definition init_moves_all (moves_all moves_illegal legal_moves : list string)
  : list string :=
  match legal_moves with
  | _ :: _ => legal_moves
  | [] =>
      foldl (λ acc x, if bool_decide (x ∈ moves_illegal) then acc
                      else acc ++ [x]) [] moves_all
  end.

(** [for (index, step) in enumerate(self.moves_all): step_index[step] = index] *)
Definition init_step_index (moves : list string) : gmap string Z :=
  foldl (λ m p, <[p.2 := Z.of_nat p.1]> m) ∅ (imap pair moves).

Section Program.
Context `{Collaborators}.

(** The body of the inner loop at lines 77-84, for one pair of steps. *)
Definition cache_pair (step1 : option string)
    (acc : gmap (option string * string) bool * gmap (option string) (list string))
    (step2 : string)
  : gmap (option string * string) bool * gmap (option string) (list string) :=
  if steps_on_same_face_and_layer step1 step2
  then (<[(step1, step2) := true]> acc.1, acc.2)
  else (<[(step1, step2) := false]> acc.1,
        <[step1 := default [] (acc.2 !! step1) ++ [step2]]> acc.2).

(** [for step1 in self.moves_all + [None]: for step2 in self.moves_all: ...] *)
Definition init_caches (moves : list string)
  : gmap (option string * string) bool * gmap (option string) (list string) :=
  foldl (λ acc step1, foldl (cache_pair step1) acc moves)
        (∅, ∅) ((Some <$> moves) ++ [None]).

(** The base-class constructor is not part of this file; of what it sets,
    only [avoid_oll] is read here, and it is taken to start as [None]. *)
Definition init (moves_all_arg moves_illegal : list string)
    (legal_moves : list string) (multiplier_arg : option Z)
  : result LookupTableIDAViaGraph :=
  match check_moves_illegal moves_all_arg moves_illegal with
  | Raise e => Raise e
  | Ok _ =>
      let moves := init_moves_all moves_all_arg moves_illegal legal_moves in
      let caches := init_caches moves in
      Ok {| moves_all := moves;
            step_index := init_step_index moves;
            ROW_LENGTH := 1 + 4 * Z.of_nat (length moves);
            steps_on_same_face_and_layer_cache := caches.1;
            steps_not_on_same_face_and_layer := caches.2;
            recolor_positions := [];
            recolor_map := ∅;
            nuke_corners := false;
            nuke_edges := false;
            nuke_centers := false;
            min_edge_paired_count := 0;
            multiplier := multiplier_arg;
            avoid_oll := None |}
  end.
End Program.

(** ** The mutable object state *)

(** What [ida_search] and [solve] read and write: the puzzle, the prune
    tables with their scratch nodes, and the per-iteration records. *)
Record Store : Type := {
  parent : Cube;
  prune_tables : list PruneTable;
  ida_count : Z;
  explored : gmap (list Z) Z;
  ida_nodes : list (list Z * list string);
  pre_recolor_state : list string;
  pre_recolor_solution : list string;
  original_state : list string;
  original_solution : list string;
}.

Definition set_parent (c : Cube) (s : Store) : Store :=
  {| parent := c; prune_tables := prune_tables s; ida_count := ida_count s;
     explored := explored s; ida_nodes := ida_nodes s;
     pre_recolor_state := pre_recolor_state s;
     pre_recolor_solution := pre_recolor_solution s;
     original_state := original_state s;
     original_solution := original_solution s |}.

Definition set_prune_tables (pts : list PruneTable) (s : Store) : Store :=
  {| parent := parent s; prune_tables := pts; ida_count := ida_count s;
     explored := explored s; ida_nodes := ida_nodes s;
     pre_recolor_state := pre_recolor_state s;
     pre_recolor_solution := pre_recolor_solution s;
     original_state := original_state s;
     original_solution := original_solution s |}.

Definition set_ida_count (n : Z) (s : Store) : Store :=
  {| parent := parent s; prune_tables := prune_tables s; ida_count := n;
     explored := explored s; ida_nodes := ida_nodes s;
     pre_recolor_state := pre_recolor_state s;
     pre_recolor_solution := pre_recolor_solution s;
     original_state := original_state s;
     original_solution := original_solution s |}.

Definition set_explored (e : gmap (list Z) Z) (s : Store) : Store :=
  {| parent := parent s; prune_tables := prune_tables s;
     ida_count := ida_count s; explored := e; ida_nodes := ida_nodes s;
     pre_recolor_state := pre_recolor_state s;
     pre_recolor_solution := pre_recolor_solution s;
     original_state := original_state s;
     original_solution := original_solution s |}.

Definition set_ida_nodes (d : list (list Z * list string)) (s : Store)
  : Store :=
  {| parent := parent s; prune_tables := prune_tables s;
     ida_count := ida_count s; explored := explored s; ida_nodes := d;
     pre_recolor_state := pre_recolor_state s;
     pre_recolor_solution := pre_recolor_solution s;
     original_state := original_state s;
     original_solution := original_solution s |}.

Definition set_pre_recolor (st sol : list string) (s : Store) : Store :=
  {| parent := parent s; prune_tables := prune_tables s;
     ida_count := ida_count s; explored := explored s;
     ida_nodes := ida_nodes s;
     pre_recolor_state := st; pre_recolor_solution := sol;
     original_state := original_state s;
     original_solution := original_solution s |}.

Definition set_original (st sol : list string) (s : Store) : Store :=
  {| parent := parent s; prune_tables := prune_tables s;
     ida_count := ida_count s; explored := explored s;
     ida_nodes := ida_nodes s;
     pre_recolor_state := pre_recolor_state s;
     pre_recolor_solution := pre_recolor_solution s;
     original_state := st; original_solution := sol |}.

(** ** The state-and-exception monad *)

Definition M (A : Type) : Type := Store → result A * Store.

Definition ret {A} (a : A) : M A := λ s, (Ok a, s).
Definition raise {A} (e : exn) : M A := λ s, (Raise e, s).
Definition bind {A B} (m : M A) (k : A → M B) : M B :=
  λ s, match m s with
       | (Ok a, s') => k a s'
       | (Raise e, s') => (Raise e, s')
       end.
Definition gets {A} (f : Store → A) : M A := λ s, (Ok (f s), s).
Definition modify (f : Store → Store) : M unit := λ s, (Ok (), f s).
(** A lookup that raises when the key or index is missing. *)
Definition lookup_or {A} (e : exn) (o : option A) : M A :=
  match o with Some a => ret a | None => raise e end.

Notation "'let*' x := m 'in' k" := (bind m (λ x, k))
  (at level 10, x name, m at level 100, k at level 200,
   format "'[v' 'let*'  x  :=  m  'in' '/' k ']'").
Notation "'let*' ' p := m 'in' k" :=
  (bind m (λ x, match x with p => k end))
  (at level 10, p pattern, m at level 100, k at level 200,
   format "'[v' 'let*'  ' p  :=  m  'in' '/' k ']'").

(** Run a body over the prune tables in order, as [for pt in
    self.prune_tables] does: each table is written back as soon as its
    body has run, so a [raise] leaves the earlier writes in place. *)
Fixpoint for_each_pt_from (f : PruneTable → result PruneTable)
    (done todo : list PruneTable) : result unit * list PruneTable :=
  match todo with
  | [] => (Ok (), done)
  | pt :: rest =>
      match f pt with
      | Ok pt' => for_each_pt_from f (done ++ [pt']) rest
      | Raise e => (Raise e, done ++ pt :: rest)
      end
  end.

Definition for_each_pt (f : PruneTable → result PruneTable) : M unit :=
  λ s, let r := for_each_pt_from f [] (prune_tables s) in
       (r.1, set_prune_tables r.2 s).

(** ** Scratch nodes of the prune tables *)

Definition get_ida_graph_nodes : M (list Z) :=
  gets (λ s, ida_graph_node <$> prune_tables s).

(** [for (pt, node) in zip(self.prune_tables, nodes): pt.ida_graph_node = node];
    [zip] stops at the shorter of the two. *)
Fixpoint zip_nodes (pts : list PruneTable) (nodes : list Z) : list PruneTable :=
  match pts, nodes with
  | pt :: pts', node :: nodes' => with_node pt node :: zip_nodes pts' nodes'
  | _, _ => pts
  end.

Definition set_ida_graph_nodes (nodes : list Z) : M unit :=
  modify (λ s, set_prune_tables (zip_nodes (prune_tables s) nodes) s).

Definition init_ida_graph_nodes : M unit :=
  modify (λ s, set_prune_tables
    ((λ pt, with_node pt (state_index pt (state (parent s)))) <$> prune_tables s) s).

(** ** [ida_heuristic] *)

(** The loop of lines 101-107, with its two accumulators. *)
Fixpoint heuristic_loop (row_length : Z) (pts : list PruneTable)
    (lt_state : list Z) (cost_to_goal : Z) : result (list Z * Z) :=
  match pts with
  | [] => Ok (lt_state, cost_to_goal)
  | pt :: rest =>
      let offset := ida_graph_node pt * row_length in
      match py_getitem (ida_graph pt) offset with
      | None => Raise IndexError
      | Some b =>
          let pt_cost_to_goal := byte_val b in
          heuristic_loop row_length rest (lt_state ++ [ida_graph_node pt])
            (if pt_cost_to_goal >? cost_to_goal then pt_cost_to_goal
             else cost_to_goal)
      end
  end.

Definition ida_heuristic (self : LookupTableIDAViaGraph) : M (list Z * Z) :=
  λ s, (heuristic_loop (ROW_LENGTH self) (prune_tables s) [] 0, s).

(** ** [ida_search] *)

(** Lines 187-192: advance every table along [step]. *)
Definition advance_pt (self : LookupTableIDAViaGraph) (step : string)
    (pt : PruneTable) : result PruneTable :=
  match step_index self !! step with
  | None => Raise KeyError
  | Some index =>
      let start := ida_graph_node pt * ROW_LENGTH self + 1 + index * 4 in
      let end_ := start + 4 in
      match unpack_L (py_slice (ida_graph pt) start end_) with
      | None => Raise StructError
      | Some node => Ok (with_node pt node)
      end
  end.

Section SearchEngine.
Variable self : LookupTableIDAViaGraph.

(** Lines 181-200: put the tables back on the caller's nodes, advance
    them along [step] and make the recursive call [rec]. *)
Definition try_step
    (rec : Z → list string → Z → option string → list Z → M (Z * bool))
    (cost_to_here : Z) (steps_to_here : list string) (threshold : Z)
    (prev_ida_graph_nodes : list Z) (step : string) : M (Z * bool) :=
  let* _ := set_ida_graph_nodes prev_ida_graph_nodes in
  let* _ := for_each_pt (advance_pt self step) in
  let* curr_ida_graph_nodes := get_ida_graph_nodes in
  rec (cost_to_here + 1) (steps_to_here ++ [step]) threshold
      (Some step) curr_ida_graph_nodes.

(** The [for step in next_steps] loop of lines 161-208; [skip] is
    [skip_other_steps_this_face]. *)
Fixpoint ida_loop
    (rec : Z → list string → Z → option string → list Z → M (Z * bool))
    (cost_to_here : Z) (steps_to_here : list string) (threshold : Z)
    (prev_ida_graph_nodes : list Z) (f_cost : Z)
    (next_steps : list string) (skip : option string) : M (Z * bool) :=
  match next_steps with
  | [] => ret (f_cost, false)
  | step :: rest =>
      let* skip_step :=
        match skip with
        | None => ret false
        | Some marker =>
            lookup_or KeyError
              (steps_on_same_face_and_layer_cache self !! (Some marker, step))
        end in
      if skip_step : bool then
        ida_loop rec cost_to_here steps_to_here threshold
          prev_ida_graph_nodes f_cost rest skip
      else
        let* '(f_cost_tmp, found_solution) :=
          try_step rec cost_to_here steps_to_here threshold
            prev_ida_graph_nodes step in
        if found_solution : bool then ret (f_cost_tmp, true)
        else
          ida_loop rec cost_to_here steps_to_here threshold
            prev_ida_graph_nodes f_cost rest
            (if f_cost_tmp >? threshold then Some step else None)
  end.

(** [ida_search] with room for [fuel] nested calls of itself; a call
    for which no room is left ends in [RecursionError].  Where exactly
    an interpreter raises that error inside the deepest call is not
    modelled, and nothing is stated about runs that reach it beyond the
    bound on the nesting.  The source inlines the body of
    [ida_heuristic] at lines 119-130. *)
Fixpoint ida_search_fuel (fuel : nat) (cost_to_here : Z)
    (steps_to_here : list string) (threshold : Z)
    (prev_step : option string) (prev_ida_graph_nodes : list Z)
  : M (Z * bool) :=
  match fuel with
  | O => raise RecursionError
  | S fuel' =>
      let* _ := modify (λ s, set_ida_count (ida_count s + 1) s) in
      let* '(lt_state, cost_to_goal) := ida_heuristic self in
      let f_cost := cost_to_here + cost_to_goal in
      if f_cost >=? threshold then ret (f_cost, false)
      else if cost_to_goal =? 0 then
        let* _ := modify (λ s,
          set_ida_nodes (dict_set lt_state steps_to_here (ida_nodes s)) s) in
        ret (f_cost, true)
      else
        let* explored_cost_to_here :=
          gets (λ s, default 99 (explored s !! lt_state)) in
        if explored_cost_to_here <=? cost_to_here then ret (f_cost, false)
        else
          let* _ := modify (λ s,
            set_explored (<[lt_state := cost_to_here]> (explored s)) s) in
          let* next_steps :=
            lookup_or KeyError
              (steps_not_on_same_face_and_layer self !! prev_step) in
          ida_loop (ida_search_fuel fuel') cost_to_here steps_to_here
            threshold prev_ida_graph_nodes f_cost next_steps None
  end.

(** [ida_search] on an interpreter whose recursion limit is not
    reached: every call either stops at the cutoff or recurses with
    [cost_to_here + 1], so this much room is never used up
    (see [ida_search_fuel_enough]). *)
Definition ida_search (cost_to_here : Z) (steps_to_here : list string)
    (threshold : Z) (prev_step : option string)
    (prev_ida_graph_nodes : list Z) : M (Z * bool) :=
  ida_search_fuel (S (Z.to_nat (threshold - cost_to_here)))
    cost_to_here steps_to_here threshold prev_step prev_ida_graph_nodes.
End SearchEngine.

(** ** [recolor] *)

(** Truth value of [recolor_map.get(x_color)]: [None] and the empty
    string are both false. *)
Definition truthy_color (c : option string) : option string :=
  match c with
  | Some EmptyString => None
  | _ => c
  end.

Definition set_parent_state (st : list string) (s : Store) : Store :=
  set_parent {| state := st; solution := solution (parent s) |} s.

Section Driver.
Context `{Collaborators}.
Variable self : LookupTableIDAViaGraph.

(** [for x in self.recolor_positions: ...], lines 232-237 *)
Fixpoint recolor_loop (positions : list Z) : M unit :=
  match positions with
  | [] => ret ()
  | x :: rest =>
      let* st := gets (λ s, state (parent s)) in
      let* x_color := lookup_or IndexError (py_getitem st x) in
      let* _ :=
        match truthy_color (recolor_map self !! x_color) with
        | Some x_new_color =>
            let* st' := lookup_or IndexError (py_setitem st x x_new_color) in
            modify (set_parent_state st')
        | None => ret ()
        end in
      recolor_loop rest
  end.

Definition recolor : M unit :=
  if nuke_corners self || nuke_edges self || nuke_centers self
     || bool_decide (recolor_positions self ≠ [])
  then
    let* _ := if nuke_corners self
              then modify (λ s, set_parent (parent_nuke_corners (parent s)) s)
              else ret () in
    let* _ := if nuke_edges self
              then modify (λ s, set_parent (parent_nuke_edges (parent s)) s)
              else ret () in
    let* _ := if nuke_centers self
              then modify (λ s, set_parent (parent_nuke_centers (parent s)) s)
              else ret () in
    recolor_loop (recolor_positions self)
  else ret ().

(** ** [get_best_ida_solution] *)

(** One round of the loop at lines 247-252 over [(min_steps, min_steps_len)]. *)
Definition best_step (acc : option (list string) * option Z)
    (item : list Z * list string) : option (list string) * option Z :=
  let steps_len := Z.of_nat (length item.2) in
  match acc.2 with
  | None => (Some item.2, Some steps_len)
  | Some min_steps_len =>
      if steps_len <? min_steps_len then (Some item.2, Some steps_len)
      else acc
  end.

Definition get_best_ida_solution (s : Store) : option (list string) :=
  (foldl best_step (None, None) (ida_nodes s)).1.

(** ** [solve] *)

(** ["w" in step and not step.endswith("2")] *)
Definition quarter_wide_turn (step : string) : bool :=
  let cs := String.list_ascii_of_string step in
  bool_decide ("w"%char ∈ cs) && negb (bool_decide (last cs = Some "2"%char)).

(** Lines 289-299.  [pformat] is not imported by the module, so both the
    [log.info] argument of the [break] branch and the message of the
    [raise] branch stop with a [NameError]. *)
Definition check_avoid_oll : M unit :=
  match avoid_oll self with
  | None => ret ()
  | Some _ =>
      if existsb quarter_wide_turn (moves_all self)
      then raise (NameError "pformat")
      else raise (NameError "pformat")
  end.

(** [for step in best_solution: self.parent.rotate(step)] *)
Definition rotate_all (steps : list string) : M unit :=
  modify (λ s, set_parent (foldl (λ c step, rotate step c) (parent s) steps) s).

(** The [for threshold in range(...)] loop of lines 341-398; [Some true]
    is the [return True] inside it, [None] is falling out of the loop.
    The log lines are left out, and with them the two rates of lines 373
    and 388, which divide by an elapsed time: this is the loop when the
    clock advances between its readings and the recursion limit is not
    reached.  [solve_loop_timed] below is the loop without these two
    assumptions. *)
Fixpoint solve_loop (thresholds : list Z) : M (option bool) :=
  match thresholds with
  | [] => ret None
  | threshold :: rest =>
      let steps_to_here := [] in
      let* _ := modify (set_ida_count 0) in
      let* _ := modify (set_explored ∅) in
      let* _ := modify (set_ida_nodes []) in
      let* ida_graph_nodes := get_ida_graph_nodes in
      let* _ := ida_search self 0 steps_to_here threshold None
                  ida_graph_nodes in
      let* best_solution := gets get_best_ida_solution in
      match best_solution with
      | Some ((_ :: _) as best_solution) =>
          let* _ := modify (λ s, set_parent
            {| state := pre_recolor_state s;
               solution := pre_recolor_solution s |} s) in
          let* _ := rotate_all best_solution in
          let* _ := modify (set_explored ∅) in
          let* _ := modify (set_ida_nodes []) in
          ret (Some true)
      | _ => solve_loop rest
      end
  end.

(** [pt.load_ida_graph()] belongs to the prune-table collaborator; the
    graphs are taken as already loaded in [ida_graph]. *)
Definition solve (min_ida_threshold : option Z) (max_ida_threshold : Z)
  : M bool :=
  let* _ := modify (λ s,
    set_pre_recolor (state (parent s)) (solution (parent s)) s) in
  let* _ := recolor in
  let* _ := modify (λ s,
    set_original (state (parent s)) (solution (parent s)) s) in
  let* _ := check_avoid_oll in
  let* _ := init_ida_graph_nodes in
  let* '(_state, cost_to_goal) := ida_heuristic self in
  let min_ida_threshold := default cost_to_goal min_ida_threshold in
  if min_ida_threshold >=? max_ida_threshold + 1 then
    raise (NoIDASolution min_ida_threshold (max_ida_threshold + 1))
  else
    let* r := solve_loop
      (seqZ min_ida_threshold (max_ida_threshold + 1 - min_ida_threshold)) in
    match r with
    | Some b => ret b
    | None =>
        let* _ := modify (λ s, set_parent
          {| state := original_state s;
             solution := original_solution s |} s) in
        raise (NoIDASolution min_ida_threshold (max_ida_threshold + 1))
    end.

(** ** [solve] with its clock and a recursion limit *)

(** [int(count / delta.total_seconds())], lines 373 and 388.  The
    quotient only feeds a log line, but the division raises
    [ZeroDivisionError] when the elapsed time is zero, that is when the
    two readings of [dt.datetime.now()] are equal.  [delta] is in
    microseconds, the resolution of [datetime].  The counts are numbers
    of calls made, far below the range where the conversion to [float]
    fails. *)
Definition nodes_per_sec (count delta : Z) : M unit :=
  if delta =? 0 then raise ZeroDivisionError else ret ().

(** Lines 341-398 with the clock: [now k] is the [k]-th value
    [dt.datetime.now()] returns during the call, [reading] the number of
    the next one.  Every iteration takes two readings, [start_time1]
    and, in either branch, [end_time1].  On the found branch the puzzle
    is rewritten before the rate is computed and the records are cleared
    after it.  [limit] is the room for nested calls of [ida_search]. *)
Fixpoint solve_loop_timed (limit : nat) (now : nat → Z) (reading : nat)
    (start_time0 : Z) (total_ida_count : Z) (thresholds : list Z)
  : M (option bool) :=
  match thresholds with
  | [] => ret None
  | threshold :: rest =>
      let steps_to_here := [] in
      let start_time1 := now reading in
      let* _ := modify (set_ida_count 0) in
      let* _ := modify (set_explored ∅) in
      let* _ := modify (set_ida_nodes []) in
      let* ida_graph_nodes := get_ida_graph_nodes in
      let* _ := ida_search_fuel self limit 0 steps_to_here threshold None
                  ida_graph_nodes in
      let* count := gets ida_count in
      let total_ida_count := total_ida_count + count in
      let* best_solution := gets get_best_ida_solution in
      match best_solution with
      | Some ((_ :: _) as best_solution) =>
          let* _ := modify (λ s, set_parent
            {| state := pre_recolor_state s;
               solution := pre_recolor_solution s |} s) in
          let* _ := rotate_all best_solution in
          let end_time1 := now (S reading) in
          let* _ := nodes_per_sec total_ida_count (end_time1 - start_time0) in
          let* _ := modify (set_explored ∅) in
          let* _ := modify (set_ida_nodes []) in
          ret (Some true)
      | _ =>
          let end_time1 := now (S reading) in
          let* _ := nodes_per_sec count (end_time1 - start_time1) in
          solve_loop_timed limit now (S (S reading)) start_time0
            total_ida_count rest
      end
  end.

(** [solve] with the clock: reading 0 is [start_time0] (line 333), taken
    after the range check and before the loop. *)
Definition solve_timed (limit : nat) (now : nat → Z)
    (min_ida_threshold : option Z) (max_ida_threshold : Z) : M bool :=
  let* _ := modify (λ s,
    set_pre_recolor (state (parent s)) (solution (parent s)) s) in
  let* _ := recolor in
  let* _ := modify (λ s,
    set_original (state (parent s)) (solution (parent s)) s) in
  let* _ := check_avoid_oll in
  let* _ := init_ida_graph_nodes in
  let* '(_state, cost_to_goal) := ida_heuristic self in
  let min_ida_threshold := default cost_to_goal min_ida_threshold in
  if min_ida_threshold >=? max_ida_threshold + 1 then
    raise (NoIDASolution min_ida_threshold (max_ida_threshold + 1))
  else
    let start_time0 := now O in
    let* r := solve_loop_timed limit now 1 start_time0 0
      (seqZ min_ida_threshold (max_ida_threshold + 1 - min_ida_threshold)) in
    match r with
    | Some b => ret b
    | None =>
        let* _ := modify (λ s, set_parent
          {| state := original_state s;
             solution := original_solution s |} s) in
        raise (NoIDASolution min_ida_threshold (max_ida_threshold + 1))
    end.
End Driver.

(** ** Concrete fixtures *)

(** Big-endian encoding of a successor index, and a graph row: the cost
    byte followed by one successor per move. *)
Definition byte_of_Z (n : Z) : byte :=
  default x00 (Byte.of_N (Z.to_N (n mod 256))).

Definition pack_L (n : Z) : list byte :=
  [byte_of_Z (Z.shiftr n 24); byte_of_Z (Z.shiftr n 16);
   byte_of_Z (Z.shiftr n 8); byte_of_Z n].

Definition graph_row (cost : Z) (successors : list Z) : list byte :=
  byte_of_Z cost :: concat (pack_L <$> successors).

(** A stand-in for the move relation: two moves share a face and layer when
    their names start with the same letter; no move is related to [None]. *)
Definition same_first_letter (prev_step : option string) (step : string) : bool :=
  match prev_step, step with
  | Some (String a _), String b _ => bool_decide (a = b)
  | _, _ => false
  end.

(** A stand-in puzzle whose [rotate] only appends to the solution log. *)
Definition log_rotate (step : string) (c : Cube) : Cube :=
  {| state := state c; solution := solution c ++ [step] |}.

Definition demo_collaborators : Collaborators :=
  {| steps_on_same_face_and_layer := same_first_letter;
     rotate := log_rotate;
     parent_nuke_corners := id;
     parent_nuke_edges := id;
     parent_nuke_centers := id |}.

Definition new_store (c : Cube) (pts : list PruneTable) : Store :=
  {| parent := c; prune_tables := pts; ida_count := 0; explored := ∅;
     ida_nodes := []; pre_recolor_state := []; pre_recolor_solution := [];
     original_state := []; original_solution := [] |}.

Definition demo_moves : list string := ["A"; "A2"; "A'"; "B"; "B2"; "B'"].

(** A four-node graph in the shape of the concrete scenario: node 0 is the
    goal, 1 -A-> 0, 2 -B-> 1, 3 -A-> 2, and A leads from 2 away to 3; every
    other edge stays in place. *)
Definition demo_graph : list byte :=
  graph_row 0 [0; 0; 0; 0; 0; 0] ++
  graph_row 1 [0; 1; 1; 1; 1; 1] ++
  graph_row 2 [3; 2; 2; 1; 2; 2] ++
  graph_row 3 [2; 3; 3; 3; 3; 3].

(** The table starts at the node named by the first sticker. *)
Definition demo_table : PruneTable :=
  {| ida_graph := demo_graph; ida_graph_node := 0;
     state_index := λ st, match st with
                          | "n3"%string :: _ => 3
                          | "n2"%string :: _ => 2
                          | "n1"%string :: _ => 1
                          | _ => 0
                          end |}.

(** The staging attributes a caller assigns after construction. *)
Definition with_recolor (positions : list Z) (colors : gmap string string)
    (self : LookupTableIDAViaGraph) : LookupTableIDAViaGraph :=
  {| moves_all := moves_all self; step_index := step_index self;
     ROW_LENGTH := ROW_LENGTH self;
     steps_on_same_face_and_layer_cache :=
       steps_on_same_face_and_layer_cache self;
     steps_not_on_same_face_and_layer := steps_not_on_same_face_and_layer self;
     recolor_positions := positions; recolor_map := colors;
     nuke_corners := nuke_corners self; nuke_edges := nuke_edges self;
     nuke_centers := nuke_centers self;
     min_edge_paired_count := min_edge_paired_count self;
     multiplier := multiplier self; avoid_oll := avoid_oll self |}.

Definition demo_self : LookupTableIDAViaGraph :=
  match init (H := demo_collaborators) demo_moves [] [] None with
  | Ok self => self
  | Raise _ =>
      {| moves_all := []; step_index := ∅; ROW_LENGTH := 1;
         steps_on_same_face_and_layer_cache := ∅;
         steps_not_on_same_face_and_layer := ∅;
         recolor_positions := []; recolor_map := ∅;
         nuke_corners := false; nuke_edges := false; nuke_centers := false;
         min_edge_paired_count := 0; multiplier := None; avoid_oll := None |}
  end.

Definition demo_store (node_sticker : string) : Store :=
  new_store {| state := [node_sticker; "U"]; solution := ["x"] |} [demo_table].

(** The same instance staged to recolour sticker 1 from U to D. *)
Definition demo_self_recolor : LookupTableIDAViaGraph :=
  with_recolor [1] {["U" := "D"]} demo_self.

(** A chain of [n + 1] nodes over the moves A and B: node [k] stores cost
    [k] and steps down to [k - 1] by A when [k] is odd and by B when [k] is
    even; the other move stays in place.  The puzzle starts at node [n]. *)
Definition chain_row (k : Z) : list byte :=
  if k =? 0 then graph_row 0 [0; 0]
  else if Z.odd k then graph_row k [k - 1; k]
  else graph_row k [k; k - 1].

Definition chain_table (n : Z) : PruneTable :=
  {| ida_graph := concat (chain_row <$> seqZ 0 (n + 1));
     ida_graph_node := 0;
     state_index := λ _, n |}.

Definition chain_self : LookupTableIDAViaGraph :=
  match init (H := demo_collaborators) ["A"; "B"] [] [] None with
  | Ok self => self
  | Raise _ => demo_self
  end.

Definition chain_store (n : Z) : Store :=
  new_store {| state := []; solution := [] |} [chain_table n].

(** The node a table reaches from [node] along [steps]. *)
Definition follow (self : LookupTableIDAViaGraph) (pt : PruneTable)
    (node : Z) (steps : list string) : result Z :=
  match foldl (λ r step, match r with
                         | Ok pt' => advance_pt self step pt'
                         | Raise e => Raise e
                         end)
              (Ok (with_node pt node)) steps with
  | Ok pt' => Ok (ida_graph_node pt')
  | Raise e => Raise e
  end.

(** ** Specification vocabulary *)

(** The cost stored for a table's current node: byte 0 of its row. *)
Definition stored_cost (self : LookupTableIDAViaGraph) (pt : PruneTable)
    (c : Z) : Prop :=
  byte_val <$> py_getitem (ida_graph pt) (ida_graph_node pt * ROW_LENGTH self)
    = Some c.

(** A postcondition on the outcome and final store of a computation. *)
Definition wp {A} (m : M A) (Q : result A → Store → Prop) (s : Store) : Prop :=
  Q (m s).1 (m s).2.

(** No two neighbours of a move sequence share a face and layer. *)
Definition no_consecutive_same_face `{Collaborators} (steps : list string)
  : Prop :=
  ∀ (i : nat) a b, steps !! i = Some a → steps !! S i = Some b →
    steps_on_same_face_and_layer (Some a) b = false.

(** The moves [ext] can follow [prev]: each is unrelated to the one before. *)
Fixpoint chain `{Collaborators} (prev : option string) (ext : list string)
  : Prop :=
  match ext with
  | [] => True
  | step :: ext' =>
      steps_on_same_face_and_layer prev step = false ∧ chain (Some step) ext'
  end.

(** Every list of candidate moves holds only moves unrelated to its key. *)
Definition unrelated_lists `{Collaborators}
    (d : gmap (option string) (list string)) : Prop :=
  ∀ p l, d !! p = Some l →
    Forall (λ m, steps_on_same_face_and_layer p m = false) l.

(** A candidate that the loop applies rather than skips: no marker is set,
    or the marker is a move of another face or layer. *)
Definition candidate_tried `{Collaborators} (self : LookupTableIDAViaGraph)
    (skip : option string) (step : string) : Prop :=
  skip = None ∨
  ∃ marker, skip = Some marker ∧ marker ∈ moves_all self ∧
            step ∈ moves_all self ∧
            steps_on_same_face_and_layer (Some marker) step = false.

(** The exceptions the search itself can raise. *)
Definition search_exn {A} (r : result A) : Prop :=
  match r with
  | Ok _ => True
  | Raise e => e = KeyError ∨ e = IndexError ∨ e = StructError
  end.

(** What a call [ida_search(cost, steps, T, prev, _)] may change between
    the store [s] it starts in and the store [s'] it leaves: the puzzle
    and its snapshots stay, the graphs stay, and every solution in
    [ida_nodes] is an old one or extends [steps] by moves that can follow
    [prev] and end below the threshold. *)
Definition search_rel `{Collaborators} (cost : Z) (steps : list string)
    (T : Z) (prev : option string) (s s' : Store) : Prop :=
  parent s' = parent s
  ∧ pre_recolor_state s' = pre_recolor_state s
  ∧ pre_recolor_solution s' = pre_recolor_solution s
  ∧ original_state s' = original_state s
  ∧ original_solution s' = original_solution s
  ∧ ida_graph <$> prune_tables s' = ida_graph <$> prune_tables s
  ∧ ∀ k sol, (k, sol) ∈ ida_nodes s' →
      (k, sol) ∈ ida_nodes s
      ∨ ∃ ext, sol = steps ++ ext ∧ cost + Z.of_nat (length ext) < T
               ∧ chain prev ext.

(** The postcondition of a search started in [s]. *)
Definition search_post `{Collaborators} (cost : Z) (steps : list string)
    (T : Z) (prev : option string) (s : Store)
    (r : result (Z * bool)) (s' : Store) : Prop :=
  search_exn r ∧ search_rel cost steps T prev s s'.

(** Collaborators under which no two moves are related; the search itself
    never consults the collaborators, only the tables built from them. *)
Definition unrelated_collaborators : Collaborators :=
  {| steps_on_same_face_and_layer := λ _ _, false;
     rotate := λ _ c, c;
     parent_nuke_corners := id;
     parent_nuke_edges := id;
     parent_nuke_centers := id |}.

(** The demo table parked on a given node. *)
Definition demo_store_at (node : Z) : Store :=
  new_store {| state := ["n0"; "U"]; solution := ["x"] |}
    [with_node demo_table node].

(** What the threshold loop of [solve] leaves behind, started in [s]: the
    snapshots and graphs stay; unless it returns [True] the puzzle stays;
    and a [True] comes with a non-empty recorded solution, shorter than
    its threshold and admissible for the relation of [R], replayed on the
    pre-recolor snapshot. *)
Definition loop_post {H : Collaborators} (R : Collaborators)
    (thresholds : list Z) (s : Store) (r : result (option bool))
    (s' : Store) : Prop :=
  pre_recolor_state s' = pre_recolor_state s
  ∧ pre_recolor_solution s' = pre_recolor_solution s
  ∧ original_state s' = original_state s
  ∧ original_solution s' = original_solution s
  ∧ ida_graph <$> prune_tables s' = ida_graph <$> prune_tables s
  ∧ match r with
    | Raise e => search_exn r ∧ parent s' = parent s
    | Ok None => parent s' = parent s
    | Ok (Some b) =>
        b = true ∧ ida_nodes s' = [] ∧ explored s' = ∅ ∧
        ∃ T best, T ∈ thresholds ∧ best ≠ []
          ∧ Z.of_nat (length best) < T
          ∧ chain (H := R) None best
          ∧ parent s' = foldl (λ c step, @rotate H step c)
                          {| state := pre_recolor_state s;
                             solution := pre_recolor_solution s |} best
    end.

(** Two stores that differ at most in the puzzle. *)
Definition same_but_parent (s s' : Store) : Prop :=
  prune_tables s' = prune_tables s
  ∧ ida_count s' = ida_count s
  ∧ explored s' = explored s
  ∧ ida_nodes s' = ida_nodes s
  ∧ pre_recolor_state s' = pre_recolor_state s
  ∧ pre_recolor_solution s' = pre_recolor_solution s
  ∧ original_state s' = original_state s
  ∧ original_solution s' = original_solution s.

(** The store in which [solve] has taken the pre-recolor snapshot and run
    [recolor]. *)
Definition after_recolor `{Collaborators} (self : LookupTableIDAViaGraph)
    (s : Store) : Store :=
  (recolor self
     (set_pre_recolor (state (parent s)) (solution (parent s)) s)).2.

(** The outcomes of [solve] started in [s]: [True] with a non-empty
    solution, admissible for the relation of [R] and shorter than the
    largest threshold, replayed on the puzzle as it was before the call;
    or the no-solution error with the puzzle as [recolor] left it. *)
Definition solve_post {H : Collaborators} (R : Collaborators)
    (self : LookupTableIDAViaGraph) (max_ida_threshold : Z) (s : Store)
    (r : result bool) (s' : Store) : Prop :=
  match r with
  | Ok b =>
      b = true ∧
      ∃ best, best ≠ [] ∧ chain (H := R) None best
        ∧ Z.of_nat (length best) < max_ida_threshold
        ∧ parent s' = foldl (λ c step, @rotate H step c) (parent s) best
  | Raise (NoIDASolution lo hi) =>
      hi = max_ida_threshold + 1
      ∧ state (parent s') = state (parent (after_recolor (H := H) self s))
      ∧ solution (parent s')
        = solution (parent (after_recolor (H := H) self s))
  | Raise _ => True
  end.

(** The two move tables of [self] are the ones [__init__] builds from its
    move list; assigning the staging attributes afterwards keeps this. *)
Definition caches_built `{Collaborators} (self : LookupTableIDAViaGraph)
  : Prop :=
  steps_on_same_face_and_layer_cache self = (init_caches (moves_all self)).1
  ∧ steps_not_on_same_face_and_layer self = (init_caches (moves_all self)).2.

(** The store in which [solve] enters its threshold loop. *)
Definition search_start `{Collaborators} (self : LookupTableIDAViaGraph)
    (s : Store) : Store :=
  let s1 := after_recolor self s in
  (init_ida_graph_nodes
     (set_original (state (parent s1)) (solution (parent s1)) s1)).2.

(** Settle a closed decidable proposition by evaluation. *)
Ltac by_evaluation :=
  match goal with
  | |- ?P => refine (@bool_decide_unpack P _ _); vm_compute; exact I
  end.

(** ** Further vocabulary *)

(** [zip] pairs the tables with the nodes it is given and leaves the tables
    beyond them alone: the nodes the tables hold afterwards. *)
Definition nodes_after_set (old nodes : list Z) : list Z :=
  take (length old) nodes ++ drop (length nodes) old.

(** The keys [__init__] loops over for its two move tables: every move of
    the list, then [None]. *)
Definition cache_keys (moves : list string) : list (option string) :=
  (Some <$> moves) ++ [None].

(** An instance whose moves all turn one face: A and its double turn. *)
Definition oneface_self : LookupTableIDAViaGraph :=
  match init (H := demo_collaborators) ["A"; "A2"] [] [] None with
  | Ok self => self
  | Raise _ => demo_self
  end.

(** The chain table of [n + 1] nodes parked on a given node. *)
Definition chain_store_at (n node : Z) : Store :=
  new_store {| state := []; solution := [] |} [with_node (chain_table n) node].

(** The byte offset at which [ida_search] reads the successor of a table's
    node for the move with a given index (line 188). *)
Definition successor_offset (self : LookupTableIDAViaGraph) (pt : PruneTable)
    (index : Z) : Z :=
  ida_graph_node pt * ROW_LENGTH self + 1 + index * 4.

(** The big-endian value of four bytes. *)
Definition big_endian (b0 b1 b2 b3 : byte) : Z :=
  byte_val b0 * 2 ^ 24 + byte_val b1 * 2 ^ 16 + byte_val b2 * 2 ^ 8
  + byte_val b3.

(** Lines 187-192 as a function of the tables: all of them advanced along
    [step], or the exception of the first that fails. *)
Definition advance_all (self : LookupTableIDAViaGraph) (step : string)
    (pts : list PruneTable) : result (list PruneTable) :=
  let r := for_each_pt_from (advance_pt self step) [] pts in
  match r.1 with
  | Ok _ => Ok r.2
  | Raise e => Raise e
  end.

(** The tables reached from [pts] along a move sequence. *)
Fixpoint follow_all (self : LookupTableIDAViaGraph) (pts : list PruneTable)
    (steps : list string) : result (list PruneTable) :=
  match steps with
  | [] => Ok pts
  | step :: rest =>
      match advance_all self step pts with
      | Ok pts' => follow_all self pts' rest
      | Raise e => Raise e
      end
  end.

(** Two lists of tables that differ at most in the scratch nodes. *)
Definition same_tables (pts pts' : list PruneTable) : Prop :=
  Forall2 (λ a b, ida_graph a = ida_graph b ∧ state_index a = state_index b)
          pts pts'.

(** How a search at [cost] under threshold [T] may change the memo: a key
    stays and its cost never grows; a new or lowered cost is at least
    [cost], at most [T - 2], and below what the memo answered before (99
    for a missing key). *)
Definition memo_rel (cost T : Z) (e e' : gmap (list Z) Z) : Prop :=
  (∀ k v, e !! k = Some v → ∃ v', e' !! k = Some v' ∧ v' ≤ v)
  ∧ (∀ k v', e' !! k = Some v' →
       e !! k = Some v'
       ∨ (cost ≤ v' ∧ v' + 2 ≤ T ∧ v' < default 99 (e !! k))).

(** What a call [ida_search(cost, steps, T, _, nodes)] whose [nodes] are the
    tables' current nodes leaves behind. *)
Definition consistent_post (self : LookupTableIDAViaGraph) (cost : Z)
    (steps : list string) (T : Z) (s : Store) (r : result (Z * bool))
    (s' : Store) : Prop :=
  same_tables (prune_tables s) (prune_tables s')
  ∧ ida_count s < ida_count s'
  ∧ memo_rel cost T (explored s) (explored s')
  ∧ match r with
    | Ok (f, true) =>
        ∃ ext, f = cost + Z.of_nat (length ext) ∧ f < T
          ∧ follow_all self (prune_tables s) ext = Ok (prune_tables s')
          ∧ heuristic_loop (ROW_LENGTH self) (prune_tables s') [] 0
            = Ok (ida_graph_node <$> prune_tables s', 0)
          ∧ ida_nodes s'
            = dict_set (ida_graph_node <$> prune_tables s') (steps ++ ext)
                (ida_nodes s)
    | Ok (f, false) =>
        ida_nodes s' = ida_nodes s
        ∧ ∃ lt_state cost_to_goal,
            heuristic_loop (ROW_LENGTH self) (prune_tables s) [] 0
              = Ok (lt_state, cost_to_goal)
            ∧ f = cost + cost_to_goal
    | Raise _ => ida_nodes s' = ida_nodes s
    end.

(** What one candidate, and the candidate loop as a whole, leave behind
    when started with tables that are [pts] up to their nodes. *)
Definition candidate_post (self : LookupTableIDAViaGraph) (cost : Z)
    (steps : list string) (T : Z) (pts : list PruneTable) (s : Store)
    (r : result (Z * bool)) (s' : Store) : Prop :=
  same_tables pts (prune_tables s')
  ∧ ida_count s ≤ ida_count s'
  ∧ memo_rel cost T (explored s) (explored s')
  ∧ match r with
    | Ok (f, true) =>
        ∃ ext, ext ≠ [] ∧ f = cost + Z.of_nat (length ext) ∧ f < T
          ∧ follow_all self pts ext = Ok (prune_tables s')
          ∧ heuristic_loop (ROW_LENGTH self) (prune_tables s') [] 0
            = Ok (ida_graph_node <$> prune_tables s', 0)
          ∧ ida_nodes s'
            = dict_set (ida_graph_node <$> prune_tables s') (steps ++ ext)
                (ida_nodes s)
    | _ => ida_nodes s' = ida_nodes s
    end.

(** An instance that is as [__init__] leaves it, up to the staging
    attributes. *)
Definition constructed `{Collaborators} (self : LookupTableIDAViaGraph)
  : Prop :=
  caches_built self
  ∧ step_index self = init_step_index (moves_all self)
  ∧ ROW_LENGTH self = 1 + 4 * Z.of_nat (length (moves_all self)).

(** A table whose graph holds [n] whole rows, whose node is one of them,
    and from none of whose rows a move leads to a node beyond them. *)
Definition table_closed (self : LookupTableIDAViaGraph) (pt : PruneTable)
  : Prop :=
  ∃ n, Z.of_nat (length (ida_graph pt)) = n * ROW_LENGTH self
       ∧ 0 ≤ ida_graph_node pt < n
       ∧ ∀ node step pt', 0 ≤ node < n →
           advance_pt self step (with_node pt node) = Ok pt' →
           ida_graph_node pt' < n.

(** After every move, and at the start, some move may follow. *)
Definition always_a_candidate `{Collaborators}
    (self : LookupTableIDAViaGraph) : Prop :=
  ∀ p, p ∈ cache_keys (moves_all self) →
    ∃ m, m ∈ moves_all self ∧ steps_on_same_face_and_layer p m = false.

(** A search that ends without an exception, on closed tables that are the
    entry tables up to their nodes. *)
Definition safe_post (self : LookupTableIDAViaGraph) (pts : list PruneTable)
    (r : result (Z * bool)) (s' : Store) : Prop :=
  (∃ v, r = Ok v)
  ∧ Forall (table_closed self) (prune_tables s')
  ∧ same_tables pts (prune_tables s').

(** An executable check of [table_closed] for a graph of [n] rows. *)
Definition table_closedb (self : LookupTableIDAViaGraph) (pt : PruneTable)
    (n : Z) : bool :=
  bool_decide (Z.of_nat (length (ida_graph pt)) = n * ROW_LENGTH self)
  && bool_decide (0 ≤ ida_graph_node pt < n)
  && forallb (λ node,
       forallb (λ step,
         match advance_pt self step (with_node pt node) with
         | Ok pt' => bool_decide (ida_graph_node pt' < n)
         | Raise _ => true
         end) (moves_all self)) (seqZ 0 n).

(** What [recolor] does to one sticker colour: the colour the map gives
    for it when that is a non-empty string, else the colour itself. *)
Definition recolor_color (self : LookupTableIDAViaGraph) (c : string)
  : string :=
  default c (truthy_color (recolor_map self !! c)).

(** The positions up to the first one outside a state of [len] stickers. *)
Fixpoint valid_prefix (len : Z) (positions : list Z) : list Z :=
  match positions with
  | [] => []
  | x :: rest =>
      match py_index len x with
      | Some _ => x :: valid_prefix len rest
      | None => []
      end
  end.

(** How many of the positions address sticker [i]; [x] and [x - len]
    address the same one. *)
Definition times_listed (len : Z) (positions : list Z) (i : nat) : nat :=
  length (filter (λ x, py_index len x = Some i) positions).

(** The store after the [nuke_*] calls that [recolor] makes first. *)
Definition nuked `{Collaborators} (self : LookupTableIDAViaGraph)
    (s : Store) : Store :=
  let s1 := if nuke_corners self
            then set_parent (parent_nuke_corners (parent s)) s else s in
  let s2 := if nuke_edges self
            then set_parent (parent_nuke_edges (parent s1)) s1 else s1 in
  if nuke_centers self
  then set_parent (parent_nuke_centers (parent s2)) s2 else s2.

(** The [avoid_oll] attribute a caller assigns after construction. *)
Definition with_avoid_oll (v : Z) (self : LookupTableIDAViaGraph)
  : LookupTableIDAViaGraph :=
  {| moves_all := moves_all self; step_index := step_index self;
     ROW_LENGTH := ROW_LENGTH self;
     steps_on_same_face_and_layer_cache :=
       steps_on_same_face_and_layer_cache self;
     steps_not_on_same_face_and_layer := steps_not_on_same_face_and_layer self;
     recolor_positions := recolor_positions self;
     recolor_map := recolor_map self;
     nuke_corners := nuke_corners self; nuke_edges := nuke_edges self;
     nuke_centers := nuke_centers self;
     min_edge_paired_count := min_edge_paired_count self;
     multiplier := multiplier self; avoid_oll := Some v |}.

(** The three assignments that open every threshold iteration of [solve]
    (lines 344-346). *)
Definition search_reset (s : Store) : Store :=
  set_ida_nodes [] (set_explored ∅ (set_ida_count 0 s)).

(** ** The node key of [build_ida_graph] *)

(** The loop of lines 432-438 turns the tables' nodes into the text
    that keys a line of the [.pt_state] file; it is the part of
    [build_ida_graph] that neither reads nor writes a file. *)

Fixpoint zeros (n : nat) : string :=
  match n with
  | O => EmptyString
  | S n' => String "0" (zeros n')
  end.

(** Left padding with the digit 0 up to [width] characters. *)
Definition zero_pad (width : nat) (digits : string) : string :=
  zeros (width - String.length digits) +:+ digits.

(** [f"{x:07d}"]: the decimal numeral of [x], padded with zeros after the
    sign to 7 characters in all. *)
Definition format_07d (x : Z) : string :=
  if x <? 0 then String "-" (zero_pad 6 (pretty (Z.to_N (- x))))
  else zero_pad 7 (pretty (Z.to_N x)).

(** [s.rstrip("-")] *)
Fixpoint rstrip_dash (s : string) : string :=
  match s with
  | EmptyString => EmptyString
  | String c s' =>
      match rstrip_dash s' with
      | EmptyString =>
          if Ascii.eqb c "-" then EmptyString else String c EmptyString
      | r => String c r
      end
  end.

(** [for x in pt_ida_graph_nodes: assert x <= 9999999; lt_state += ...];
    [None] is the failed assertion. *)
Fixpoint lt_state_loop (nodes : list Z) (lt_state : string) : option string :=
  match nodes with
  | [] => Some lt_state
  | x :: rest =>
      if x <=? 9999999
      then lt_state_loop rest (lt_state +:+ format_07d x +:+ "-")
      else None
  end.

Definition build_ida_graph_lt_state (nodes : list Z) : option string :=
  rstrip_dash <$> lt_state_loop nodes EmptyString.

(** The number a string of decimal digits stands for, read from [acc] on;
    [None] when a character is not a digit. *)
Fixpoint digits_value (acc : N) (s : string) : option N :=
  match s with
  | EmptyString => Some acc
  | String c s' =>
      match Ascii.is_nat c with
      | Some d => digits_value (acc * 10 + N.of_nat d) s'
      | None => None
      end
  end.

(** [sep.join(fields)] for the separator "-". *)
Fixpoint join_dash (fields : list string) : string :=
  match fields with
  | [] => EmptyString
  | [f] => f
  | f :: rest => f +:+ String "-" (join_dash rest)
  end.

(** * Properties *)

(** ** Construction *)

Section InitProperties.
Context `{Collaborators}.

Lemma check_moves_illegal_Ok (all illegal : list string) :
  check_moves_illegal all illegal = Ok () ↔ Forall (λ x, x ∈ all) illegal.
Proof.
  induction illegal as [|x rest IH]; simpl.
  - split; [constructor | done].
  - case_bool_decide as Hx.
    + rewrite IH. split; [by constructor | by inversion 1].
    + split; [done | by inversion 1].
Qed.

Lemma check_moves_illegal_Raise (all illegal : list string) e :
  check_moves_illegal all illegal = Raise e → ∃ x, x ∈ illegal ∧ x ∉ all.
Proof.
  induction illegal as [|x rest IH]; simpl; [done|].
  case_bool_decide as Hx.
  - intros (y & Hin & Hy)%IH. exists y. split; [by right | done].
  - intros _. exists x. split; [by left | done].
Qed.

Lemma check_moves_illegal_cases (all illegal : list string) :
  check_moves_illegal all illegal = Ok () ∨
  ∃ e, check_moves_illegal all illegal = Raise e.
Proof.
  destruct (check_moves_illegal all illegal) as [[]|e]; eauto.
Qed.

Lemma append_loop_filter (illegal all acc : list string) :
  foldl (λ acc x, if bool_decide (x ∈ illegal) then acc else acc ++ [x])
        acc all
  = acc ++ filter (λ x, x ∉ illegal) all.
Proof.
  revert acc. induction all as [|x all IH]; intros acc; simpl.
  - by rewrite app_nil_r.
  - rewrite IH, filter_cons. case_bool_decide as Hx.
    + by rewrite decide_False by tauto.
    + by rewrite decide_True, <- app_assoc by done.
Qed.

(** C9: [__init__] raises exactly when some supplied illegal move is
    missing from the candidate superset; otherwise the move list is
    [legal_moves] verbatim when that list is non-empty, and else the
    superset filtered, in order, of the illegal moves. *)
Theorem init_raises_iff_unknown_illegal_move
    (all illegal legal : list string) (mult : option Z) :
  ((∃ e, init all illegal legal mult = Raise e)
     ↔ ∃ x, x ∈ illegal ∧ x ∉ all)
  ∧ (∀ self, init all illegal legal mult = Ok self →
       moves_all self =
         if bool_decide (legal = []) then filter (λ x, x ∉ illegal) all
         else legal).
Proof.
  unfold init. split.
  - destruct (check_moves_illegal_cases all illegal) as [Hok|[e He]].
    + rewrite Hok. apply check_moves_illegal_Ok in Hok. split.
      * intros [e' He']. discriminate.
      * intros (x & Hin & Hnot). rewrite Forall_forall in Hok.
        destruct Hnot. by apply Hok.
    + rewrite He. split; [intros _ | by eauto].
      by apply check_moves_illegal_Raise in He.
  - intros self. destruct (check_moves_illegal all illegal); [|done].
    intros [= <-]. simpl. unfold init_moves_all.
    destruct legal; [|done]. by rewrite append_loop_filter.
Qed.
End InitProperties.

(** ** The heuristic *)

Lemma foldr_max_shift (c a : Z) (l : list Z) :
  foldr Z.max (Z.max c a) l = Z.max c (foldr Z.max a l).
Proof. induction l as [|x l IH]; simpl; [done|]. rewrite IH. lia. Qed.

Lemma heuristic_loop_max (self : LookupTableIDAViaGraph) pts costs lt acc :
  Forall2 (stored_cost self) pts costs →
  heuristic_loop (ROW_LENGTH self) pts lt acc
  = Ok (lt ++ (ida_graph_node <$> pts), foldr Z.max acc costs).
Proof.
  intros Hall. revert lt acc.
  induction Hall as [|pt c pts costs Hc _ IH]; intros lt acc; simpl.
  - by rewrite app_nil_r.
  - unfold stored_cost in Hc.
    destruct (py_getitem _ _) as [b|]; [|done]. injection Hc as <-.
    rewrite IH, <- app_assoc. simpl. do 2 f_equal.
    rewrite <- foldr_max_shift. f_equal.
    destruct (Z.gtb_spec (byte_val b) acc); lia.
Qed.

Lemma byte_val_nonneg (b : byte) : 0 ≤ byte_val b.
Proof. unfold byte_val. lia. Qed.

Lemma heuristic_loop_lower row pts lt acc lt' c :
  heuristic_loop row pts lt acc = Ok (lt', c) → acc ≤ c.
Proof.
  revert lt acc. induction pts as [|pt pts IH]; intros lt acc; simpl.
  - intros [= _ <-]. lia.
  - destruct (py_getitem _ _) as [b|]; [|done].
    intros Hrec%IH. destruct (Z.gtb_spec (byte_val b) acc); lia.
Qed.

(** C3: the heuristic leaves the store as it found it, and where every
    table has a cost byte at its node's row it returns the tuple of the
    tables' nodes with the maximum (not the sum) of those bytes. *)
Theorem ida_heuristic_is_max_cost (self : LookupTableIDAViaGraph) (s : Store) :
  (ida_heuristic self s).2 = s
  ∧ ∀ costs, Forall2 (stored_cost self) (prune_tables s) costs →
      (ida_heuristic self s).1
      = Ok (ida_graph_node <$> prune_tables s, foldr Z.max 0 costs).
Proof.
  split; [done|]. intros costs Hall. unfold ida_heuristic. simpl.
  by rewrite (heuristic_loop_max _ _ costs).
Qed.

(** ** Reasoning about the monad *)

Lemma bind_ext {A B} (m1 m2 : M A) (k1 k2 : A → M B) (s : Store) :
  m1 s = m2 s → (∀ a s', k1 a s' = k2 a s') → bind m1 k1 s = bind m2 k2 s.
Proof.
  intros Hm Hk. unfold bind. rewrite Hm.
  destruct (m2 s) as [[a|e] s']; [apply Hk | done].
Qed.

Lemma wp_bind {A B} (m : M A) (k : A → M B) Q s :
  wp m (λ r s', match r with
                | Ok a => wp (k a) Q s'
                | Raise e => Q (Raise e) s'
                end) s →
  wp (bind m k) Q s.
Proof. unfold wp, bind. by destruct (m s) as [[a|e] s']. Qed.

Lemma wp_mono {A} (m : M A) (Q Q' : result A → Store → Prop) s :
  (∀ r s', Q r s' → Q' r s') → wp m Q s → wp m Q' s.
Proof. unfold wp. auto. Qed.

(** ** One call of [ida_search] *)

Section SearchProperties.
Variable self : LookupTableIDAViaGraph.

(** The body of [ida_search], with the monad unfolded. *)
Lemma ida_search_fuel_S fuel cost steps T prev nodes s :
  ida_search_fuel self (S fuel) cost steps T prev nodes s =
    let s1 := set_ida_count (ida_count s + 1) s in
    match heuristic_loop (ROW_LENGTH self) (prune_tables s) [] 0 with
    | Raise e => (Raise e, s1)
    | Ok (lt_state, cost_to_goal) =>
        let f_cost := cost + cost_to_goal in
        if f_cost >=? T then (Ok (f_cost, false), s1)
        else if cost_to_goal =? 0 then
          (Ok (f_cost, true),
           set_ida_nodes (dict_set lt_state steps (ida_nodes s)) s1)
        else if default 99 (explored s !! lt_state) <=? cost then
          (Ok (f_cost, false), s1)
        else
          let s2 := set_explored (<[lt_state := cost]> (explored s)) s1 in
          match steps_not_on_same_face_and_layer self !! prev with
          | None => (Raise KeyError, s2)
          | Some next_steps =>
              ida_loop self (ida_search_fuel self fuel) cost steps T nodes
                f_cost next_steps None s2
          end
    end.
Proof.
  cbn [ida_search_fuel]. unfold bind, modify, ida_heuristic. cbn.
  destruct (heuristic_loop _ _ _ _) as [[lt ctg]|e]; [|done]. cbn.
  destruct (_ >=? _); [done|]. destruct (ctg =? 0); [done|].
  unfold gets. cbn. destruct (_ <=? _); [done|].
  unfold lookup_or. by destruct (_ !! prev).
Qed.

Lemma try_step_ext rec1 rec2 cost steps T nodes step s :
  (∀ steps' prev' nodes' s',
     rec1 (cost + 1) steps' T prev' nodes' s'
     = rec2 (cost + 1) steps' T prev' nodes' s') →
  try_step self rec1 cost steps T nodes step s
  = try_step self rec2 cost steps T nodes step s.
Proof.
  intros Hrec. unfold try_step.
  repeat (apply bind_ext; [done|]; intros ? ?). apply Hrec.
Qed.

Lemma ida_loop_ext rec1 rec2 cost steps T nodes f next skip s :
  (∀ steps' prev' nodes' s',
     rec1 (cost + 1) steps' T prev' nodes' s'
     = rec2 (cost + 1) steps' T prev' nodes' s') →
  ida_loop self rec1 cost steps T nodes f next skip s
  = ida_loop self rec2 cost steps T nodes f next skip s.
Proof.
  intros Hrec. revert skip s.
  induction next as [|step rest IH]; intros skip s; [done|].
  cbn [ida_loop]. apply bind_ext; [done|]. intros [] s0; [apply IH|].
  apply bind_ext; [by apply try_step_ext|].
  intros [f' []] s1; [done | apply IH].
Qed.

(** Past the depth bound the fuel no longer matters. *)
Lemma ida_search_fuel_irrel n m cost steps T prev nodes s :
  (Z.to_nat (T - cost) < n)%nat → (Z.to_nat (T - cost) < m)%nat →
  ida_search_fuel self n cost steps T prev nodes s
  = ida_search_fuel self m cost steps T prev nodes s.
Proof.
  revert m cost steps prev nodes s.
  induction n as [|n IH]; intros [|m] cost steps prev nodes s Hn Hm;
    [lia..|].
  rewrite !ida_search_fuel_S. cbn zeta.
  destruct (heuristic_loop _ _ _ _) as [[lt ctg]|e] eqn:Hh; [|done].
  apply heuristic_loop_lower in Hh.
  destruct (Z.geb_spec (cost + ctg) T); [done|].
  destruct (ctg =? 0); [done|]. destruct (_ <=? cost); [done|].
  destruct (_ !! prev); [|done].
  apply ida_loop_ext. intros. apply IH; lia.
Qed.

(** The recursion equation of [ida_search]: the recursive calls are calls
    of [ida_search] itself. *)
Lemma ida_search_unfold cost steps T prev nodes s :
  ida_search self cost steps T prev nodes s =
    let s1 := set_ida_count (ida_count s + 1) s in
    match heuristic_loop (ROW_LENGTH self) (prune_tables s) [] 0 with
    | Raise e => (Raise e, s1)
    | Ok (lt_state, cost_to_goal) =>
        let f_cost := cost + cost_to_goal in
        if f_cost >=? T then (Ok (f_cost, false), s1)
        else if cost_to_goal =? 0 then
          (Ok (f_cost, true),
           set_ida_nodes (dict_set lt_state steps (ida_nodes s)) s1)
        else if default 99 (explored s !! lt_state) <=? cost then
          (Ok (f_cost, false), s1)
        else
          let s2 := set_explored (<[lt_state := cost]> (explored s)) s1 in
          match steps_not_on_same_face_and_layer self !! prev with
          | None => (Raise KeyError, s2)
          | Some next_steps =>
              ida_loop self (ida_search self) cost steps T nodes
                f_cost next_steps None s2
          end
    end.
Proof.
  unfold ida_search at 1. rewrite ida_search_fuel_S. cbn zeta.
  destruct (heuristic_loop _ _ _ _) as [[lt ctg]|e] eqn:Hh; [|done].
  apply heuristic_loop_lower in Hh.
  destruct (Z.geb_spec (cost + ctg) T); [done|].
  destruct (ctg =? 0); [done|]. destruct (_ <=? cost); [done|].
  destruct (_ !! prev); [|done].
  apply ida_loop_ext. intros. unfold ida_search.
  apply ida_search_fuel_irrel; lia.
Qed.
End SearchProperties.

(** ** The tables built by [__init__] *)

Section CacheProperties.
Context `{Collaborators}.

Lemma cache_pair_cache p acc x :
  (cache_pair p acc x).1
  = <[(p, x) := steps_on_same_face_and_layer p x]> acc.1.
Proof. unfold cache_pair. by destruct (steps_on_same_face_and_layer p x). Qed.

Lemma cache_fold_inner p l acc a b :
  (foldl (cache_pair p) acc l).1 !! (a, b)
  = if bool_decide (a = p ∧ b ∈ l)
    then Some (steps_on_same_face_and_layer a b) else acc.1 !! (a, b).
Proof.
  revert acc. induction l as [|x l IH]; intros acc; cbn [foldl].
  - rewrite bool_decide_eq_false_2; [done|]. intros [_ Hb]. inversion Hb.
  - rewrite IH, cache_pair_cache.
    destruct (decide (a = p ∧ b ∈ l)) as [[-> Hb]|Hn].
    + rewrite !bool_decide_eq_true_2; [done| |done]. split; [done|by right].
    + rewrite (bool_decide_eq_false_2 _ Hn).
      destruct (decide ((p, x) = (a, b))) as [[= -> ->]|Hne].
      * rewrite lookup_insert_eq, bool_decide_eq_true_2; [done|].
        split; [done|by left].
      * rewrite lookup_insert_ne by done.
        rewrite bool_decide_eq_false_2; [done|].
        intros [-> [->|Hb]%elem_of_cons]; [done|]. by apply Hn.
Qed.

Lemma cache_fold_outer ps moves acc a b :
  (foldl (λ acc p, foldl (cache_pair p) acc moves) acc ps).1 !! (a, b)
  = if bool_decide (a ∈ ps ∧ b ∈ moves)
    then Some (steps_on_same_face_and_layer a b) else acc.1 !! (a, b).
Proof.
  revert acc. induction ps as [|p ps IH]; intros acc; cbn [foldl].
  - rewrite bool_decide_eq_false_2; [done|]. intros [Ha _]. inversion Ha.
  - rewrite IH, cache_fold_inner.
    destruct (decide (a ∈ ps ∧ b ∈ moves)) as [[Ha Hb]|Hn].
    + rewrite !bool_decide_eq_true_2; [done| |done]. split; [by right|done].
    + rewrite (bool_decide_eq_false_2 _ Hn).
      destruct (decide (a = p ∧ b ∈ moves)) as [[-> Hb]|Hn'].
      * rewrite !bool_decide_eq_true_2; [done| |done]. split; [by left|done].
      * rewrite !bool_decide_eq_false_2; [done| |done].
        intros [[->|Ha]%elem_of_cons Hb]; [by apply Hn'|by apply Hn].
Qed.

(** The cache holds the relation for every pair the search can ask for. *)
Lemma init_caches_cache moves (a b : string) :
  a ∈ moves → b ∈ moves →
  (init_caches moves).1 !! (Some a, b)
  = Some (steps_on_same_face_and_layer (Some a) b).
Proof.
  intros Ha Hb. unfold init_caches. rewrite cache_fold_outer.
  rewrite bool_decide_eq_true_2; [done|]. split; [|done].
  apply elem_of_app. left. by apply list_elem_of_fmap_2.
Qed.

Lemma cache_pair_unrelated p acc x :
  unrelated_lists acc.2 → unrelated_lists (cache_pair p acc x).2.
Proof.
  intros Hacc. unfold cache_pair.
  destruct (steps_on_same_face_and_layer p x) eqn:Hpx; [done|]. simpl.
  intros q l. destruct (decide (p = q)) as [<-|Hne].
  - rewrite lookup_insert_eq. intros [= <-]. apply Forall_app. split.
    + destruct (acc.2 !! p) as [l0|] eqn:Hl0; simpl; [by eapply Hacc|done].
    + by constructor.
  - rewrite lookup_insert_ne by done. apply Hacc.
Qed.

Lemma init_caches_unrelated moves : unrelated_lists (init_caches moves).2.
Proof.
  unfold init_caches.
  assert (Hin : ∀ p l acc, unrelated_lists acc.2 →
            unrelated_lists (foldl (cache_pair p) acc l).2).
  { intros p l. induction l as [|x l IH]; intros acc Hacc; simpl; [done|].
    apply IH. by apply cache_pair_unrelated. }
  generalize ((Some <$> moves) ++ [None]). intros ps.
  assert (Hempty : unrelated_lists
            (∅ : gmap (option string * string) bool,
             ∅ : gmap (option string) (list string)).2).
  { intros p l. simpl. by rewrite lookup_empty. }
  revert Hempty. generalize (∅ : gmap (option string * string) bool,
                             ∅ : gmap (option string) (list string)).
  induction ps as [|p ps IH]; intros acc Hacc; simpl; [done|].
  apply IH. by apply Hin.
Qed.

Lemma init_caches_built all illegal legal mult self :
  init all illegal legal mult = Ok self → caches_built self.
Proof.
  unfold init. destruct (check_moves_illegal _ _); [|done].
  by intros [= <-].
Qed.

Lemma with_recolor_caches_built positions colors self :
  caches_built self → caches_built (with_recolor positions colors self).
Proof. done. Qed.

Lemma built_cache_lookup self (a b : string) :
  caches_built self → a ∈ moves_all self → b ∈ moves_all self →
  steps_on_same_face_and_layer_cache self !! (Some a, b)
  = Some (steps_on_same_face_and_layer (Some a) b).
Proof. intros [-> _]. apply init_caches_cache. Qed.

Lemma built_unrelated self :
  caches_built self →
  unrelated_lists (steps_not_on_same_face_and_layer self).
Proof. intros [_ ->]. apply init_caches_unrelated. Qed.
End CacheProperties.

(** ** Cutoff, goal test and memo *)

(** C4: a call whose f-cost reaches the threshold returns [(f_cost, False)]
    and only counts itself: nothing is recorded and no table moves, even
    at a goal node; below the threshold a goal node records
    [steps_to_here] and returns [(f_cost, True)]. *)
Theorem ida_search_cutoff_then_goal (self : LookupTableIDAViaGraph)
    cost steps T prev nodes s lt_state cost_to_goal :
  (ida_heuristic self s).1 = Ok (lt_state, cost_to_goal) →
  (T ≤ cost + cost_to_goal →
     ida_search self cost steps T prev nodes s
     = (Ok (cost + cost_to_goal, false), set_ida_count (ida_count s + 1) s))
  ∧ (cost + cost_to_goal < T → cost_to_goal = 0 →
     ida_search self cost steps T prev nodes s
     = (Ok (cost + cost_to_goal, true),
        set_ida_nodes (dict_set lt_state steps (ida_nodes s))
          (set_ida_count (ida_count s + 1) s))).
Proof.
  unfold ida_heuristic. simpl. intros Hh.
  rewrite ida_search_unfold, Hh. cbn zeta. split.
  - intros Hge. by rewrite (proj2 (Z.geb_le _ _)) by done.
  - intros Hlt ->. destruct (Z.geb_spec (cost + 0) T); [lia|done].
Qed.

(** C5, the code against the claim: past the cutoff and the goal test, a
    node recorded in the memo at a cost no greater than [cost_to_here]
    stops the call, and a node recorded at a greater cost, or met for the
    first time at a [cost_to_here] below 99, is recorded and expanded, as
    the claim says.  But a node met for the first time at a
    [cost_to_here] of 99 or more stops the call too, unrecorded and
    unexpanded: the memo is read with the default 99 (line 151), which
    stands for "not explored" only while costs stay below it. *)
Theorem ida_search_explored_memo (self : LookupTableIDAViaGraph)
    cost steps T prev nodes s lt_state cost_to_goal :
  (ida_heuristic self s).1 = Ok (lt_state, cost_to_goal) →
  cost + cost_to_goal < T → cost_to_goal ≠ 0 →
  let s1 := set_ida_count (ida_count s + 1) s in
  let stop := (Ok (cost + cost_to_goal, false), s1) in
  let expand :=
    (let* next_steps :=
       lookup_or KeyError (steps_not_on_same_face_and_layer self !! prev) in
     ida_loop self (ida_search self) cost steps T nodes
       (cost + cost_to_goal) next_steps None)
      (set_explored (<[lt_state := cost]> (explored s)) s1) in
  (∀ c, explored s !! lt_state = Some c → c ≤ cost →
     ida_search self cost steps T prev nodes s = stop)
  ∧ (explored s !! lt_state = None → 99 ≤ cost →
     ida_search self cost steps T prev nodes s = stop)
  ∧ (∀ c, explored s !! lt_state = Some c → cost < c →
     ida_search self cost steps T prev nodes s = expand)
  ∧ (explored s !! lt_state = None → cost < 99 →
     ida_search self cost steps T prev nodes s = expand).
Proof.
  unfold ida_heuristic. simpl. intros Hh Hlt Hne.
  rewrite ida_search_unfold, Hh. cbn zeta.
  destruct (Z.geb_spec (cost + cost_to_goal) T); [lia|].
  destruct (Z.eqb_spec cost_to_goal 0); [done|].
  unfold bind, lookup_or.
  repeat split.
  - intros c -> Hc. simpl. by rewrite (proj2 (Z.leb_le _ _)) by done.
  - intros -> Hc. simpl. by rewrite (proj2 (Z.leb_le _ _)) by done.
  - intros c -> Hc. simpl. rewrite (proj2 (Z.leb_gt _ _)) by done.
    by destruct (_ !! prev).
  - intros -> Hc. simpl. rewrite (proj2 (Z.leb_gt _ _)) by done.
    by destruct (_ !! prev).
Qed.

(** ** The skip-face marker *)

Section SkipMarker.
Context `{Collaborators}.

Lemma ida_loop_skip_one self rec cost steps T nodes f marker step rest s :
  steps_on_same_face_and_layer_cache self !! (Some marker, step) = Some true →
  ida_loop self rec cost steps T nodes f (step :: rest) (Some marker) s
  = ida_loop self rec cost steps T nodes f rest (Some marker) s.
Proof. intros Hc. cbn [ida_loop]. unfold bind, lookup_or. by rewrite Hc. Qed.

Lemma ida_loop_try_one self rec cost steps T nodes f skip step rest s :
  skip = None ∨
  (∃ marker, skip = Some marker ∧
     steps_on_same_face_and_layer_cache self !! (Some marker, step)
     = Some false) →
  ida_loop self rec cost steps T nodes f (step :: rest) skip s
  = (let* '(f_cost_tmp, found_solution) :=
       try_step self rec cost steps T nodes step in
     if found_solution : bool then ret (f_cost_tmp, true)
     else ida_loop self rec cost steps T nodes f rest
            (if f_cost_tmp >? T then Some step else None)) s.
Proof.
  intros [->|(marker & -> & Hc)]; cbn [ida_loop]; unfold bind at 1.
  - done.
  - unfold lookup_or. by rewrite Hc.
Qed.

(** C6: the candidate loop, case by case.  With no candidate left it
    returns [(f_cost, False)] and leaves the store alone.  With the
    marker set, a run of candidates on the marker's face and layer is
    passed over with the store untouched: none of them is applied or
    recursed into.  A candidate that is tried - no marker is set, or the
    marker is a move of another face or layer - is applied and recursed
    into, and then: a found call ends the loop with its result; a call
    that raises ends it with the exception; a not-found call with an
    f-cost above the threshold makes the candidate the marker, and one
    with an f-cost within the threshold clears the marker.  So after a
    candidate has overshot, the loop over nothing but candidates of its
    face and layer returns [(f_cost, False)] in the store that one call
    left. *)
Theorem ida_loop_skip_face_marker self rec cost steps T nodes f :
  caches_built self →
  (∀ skip s,
     ida_loop self rec cost steps T nodes f [] skip s = (Ok (f, false), s))
  ∧ (∀ marker run rest s,
     marker ∈ moves_all self →
     Forall (λ step, step ∈ moves_all self ∧
               steps_on_same_face_and_layer (Some marker) step = true) run →
     ida_loop self rec cost steps T nodes f (run ++ rest) (Some marker) s
     = ida_loop self rec cost steps T nodes f rest (Some marker) s)
  ∧ (∀ skip step rest s,
     candidate_tried self skip step →
     let r := try_step self rec cost steps T nodes step s in
     ida_loop self rec cost steps T nodes f (step :: rest) skip s
     = match r.1 with
       | Ok (f_cost_tmp, true) => (Ok (f_cost_tmp, true), r.2)
       | Ok (f_cost_tmp, false) =>
           ida_loop self rec cost steps T nodes f rest
             (if f_cost_tmp >? T then Some step else None) r.2
       | Raise e => (Raise e, r.2)
       end)
  ∧ (∀ skip step rest s f_cost_tmp s',
     candidate_tried self skip step →
     try_step self rec cost steps T nodes step s
     = (Ok (f_cost_tmp, false), s') →
     (T < f_cost_tmp →
        ida_loop self rec cost steps T nodes f (step :: rest) skip s
        = ida_loop self rec cost steps T nodes f rest (Some step) s')
     ∧ (f_cost_tmp ≤ T →
        ida_loop self rec cost steps T nodes f (step :: rest) skip s
        = ida_loop self rec cost steps T nodes f rest None s'))
  ∧ (∀ skip step run s f_cost_tmp s',
     candidate_tried self skip step →
     step ∈ moves_all self →
     try_step self rec cost steps T nodes step s
     = (Ok (f_cost_tmp, false), s') →
     T < f_cost_tmp →
     Forall (λ m, m ∈ moves_all self ∧
               steps_on_same_face_and_layer (Some step) m = true) run →
     ida_loop self rec cost steps T nodes f (step :: run) skip s
     = (Ok (f, false), s')).
Proof.
  intros Hinit.
  assert (Hrun : ∀ marker run rest s,
    marker ∈ moves_all self →
    Forall (λ step, step ∈ moves_all self ∧
              steps_on_same_face_and_layer (Some marker) step = true) run →
    ida_loop self rec cost steps T nodes f (run ++ rest) (Some marker) s
    = ida_loop self rec cost steps T nodes f rest (Some marker) s).
  { intros marker run rest s Hm Hrun.
    induction Hrun as [|step run [Hstep Hrel] _ IH]; [done|].
    rewrite <- app_comm_cons, ida_loop_skip_one; [done|].
    by rewrite (built_cache_lookup _ _ _ Hinit Hm Hstep), Hrel. }
  assert (Htry : ∀ skip step rest s,
    candidate_tried self skip step →
    ida_loop self rec cost steps T nodes f (step :: rest) skip s
    = match (try_step self rec cost steps T nodes step s).1 with
      | Ok (f_cost_tmp, true) =>
          (Ok (f_cost_tmp, true),
           (try_step self rec cost steps T nodes step s).2)
      | Ok (f_cost_tmp, false) =>
          ida_loop self rec cost steps T nodes f rest
            (if f_cost_tmp >? T then Some step else None)
            (try_step self rec cost steps T nodes step s).2
      | Raise e =>
          (Raise e, (try_step self rec cost steps T nodes step s).2)
      end).
  { intros skip step rest s Htried. rewrite ida_loop_try_one.
    - unfold bind.
      by destruct (try_step self rec cost steps T nodes step s)
        as [[[f_tmp []]|e] s'].
    - destruct Htried as [->|(marker & -> & Hm & Hstep & Hrel)]; [by left|].
      right. exists marker. split; [done|].
      by rewrite (built_cache_lookup _ _ _ Hinit Hm Hstep), Hrel. }
  assert (Hnot : ∀ skip step rest s f_cost_tmp s',
    candidate_tried self skip step →
    try_step self rec cost steps T nodes step s
    = (Ok (f_cost_tmp, false), s') →
    (T < f_cost_tmp →
       ida_loop self rec cost steps T nodes f (step :: rest) skip s
       = ida_loop self rec cost steps T nodes f rest (Some step) s')
    ∧ (f_cost_tmp ≤ T →
       ida_loop self rec cost steps T nodes f (step :: rest) skip s
       = ida_loop self rec cost steps T nodes f rest None s')).
  { intros skip step rest s f_tmp s' Htried Hchild.
    rewrite (Htry skip step rest s Htried), Hchild. cbn [fst snd].
    split; intros Hf.
    - by rewrite (proj2 (Z.gtb_lt _ _)) by lia.
    - destruct (Z.gtb_spec f_tmp T); [lia|done]. }
  split; [done|]. split; [exact Hrun|]. split; [exact Htry|].
  split; [exact Hnot|].
  intros skip step run s f_tmp s' Htried Hstep Hchild Hf Hall.
  rewrite (proj1 (Hnot skip step run s f_tmp s' Htried Hchild) Hf).
  rewrite <- (app_nil_r run). by rewrite (Hrun step run [] s' Hstep Hall).
Qed.
End SkipMarker.

(** ** What a search leaves behind *)

Lemma heuristic_loop_exn row pts lt acc e :
  heuristic_loop row pts lt acc = Raise e → e = IndexError.
Proof.
  revert lt acc. induction pts as [|pt pts IH]; intros lt acc; simpl; [done|].
  destruct (py_getitem _ _); [apply IH | by intros [= <-]].
Qed.

Lemma zip_nodes_graphs pts nodes :
  ida_graph <$> zip_nodes pts nodes = ida_graph <$> pts.
Proof.
  revert nodes. induction pts as [|pt pts IH]; intros [|n nodes]; simpl;
    [done..|]. by rewrite IH.
Qed.

Lemma advance_pt_graph self step pt pt' :
  advance_pt self step pt = Ok pt' → ida_graph pt' = ida_graph pt.
Proof.
  unfold advance_pt. destruct (_ !! step); [|done].
  destruct (unpack_L _); [|done]. by intros [= <-].
Qed.

Lemma advance_pt_exn self step pt : search_exn (advance_pt self step pt).
Proof.
  unfold advance_pt. destruct (_ !! step); simpl; [|by left].
  destruct (unpack_L _); simpl; [done | by right; right].
Qed.

Lemma for_each_pt_from_post self step done todo :
  let r := for_each_pt_from (advance_pt self step) done todo in
  search_exn r.1 ∧ ida_graph <$> r.2 = ida_graph <$> (done ++ todo).
Proof.
  revert done. induction todo as [|pt todo IH]; intros done; simpl.
  - by rewrite app_nil_r.
  - pose proof (advance_pt_exn self step pt) as Hexn.
    destruct (advance_pt self step pt) as [pt'|e] eqn:Hpt; simpl; [|done].
    destruct (IH (done ++ [pt'])) as [IH1 IH2]. split; [done|].
    rewrite IH2, <- app_assoc, !fmap_app. simpl.
    by rewrite (advance_pt_graph _ _ _ _ Hpt).
Qed.

Lemma elem_of_dict_set {K V} `{EqDecision K} (k k0 : K) (v v0 : V) d :
  (k, v) ∈ dict_set k0 v0 d → (k, v) = (k0, v0) ∨ (k, v) ∈ d.
Proof.
  induction d as [|[k' v'] d IH]; simpl.
  - intros ->%list_elem_of_singleton. by left.
  - case_decide as Hk.
    + intros [->|Hin]%elem_of_cons; [by left | right; by right].
    + intros [->|Hin]%elem_of_cons; [right; by left|].
      destruct (IH Hin) as [->|Hd]; [by left | right; by right].
Qed.

Section SearchInvariant.
Context `{Collaborators}.
Variable self : LookupTableIDAViaGraph.
Hypothesis Hunrelated :
  unrelated_lists (steps_not_on_same_face_and_layer self).

Lemma search_rel_refl cost steps T prev s : search_rel cost steps T prev s s.
Proof. repeat split. intros k sol Hin. by left. Qed.

Lemma search_rel_trans cost steps T prev s1 s2 s3 :
  search_rel cost steps T prev s1 s2 → search_rel cost steps T prev s2 s3 →
  search_rel cost steps T prev s1 s3.
Proof.
  intros (A1 & A2 & A3 & A4 & A5 & A6 & A7) (B1 & B2 & B3 & B4 & B5 & B6 & B7).
  repeat split; try congruence.
  intros k sol [Hin|Hnew]%B7; [by apply A7 | by right].
Qed.

(** A store that differs only in the counter, the memo or the nodes. *)
Lemma search_rel_scratch cost steps T prev s s' :
  parent s' = parent s →
  pre_recolor_state s' = pre_recolor_state s →
  pre_recolor_solution s' = pre_recolor_solution s →
  original_state s' = original_state s →
  original_solution s' = original_solution s →
  ida_graph <$> prune_tables s' = ida_graph <$> prune_tables s →
  ida_nodes s' = ida_nodes s →
  search_rel cost steps T prev s s'.
Proof.
  intros ? ? ? ? ? ? Hnodes. repeat split; try done.
  intros k sol. rewrite Hnodes. by left.
Qed.

Lemma search_rel_child cost steps T prev step s s' :
  steps_on_same_face_and_layer prev step = false →
  search_rel (cost + 1) (steps ++ [step]) T (Some step) s s' →
  search_rel cost steps T prev s s'.
Proof.
  intros Hstep (A1 & A2 & A3 & A4 & A5 & A6 & A7). repeat split; try done.
  intros k sol [Hin|(ext & -> & Hlen & Hchain)]%A7; [by left|].
  right. exists (step :: ext). rewrite <- app_assoc.
  split; [done|]. split; [rewrite length_cons; lia|]. by split.
Qed.

Lemma set_ida_graph_nodes_post cost steps T prev nodes s :
  wp (set_ida_graph_nodes nodes)
     (λ r s', r = Ok () ∧ search_rel cost steps T prev s s') s.
Proof.
  split; [done|]. apply search_rel_scratch; try done. cbn.
  apply zip_nodes_graphs.
Qed.

Lemma for_each_pt_post cost steps T prev step s :
  wp (for_each_pt (advance_pt self step))
     (λ r s', search_exn r ∧ search_rel cost steps T prev s s') s.
Proof.
  unfold wp, for_each_pt. cbn.
  destruct (for_each_pt_from_post self step [] (prune_tables s))
    as [Hexn Hgraphs].
  split; [done|]. by apply search_rel_scratch.
Qed.

Lemma try_step_post rec cost steps T prev nodes step s :
  (∀ steps' prev' nodes' s0,
     wp (rec (cost + 1) steps' T prev' nodes')
        (search_post (cost + 1) steps' T prev' s0) s0) →
  steps_on_same_face_and_layer prev step = false →
  wp (try_step self rec cost steps T nodes step)
     (search_post cost steps T prev s) s.
Proof.
  intros Hrec Hstep. unfold try_step.
  apply wp_bind.
  eapply wp_mono; [|apply (set_ida_graph_nodes_post cost steps T prev)].
  intros r1 s1 [-> Hs1]. apply wp_bind.
  eapply wp_mono; [|apply (for_each_pt_post cost steps T prev)].
  intros [[]|e] s2 [Hexn Hs2].
  2:{ split; [done|]. by eapply search_rel_trans. }
  apply wp_bind. unfold wp at 1, get_ida_graph_nodes, gets. cbn.
  eapply wp_mono; [|apply Hrec].
  intros r s3 [Hexn' Hs3]. split; [done|].
  eapply search_rel_trans; [exact Hs1|].
  eapply search_rel_trans; [exact Hs2|]. by eapply search_rel_child.
Qed.

Lemma ida_loop_post rec cost steps T prev nodes f next skip s :
  (∀ steps' prev' nodes' s0,
     wp (rec (cost + 1) steps' T prev' nodes')
        (search_post (cost + 1) steps' T prev' s0) s0) →
  Forall (λ m, steps_on_same_face_and_layer prev m = false) next →
  wp (ida_loop self rec cost steps T nodes f next skip)
     (search_post cost steps T prev s) s.
Proof.
  intros Hrec Hnext. revert skip s.
  induction Hnext as [|step rest Hstep _ IH]; intros skip s.
  - split; [done | apply search_rel_refl].
  - cbn [ida_loop]. apply wp_bind.
    assert (Hskip : ∃ o : option bool,
      match skip with
      | None => ret false
      | Some marker => lookup_or KeyError
          (steps_on_same_face_and_layer_cache self !! (Some marker, step))
      end s = (match o with Some b => Ok b | None => Raise KeyError end, s)).
    { destruct skip as [marker|]; [|by exists (Some false)].
      unfold lookup_or. destruct (_ !! (Some marker, step)) as [b|];
        [by exists (Some b) | by exists None]. }
    unfold wp at 1. destruct Hskip as [[[]|] ->]; cbn [fst snd].
    + apply IH.
    + apply wp_bind. eapply wp_mono; [|by apply try_step_post].
      intros [[f' []]|e] s1 [Hexn Hs1]; [done| |done].
      eapply wp_mono; [|apply IH].
      intros r s2 [Hexn' Hs2]. split; [done|]. by eapply search_rel_trans.
    + split; [by left | apply search_rel_refl].
Qed.

Lemma ida_search_fuel_post n cost steps T prev nodes s :
  (Z.to_nat (T - cost) < n)%nat →
  wp (ida_search_fuel self n cost steps T prev nodes)
     (search_post cost steps T prev s) s.
Proof.
  revert cost steps prev nodes s.
  induction n as [|n IH]; intros cost steps prev nodes s Hn; [lia|].
  unfold wp. rewrite ida_search_fuel_S. cbn zeta.
  assert (Hs1 : search_rel cost steps T prev s
                  (set_ida_count (ida_count s + 1) s))
    by by apply search_rel_scratch.
  destruct (heuristic_loop _ _ _ _) as [[lt ctg]|e] eqn:Hh.
  2:{ apply heuristic_loop_exn in Hh as ->. split; [by right; left|done]. }
  apply heuristic_loop_lower in Hh.
  destruct (Z.geb_spec (cost + ctg) T); [done|].
  destruct (Z.eqb_spec ctg 0) as [->|Hne].
  { split; [done|]. repeat split. cbn.
    intros k sol [[= -> ->]|Hin]%elem_of_dict_set; [|by left].
    right. exists []. rewrite app_nil_r. simpl.
    split; [done|]. split; [lia|done]. }
  destruct (_ <=? cost); [done|].
  set (s2 := set_explored _ _).
  assert (Hs2 : search_rel cost steps T prev s s2)
    by by apply search_rel_scratch.
  destruct (_ !! prev) as [next|] eqn:Hnext; [|split; [by left|done]].
  eapply (wp_mono _ (search_post cost steps T prev s2)).
  - intros r s3 [Hexn Hs3]. split; [done|].
    eapply search_rel_trans; [exact Hs2 | exact Hs3].
  - apply ida_loop_post; [|by eapply Hunrelated].
    intros. apply IH. lia.
Qed.

Lemma ida_search_post cost steps T prev nodes s :
  wp (ida_search self cost steps T prev nodes)
     (search_post cost steps T prev s) s.
Proof. apply ida_search_fuel_post. lia. Qed.
End SearchInvariant.

(** ** The candidate lists *)

Section CandidateLists.
Context `{Collaborators}.

Lemma notsame_fold_inner p l acc :
  (foldl (cache_pair p) acc l).2
  = match filter (λ m, steps_on_same_face_and_layer p m = false) l with
    | [] => acc.2
    | fl => <[p := default [] (acc.2 !! p) ++ fl]> acc.2
    end.
Proof.
  revert acc. induction l as [|x l IH]; intros acc; cbn [foldl]; [done|].
  rewrite IH, filter_cons. unfold cache_pair.
  destruct (steps_on_same_face_and_layer p x) eqn:Hpx.
  - by rewrite decide_False by done.
  - rewrite decide_True by done. cbn [fst snd].
    rewrite lookup_insert_eq. cbn [default].
    destruct (filter _ l) as [|y fl]; [done|].
    unfold id. by rewrite insert_insert_eq, <- app_assoc.
Qed.

Lemma notsame_fold_outer ps moves acc q :
  NoDup ps → (∀ p, p ∈ ps → acc.2 !! p = None) →
  (foldl (λ acc p, foldl (cache_pair p) acc moves) acc ps).2 !! q
  = if bool_decide (q ∈ ps)
    then match filter (λ m, steps_on_same_face_and_layer q m = false) moves
         with [] => None | fl => Some fl end
    else acc.2 !! q.
Proof.
  intros Hnd. revert acc.
  induction Hnd as [|p ps Hp Hnd IH]; intros acc Hfresh; cbn [foldl].
  - rewrite bool_decide_eq_false_2; [done|]. by intros ?%elem_of_nil.
  - assert (Hacc : (foldl (cache_pair p) acc moves).2 !! p
             = match filter (λ m, steps_on_same_face_and_layer p m = false)
                       moves with [] => None | fl => Some fl end
             ∧ ∀ p', p' ≠ p →
                 (foldl (cache_pair p) acc moves).2 !! p' = acc.2 !! p').
    { rewrite notsame_fold_inner.
      rewrite (Hfresh p) by by left. cbn [default app].
      destruct (filter (λ m, steps_on_same_face_and_layer p m = false) moves)
        as [|y fl].
      - split; [by apply Hfresh; left | done].
      - split; [by rewrite lookup_insert_eq|].
        intros p' Hne. by rewrite lookup_insert_ne. }
    destruct Hacc as [Hacc_p Hacc_ne].
    rewrite IH.
    + destruct (decide (q ∈ ps)) as [Hq|Hq].
      * rewrite !bool_decide_eq_true_2; [done|by right|done].
      * rewrite (bool_decide_eq_false_2 _ Hq).
        destruct (decide (q = p)) as [->|Hne].
        -- rewrite bool_decide_eq_true_2 by by left. done.
        -- rewrite bool_decide_eq_false_2.
           ++ by apply Hacc_ne.
           ++ by intros [->|?]%elem_of_cons.
    + intros p' Hp'. rewrite Hacc_ne; [apply Hfresh; by right|].
      intros ->. done.
Qed.

(** Without repeated moves, the candidates after [prev] are the moves
    unrelated to [prev], in the order of [moves_all]; the key is absent
    when there is none. *)
Lemma built_candidates self prev :
  caches_built self →
  NoDup (moves_all self) →
  prev ∈ (Some <$> moves_all self) ++ [None] →
  steps_not_on_same_face_and_layer self !! prev
  = match filter (λ m, steps_on_same_face_and_layer prev m = false)
            (moves_all self) with
    | [] => None
    | fl => Some fl
    end.
Proof.
  intros [_ ->] Hnd Hprev. unfold init_caches.
  rewrite notsame_fold_outer.
  - by rewrite bool_decide_eq_true_2.
  - apply NoDup_app. split; [|split].
    + apply NoDup_fmap; [apply _ | done].
    + intros x [m [-> _]]%list_elem_of_fmap [=]%list_elem_of_singleton.
    + apply NoDup_singleton.
  - intros p _. apply lookup_empty.
Qed.

Lemma chain_no_consecutive prev steps :
  chain prev steps → no_consecutive_same_face steps.
Proof.
  revert prev. induction steps as [|x steps IH]; intros prev.
  - intros _ i a b Ha. by rewrite lookup_nil in Ha.
  - intros [_ Hchain] [|i] a b; simpl.
    + intros [= <-]. destruct steps as [|y steps]; [done|].
      intros [= <-]. by destruct Hchain.
    + by apply (IH (Some x)).
Qed.

End CandidateLists.

(** ** Depth of the recursion and length of the solutions *)

Lemma unrelated_collaborators_lists d :
  unrelated_lists (H := unrelated_collaborators) d.
Proof. intros p l _. by apply Forall_forall. Qed.

(** The fuel given to [ida_search_fuel] by [ida_search] never runs out. *)
Lemma ida_search_fuel_enough self cost steps T prev nodes s :
  (ida_search self cost steps T prev nodes s).1 ≠ Raise RecursionError.
Proof.
  destruct (ida_search_post (H := unrelated_collaborators) self
              (unrelated_collaborators_lists _) cost steps T prev nodes s)
    as [Hexn _].
  intros Heq. rewrite Heq in Hexn. by destruct Hexn as [|[|]].
Qed.

(** C10: every solution recorded by a search from the root at threshold
    [T] is shorter than [T]; so a solution of length [L] needs a threshold
    of at least [L + 1], and the empty one a threshold of at least 1. *)
Theorem recorded_solutions_below_threshold self T nodes s :
  ida_nodes s = [] →
  ∀ k sol, (k, sol) ∈ ida_nodes (ida_search self 0 [] T None nodes s).2 →
    Z.of_nat (length sol) < T.
Proof.
  intros Hempty k sol Hin.
  destruct (ida_search_post (H := unrelated_collaborators) self
              (unrelated_collaborators_lists _) 0 [] T None nodes s)
    as (_ & _ & _ & _ & _ & _ & _ & Hsol).
  destruct (Hsol k sol Hin) as [Hold|(ext & -> & Hlen & _)].
  - rewrite Hempty in Hold. by apply elem_of_nil in Hold.
  - simpl. lia.
Qed.

(** ** Choosing the best recorded solution *)

Lemma wp_modify f (Q : result unit → Store → Prop) s :
  Q (Ok ()) (f s) → wp (modify f) Q s.
Proof. done. Qed.

Lemma wp_gets {A} (f : Store → A) (Q : result A → Store → Prop) s :
  Q (Ok (f s)) s → wp (gets f) Q s.
Proof. done. Qed.

Section BestSolution.
Context `{Collaborators}.

(** The accumulator of the selection loop after a prefix [d] of the
    records: nothing yet, or the first of the shortest solutions. *)
Lemma best_fold (d : list (list Z * list string)) :
  match foldl best_step (None, None) d with
  | (None, None) => d = []
  | (Some best, Some len) =>
      len = Z.of_nat (length best) ∧
      ∃ i k, d !! i = Some (k, best) ∧
        ∀ j k' sol, d !! j = Some (k', sol) →
          (length best ≤ length sol)%nat
          ∧ ((j < i)%nat → (length best < length sol)%nat)
  | _ => False
  end.
Proof.
  induction d as [|[k sol] d IH] using rev_ind; [done|].
  rewrite foldl_app. cbn [foldl].
  destruct (foldl best_step (None, None) d) as [[best|] [len|]];
    try done; unfold best_step; cbn [fst snd].
  - destruct IH as (-> & i & k0 & Hi & Hmin).
    destruct (Z.ltb_spec (Z.of_nat (length sol)) (Z.of_nat (length best)))
      as [Hlt|Hge].
    + split; [done|]. exists (length d), k. split.
      * by rewrite lookup_app_r, Nat.sub_diag by lia.
      * intros j k' sol' Hj.
        destruct (lookup_app_Some d [(k, sol)] j (k', sol')) as [Hcases _].
        destruct (Hcases Hj) as [Hd|[Hlen Hlast]].
        -- destruct (Hmin _ _ _ Hd) as [Hle _]. split; lia.
        -- apply lookup_lt_Some in Hj as Hjlt.
           rewrite length_app in Hjlt. simpl in Hjlt.
           replace (j - length d)%nat with 0%nat in Hlast by lia.
           injection Hlast as <- <-. split; lia.
    + split; [done|]. exists i, k0. split.
      * apply lookup_app_l_Some. exact Hi.
      * intros j k' sol' Hj.
        destruct (lookup_app_Some d [(k, sol)] j (k', sol')) as [Hcases _].
        destruct (Hcases Hj) as [Hd|[Hlen Hlast]].
        -- by apply (Hmin _ _ _ Hd).
        -- apply lookup_lt_Some in Hi as Hilt.
           replace (j - length d)%nat with 0%nat in Hlast.
           ++ injection Hlast as <- <-. split; lia.
           ++ apply lookup_lt_Some in Hj. rewrite length_app in Hj.
              simpl in Hj. lia.
  - subst d. split; [done|]. exists 0%nat, k. split; [done|].
    intros [|j] k' sol'; simpl; [|done]. intros [= <- <-]. split; lia.
Qed.

(** [get_best_ida_solution] answers [None] for no records and otherwise
    the first of the shortest recorded solutions. *)
Lemma get_best_ida_solution_first_shortest (s : Store) :
  match get_best_ida_solution s with
  | None => ida_nodes s = []
  | Some best =>
      ∃ i k, ida_nodes s !! i = Some (k, best) ∧
        ∀ j k' sol, ida_nodes s !! j = Some (k', sol) →
          (length best ≤ length sol)%nat
          ∧ ((j < i)%nat → (length best < length sol)%nat)
  end.
Proof.
  unfold get_best_ida_solution. pose proof (best_fold (ida_nodes s)) as Hb.
  destruct (foldl best_step (None, None) (ida_nodes s)) as [[best|] [len|]];
    try done. by destruct Hb as [_ Hb].
Qed.

Lemma get_best_ida_solution_recorded (s : Store) best :
  get_best_ida_solution s = Some best → ∃ k, (k, best) ∈ ida_nodes s.
Proof.
  intros Hbest. pose proof (get_best_ida_solution_first_shortest s) as Hb.
  rewrite Hbest in Hb. destruct Hb as (i & k & Hi & _).
  exists k. by eapply list_elem_of_lookup_2.
Qed.
End BestSolution.

(** ** The driver *)

Section DriverProperties.
Context `{Collaborators}.
Variable R : Collaborators.
Variable self : LookupTableIDAViaGraph.
Hypothesis Hunrelated :
  unrelated_lists (H := R) (steps_not_on_same_face_and_layer self).

Lemma solve_loop_post thresholds s :
  wp (solve_loop (H := H) self thresholds)
     (loop_post (H := H) R thresholds s) s.
Proof.
  revert s. induction thresholds as [|T rest IH]; intros s.
  - by repeat split.
  - cbn [solve_loop].
    apply wp_bind, wp_modify, wp_bind, wp_modify, wp_bind, wp_modify.
    apply wp_bind, wp_gets. apply wp_bind.
    eapply wp_mono; [|apply (ida_search_post (H := R) self Hunrelated)].
    intros r sB [Hexn (B1 & B2 & B3 & B4 & B5 & B6 & B7)].
    cbn in B1, B2, B3, B4, B5, B6, B7.
    destruct r as [r|e]; [|by repeat split].
    apply wp_bind, wp_gets.
    assert (Hrest : wp (solve_loop (H := H) self rest)
                       (loop_post (H := H) R (T :: rest) s) sB).
    { eapply wp_mono; [|apply IH].
      intros r' s' (C1 & C2 & C3 & C4 & C5 & C6).
      repeat split; try congruence.
      destruct r' as [[b|]|e'].
      - destruct C6 as (-> & Cn & Ce & T' & best & HT' & Hne & Hlen & Hch & Hp).
        repeat split; try done. exists T', best.
        repeat split; try done; [by right | congruence].
      - congruence.
      - destruct C6. split; [done | congruence]. }
    destruct (get_best_ida_solution sB) as [[|x best]|] eqn:Hbest;
      [done| |done].
    apply get_best_ida_solution_recorded in Hbest as [k Hk].
    destruct (B7 _ _ Hk) as [Hold|(ext & Hext & Hlen & Hch)];
      [by apply elem_of_nil in Hold|].
    simpl in Hext. subst ext.
    apply wp_bind, wp_modify, wp_bind, wp_modify, wp_bind, wp_modify.
    apply wp_bind, wp_modify.
    do 5 (split; [done|]). do 3 (split; [done|]). exists T, (x :: best).
    split; [by left|]. split; [done|]. split; [lia|]. split; [done|].
    cbn. by rewrite B2, B3.
Qed.

Lemma recolor_loop_post positions s :
  wp (recolor_loop self positions)
     (λ r s', (r = Ok () ∨ r = Raise IndexError) ∧ same_but_parent s s') s.
Proof.
  revert s. induction positions as [|x rest IH]; intros s.
  - split; [by left | by repeat split].
  - cbn [recolor_loop]. apply wp_bind, wp_gets. apply wp_bind.
    unfold lookup_or at 1.
    destruct (py_getitem _ x) as [x_color|];
      [|split; [by right | by repeat split]].
    unfold wp at 1, ret. cbn [fst snd]. apply wp_bind.
    assert (Hrest : ∀ s1, same_but_parent s s1 →
              wp (recolor_loop self rest)
                 (λ r s', (r = Ok () ∨ r = Raise IndexError)
                          ∧ same_but_parent s s') s1).
    { intros s1 Hs1. eapply wp_mono; [|apply IH].
      intros r s' [Hr Hs']. split; [done|].
      unfold same_but_parent in *.
      destruct Hs1 as (?&?&?&?&?&?&?&?), Hs' as (?&?&?&?&?&?&?&?).
      repeat split; congruence. }
    destruct (truthy_color _) as [x_new_color|].
    + apply wp_bind. unfold lookup_or.
      destruct (py_setitem _ x x_new_color) as [st'|].
      * unfold wp at 1, ret. cbn [fst snd]. apply wp_modify.
        apply Hrest. by repeat split.
      * split; [by right | by repeat split].
    + unfold wp at 1, ret. cbn [fst snd]. apply Hrest. by repeat split.
Qed.

Lemma recolor_post s :
  wp (recolor (H := H) self)
     (λ r s', (r = Ok () ∨ r = Raise IndexError) ∧ same_but_parent s s') s.
Proof.
  unfold recolor.
  destruct (_ || _); [|split; [by left | by repeat split]].
  assert (Hstep : ∀ (b : bool) f s1 (k : unit → M unit),
    same_but_parent s s1 →
    (∀ s2, same_but_parent s s2 →
       wp (k ()) (λ r s', (r = Ok () ∨ r = Raise IndexError)
                          ∧ same_but_parent s s') s2) →
    wp (let* _ := if b then modify (λ s, set_parent (f (parent s)) s)
                  else ret () in k ())
       (λ r s', (r = Ok () ∨ r = Raise IndexError) ∧ same_but_parent s s')
       s1).
  { intros b f s1 k Hs1 Hk. apply wp_bind. destruct b.
    - apply wp_modify, Hk. unfold same_but_parent in *. by cbn.
    - unfold wp at 1, ret. cbn [fst snd]. by apply Hk. }
  apply (Hstep _ _ _ (λ _, _)); [by repeat split|]. intros s1 Hs1.
  apply (Hstep _ _ _ (λ _, _)); [done|]. intros s2 Hs2.
  apply (Hstep _ _ _ (λ _, _)); [done|]. intros s3 Hs3.
  eapply wp_mono; [|apply recolor_loop_post].
  intros r s' [Hr Hs']. split; [done|].
  unfold same_but_parent in *.
  destruct Hs3 as (?&?&?&?&?&?&?&?), Hs' as (?&?&?&?&?&?&?&?).
  repeat split; congruence.
Qed.

Lemma check_avoid_oll_post s :
  wp (check_avoid_oll self)
     (λ r s', s' = s ∧ (r = Ok () ∨ r = Raise (NameError "pformat"))) s.
Proof.
  unfold check_avoid_oll. destruct (avoid_oll self); [|by split; [|left]].
  destruct (existsb _ _); by split; [|right].
Qed.

Lemma solve_has_post min_ida_threshold max_ida_threshold s :
  wp (solve (H := H) self min_ida_threshold max_ida_threshold)
     (solve_post (H := H) R self max_ida_threshold s) s.
Proof.
  unfold solve. apply wp_bind, wp_modify. apply wp_bind.
  pose proof (recolor_post
    (set_pre_recolor (state (parent s)) (solution (parent s)) s)) as Hrec.
  unfold wp at 1. unfold wp in Hrec. fold (after_recolor (H := H) self s) in Hrec |- *.
  destruct Hrec as [Hr1 (_ & _ & _ & _ & P1 & P2 & _ & _)].
  cbn in P1, P2. set (s1 := after_recolor (H := H) self s) in *.
  destruct Hr1 as [-> | ->]; [|done].
  apply wp_bind, wp_modify. apply wp_bind.
  eapply wp_mono; [|apply check_avoid_oll_post].
  intros r s2 [-> [-> | ->]]; [|done].
  apply wp_bind, wp_modify. apply wp_bind.
  unfold wp at 1, ida_heuristic. cbn [fst snd].
  destruct (heuristic_loop _ _ _ _) as [[lt ctg]|e] eqn:Hh;
    [|by apply heuristic_loop_exn in Hh as ->].
  set (lo := default ctg min_ida_threshold).
  destruct (Z.geb_spec lo (max_ida_threshold + 1)) as [Hrange|Hrange];
    [done|].
  apply wp_bind. eapply wp_mono; [|apply solve_loop_post].
  intros r s4 (C1 & C2 & C3 & C4 & C5 & C6). cbn in C1, C2, C3, C4.
  destruct r as [[b|]|e].
  - destruct C6 as (-> & _ & _ & T & best & HT & Hne & Hlen & Hch & Hp).
    unfold wp, ret. cbn [fst snd].
    split; [done|]. exists best. split; [done|]. split; [done|].
    apply elem_of_seqZ in HT. split; [lia|].
    rewrite Hp. cbn. rewrite P1, P2. by destruct (parent s).
  - apply wp_bind, wp_modify. unfold wp, raise. cbn.
    by rewrite C3, C4.
  - destruct C6 as [Hexn _]. by destruct Hexn as [->|[->| ->]].
Qed.
End DriverProperties.

(** ** Outcomes of [solve] *)

Section SolveOutcomes.
Context `{Collaborators}.

(** From a root whose heuristic cost is 0 no threshold makes the loop
    return: at a threshold of 0 or less the root is cut off, and above
    that the empty solution is recorded and then dropped by the
    truth test on [best_solution]. *)
Lemma solve_loop_goal_root self thresholds s lt_state :
  heuristic_loop (ROW_LENGTH self) (prune_tables s) [] 0
    = Ok (lt_state, 0) →
  ∃ s', solve_loop self thresholds s = (Ok None, s')
        ∧ prune_tables s' = prune_tables s
        ∧ parent s' = parent s
        ∧ original_state s' = original_state s
        ∧ original_solution s' = original_solution s.
Proof.
  intros Hh. revert s Hh.
  induction thresholds as [|T rest IH]; intros s Hh; [by exists s|].
  cbn [solve_loop]. unfold bind at 1, modify at 1. cbn [fst snd].
  unfold bind at 1, modify at 1. unfold bind at 1, modify at 1.
  unfold bind at 1, get_ida_graph_nodes, gets. unfold bind at 1.
  rewrite ida_search_unfold. cbn [prune_tables set_ida_nodes set_explored
    set_ida_count]. rewrite Hh. cbn zeta.
  destruct (0 + 0 >=? T).
  - unfold bind at 1. unfold get_best_ida_solution. cbn [ida_nodes foldl
      set_ida_count set_ida_nodes fst].
    match goal with |- context [solve_loop self rest ?s1] =>
      destruct (IH s1) as (s' & Hs' & ? & ? & ? & ?); [done|] end.
    exists s'. by rewrite Hs'.
  - cbn [Z.eqb]. unfold bind at 1. unfold get_best_ida_solution.
    cbn [ida_nodes foldl set_ida_count set_ida_nodes fst dict_set best_step
         snd length].
    match goal with |- context [solve_loop self rest ?s1] =>
      destruct (IH s1) as (s' & Hs' & ? & ? & ? & ?); [done|] end.
    exists s'. by rewrite Hs'.
Qed.

(** C1, as the code has it: when the root's heuristic cost is 0,
    [solve] does not return at all but raises the no-solution error. *)
Theorem solve_goal_root_raises_no_solution self
    min_ida_threshold max_ida_threshold s lt_state :
  avoid_oll self = None →
  (recolor self
     (set_pre_recolor (state (parent s)) (solution (parent s)) s)).1
    = Ok () →
  heuristic_loop (ROW_LENGTH self)
    ((λ pt, with_node pt
              (state_index pt (state (parent (after_recolor self s)))))
       <$> prune_tables (after_recolor self s)) [] 0
    = Ok (lt_state, 0) →
  (solve self min_ida_threshold max_ida_threshold s).1
  = Raise (NoIDASolution (default 0 min_ida_threshold)
                         (max_ida_threshold + 1)).
Proof.
  intros Holl Hrec Hh. unfold solve.
  unfold bind at 1, modify at 1. cbn [fst snd]. unfold bind at 1.
  unfold after_recolor in Hh.
  destruct (recolor self _) as [r1 s1]. cbn [fst snd] in Hrec, Hh. subst r1.
  unfold bind at 1, modify at 1. unfold bind at 1, check_avoid_oll.
  rewrite Holl. unfold ret at 1. unfold bind at 1, init_ida_graph_nodes,
    modify at 1. unfold bind at 1, ida_heuristic.
  cbn [prune_tables set_prune_tables set_original parent].
  rewrite Hh.
  destruct (_ >=? _); [done|].
  match goal with |- context [bind (solve_loop self ?ts) _ ?s3] =>
    destruct (solve_loop_goal_root self ts s3 lt_state)
      as (s' & Hs' & _); [done|] end.
  unfold bind at 1. by rewrite Hs'.
Qed.


(** When [solve] returns, it returns [True] and has replayed, on the
    puzzle as it was before the call, a non-empty recorded solution that
    is shorter than the largest threshold and has no two neighbouring
    moves on one face and layer. *)
Lemma solve_success_replays_solution self
    min_ida_threshold max_ida_threshold s b s' :
  caches_built self →
  solve self min_ida_threshold max_ida_threshold s = (Ok b, s') →
  b = true ∧
  ∃ best, best ≠ [] ∧ no_consecutive_same_face best
    ∧ Z.of_nat (length best) < max_ida_threshold
    ∧ parent s' = foldl (λ c step, rotate step c) (parent s) best.
Proof.
  intros Hinit Hsolve.
  pose proof (solve_has_post (H := H) H self
                (built_unrelated _ Hinit)
                min_ida_threshold max_ida_threshold s) as Hpost.
  unfold wp in Hpost. rewrite Hsolve in Hpost. cbn [fst snd] in Hpost.
  destruct Hpost as (-> & best & Hne & Hch & Hlen & Hp).
  split; [done|]. exists best. repeat split; try done.
  by eapply chain_no_consecutive.
Qed.

(** C7: a solution recorded by a search from the root - and so the
    solution [solve] replays when it returns - never has two neighbouring
    moves on the same face and layer, because the candidates listed for
    a previous move are all unrelated to it; when no move is repeated in
    [moves_all], they are exactly the unrelated moves in the order of
    [moves_all]. *)
Theorem recorded_solutions_avoid_same_face self :
  caches_built self →
  (∀ T nodes s, ida_nodes s = [] →
     ∀ k sol, (k, sol) ∈ ida_nodes (ida_search self 0 [] T None nodes s).2 →
       no_consecutive_same_face sol)
  ∧ (∀ min_ida_threshold max_ida_threshold s b s',
       solve self min_ida_threshold max_ida_threshold s = (Ok b, s') →
       ∃ best, no_consecutive_same_face best
         ∧ parent s' = foldl (λ c step, rotate step c) (parent s) best)
  ∧ (∀ prev next,
       steps_not_on_same_face_and_layer self !! prev = Some next →
       Forall (λ m, steps_on_same_face_and_layer prev m = false) next)
  ∧ (NoDup (moves_all self) →
     ∀ prev, prev ∈ (Some <$> moves_all self) ++ [None] →
       steps_not_on_same_face_and_layer self !! prev
       = match filter (λ m, steps_on_same_face_and_layer prev m = false)
                 (moves_all self) with
         | [] => None
         | fl => Some fl
         end).
Proof.
  intros Hinit. pose proof (built_unrelated _ Hinit) as Hun.
  split; [|split; [|split]].
  - intros T nodes s Hempty k sol Hin.
    destruct (ida_search_post self Hun 0 [] T None nodes s)
      as (_ & _ & _ & _ & _ & _ & _ & Hsol).
    destruct (Hsol k sol Hin) as [Hold|(ext & -> & _ & Hchain)].
    + rewrite Hempty in Hold. by apply elem_of_nil in Hold.
    + by eapply chain_no_consecutive.
  - intros lo hi s b s' Hsolve.
    destruct (solve_success_replays_solution _ _ _ _ _ _
                Hinit Hsolve) as (_ & best & _ & Hbest & _ & Hp).
    by exists best.
  - exact Hun.
  - intros Hnd prev Hprev. by apply built_candidates.
Qed.
End SolveOutcomes.

(** ** The properties on the demo instance *)

Lemma demo_self_init :
  init (H := demo_collaborators) demo_moves [] [] None = Ok demo_self.
Proof. vm_compute. reflexivity. Qed.

Lemma demo_self_caches_built : caches_built (H := demo_collaborators) demo_self.
Proof. exact (init_caches_built _ _ _ _ _ demo_self_init). Qed.

Lemma init_raises_iff_unknown_illegal_move_witness :
  (∃ e, init (H := demo_collaborators) ["A"; "B"] ["C"] [] None = Raise e)
  ∧ moves_all demo_self
    = (if bool_decide (@nil string = []) then
         filter (λ x, x ∉ @nil string) demo_moves
       else []).
Proof.
  split.
  - apply (proj1 (init_raises_iff_unknown_illegal_move
                    (H := demo_collaborators) ["A"; "B"] ["C"] [] None)).
    exists "C". split; by_evaluation.
  - apply (proj2 (init_raises_iff_unknown_illegal_move
                    (H := demo_collaborators) demo_moves [] [] None)).
    vm_compute. reflexivity.
Defined.

(** Two tables with stored costs 2 and 3: the heuristic is 3, not 5. *)
Lemma ida_heuristic_is_max_cost_witness :
  (ida_heuristic demo_self
     (new_store {| state := []; solution := [] |}
        [with_node demo_table 2; with_node demo_table 3])).1
  = Ok ([2; 3], 3).
Proof.
  apply (proj2 (ida_heuristic_is_max_cost demo_self
                  (new_store {| state := []; solution := [] |}
                     [with_node demo_table 2; with_node demo_table 3]))
           [2; 3]).
  repeat constructor; vm_compute; reflexivity.
Defined.

(** At the goal node: cut off at threshold 0, recorded at threshold 1. *)
Lemma ida_search_cutoff_then_goal_witness :
  ida_search demo_self 0 [] 0 None [0] (demo_store_at 0)
    = (Ok (0, false), set_ida_count 1 (demo_store_at 0))
  ∧ ida_search demo_self 0 [] 1 None [0] (demo_store_at 0)
    = (Ok (0, true),
       set_ida_nodes [([0], [])] (set_ida_count 1 (demo_store_at 0))).
Proof.
  destruct (ida_search_cutoff_then_goal demo_self 0 [] 0 None [0]
              (demo_store_at 0) [0] 0) as [Hcut _];
    [vm_compute; reflexivity|].
  destruct (ida_search_cutoff_then_goal demo_self 0 [] 1 None [0]
              (demo_store_at 0) [0] 0) as [_ Hgoal];
    [vm_compute; reflexivity|].
  split; [apply Hcut; lia | apply Hgoal; [lia | reflexivity]].
Defined.

(** The defect at a concrete call: a first visit at [cost_to_here = 99]
    passes the cutoff (100 < 101) and the goal test (cost 1), yet the
    node is not recorded in the memo and no child is tried. *)
Lemma ida_search_first_visit_at_99_not_expanded :
  let s := demo_store_at 1 in
  let r := ida_search demo_self 99 [] 101 None [1] s in
  (ida_heuristic demo_self s).1 = Ok ([1], 1)
  ∧ explored s !! [1] = None
  ∧ r.1 = Ok (100, false)
  ∧ explored r.2 !! [1] = None
  ∧ r.2 = set_ida_count 1 s.
Proof. vm_compute. repeat split; reflexivity. Qed.

Lemma ida_search_explored_memo_witness :
  ida_search demo_self 99 [] 101 None [1] (demo_store_at 1)
    = (Ok (100, false), set_ida_count 1 (demo_store_at 1))
  ∧ ida_search demo_self 98 [] 101 None [1] (demo_store_at 1)
    = (let* next_steps :=
         lookup_or KeyError (steps_not_on_same_face_and_layer demo_self !! None) in
       ida_loop demo_self (ida_search demo_self) 98 [] 101 [1] (98 + 1)
         next_steps None)
        (set_explored (<[[1] := 98]> (explored (demo_store_at 1)))
           (set_ida_count (ida_count (demo_store_at 1) + 1) (demo_store_at 1))).
Proof.
  destruct (ida_search_explored_memo demo_self 99 [] 101 None [1]
              (demo_store_at 1) [1] 1) as (_ & Hstop & _);
    [vm_compute; reflexivity | lia | lia |].
  destruct (ida_search_explored_memo demo_self 98 [] 101 None [1]
              (demo_store_at 1) [1] 1) as (_ & _ & _ & Hexpand);
    [vm_compute; reflexivity | lia | lia |].
  split; [apply Hstop; [reflexivity | lia] | apply Hexpand; [reflexivity | lia]].
Defined.

(** From node 2 at threshold 3: A overshoots (f-cost 4) and becomes the
    marker, so the loop over A, A2, A' makes one call and returns
    not-found; with the marker A set, A2 and A' are passed over; B is of
    another face, is tried and finds the goal by B, A. *)
Lemma ida_loop_skip_face_marker_witness :
  let s := demo_store_at 2 in
  let rec := ida_search demo_self in
  let loop := ida_loop demo_self rec 0 [] 3 [2] 2 in
  loop [] (Some "A") s = (Ok (2, false), s)
  ∧ loop ["A"; "A2"; "A'"] None s
    = (Ok (2, false), (try_step demo_self rec 0 [] 3 [2] "A" s).2)
  ∧ ida_count (loop ["A"; "A2"; "A'"] None s).2 = 1
  ∧ loop (["A2"; "A'"] ++ ["B"]) (Some "A") s = loop ["B"] (Some "A") s
  ∧ loop ["B"; "B2"] (Some "A") s
    = (Ok (2, true), (try_step demo_self rec 0 [] 3 [2] "B" s).2)
  ∧ ida_nodes (loop ["B"; "B2"] (Some "A") s).2 = [([0], ["B"; "A"])]
  ∧ loop ["B2"; "B'"] (Some "A") s
    = loop ["B'"] None (try_step demo_self rec 0 [] 3 [2] "B2" s).2.
Proof.
  intros s rec loop.
  destruct (ida_loop_skip_face_marker (H := demo_collaborators)
              demo_self rec 0 [] 3 [2] 2 demo_self_caches_built)
    as (Hnil & Hrun & Htry & Hnot & Hface).
  assert (HA : loop ["A"; "A2"; "A'"] None s
               = (Ok (2, false), (try_step demo_self rec 0 [] 3 [2] "A" s).2)).
  { apply (Hface None "A" ["A2"; "A'"] s 4).
    - by left.
    - by_evaluation.
    - vm_compute. reflexivity.
    - lia.
    - repeat constructor; try reflexivity; by_evaluation. }
  assert (HB : loop ["B"; "B2"] (Some "A") s
               = (Ok (2, true), (try_step demo_self rec 0 [] 3 [2] "B" s).2)).
  { unfold loop. rewrite (Htry (Some "A") "B" ["B2"] s).
    - assert (try_step demo_self rec 0 [] 3 [2] "B" s
              = (Ok (2, true), (try_step demo_self rec 0 [] 3 [2] "B" s).2))
        as -> by (vm_compute; reflexivity).
      done.
    - right. exists "A". split; [reflexivity|].
      split; [by_evaluation|]. split; [by_evaluation | reflexivity]. }
  split; [apply Hnil|]. split; [exact HA|].
  split; [rewrite HA; vm_compute; reflexivity|].
  split.
  { apply Hrun; [by_evaluation|].
    repeat constructor; try reflexivity; by_evaluation. }
  split; [exact HB|].
  split; [rewrite HB; vm_compute; reflexivity|].
  apply (Hnot (Some "A") "B2" ["B'"] s 3
           (try_step demo_self rec 0 [] 3 [2] "B2" s).2);
    [| vm_compute; reflexivity | lia].
  right. exists "A". split; [reflexivity|].
  split; [by_evaluation|]. split; [by_evaluation | reflexivity].
Defined.

(** The search from node 3 at threshold 4 records A, B, A. *)
Lemma recorded_solutions_avoid_same_face_witness :
  no_consecutive_same_face (H := demo_collaborators) ["A"; "B"; "A"].
Proof.
  apply (proj1 (recorded_solutions_avoid_same_face (H := demo_collaborators)
                  demo_self demo_self_caches_built)
           4 [3] (demo_store_at 3) eq_refl [0]).
  by_evaluation.
Defined.

Lemma recorded_solutions_below_threshold_witness :
  Z.of_nat (length ["A"; "B"; "A"]) < 4.
Proof.
  apply (recorded_solutions_below_threshold demo_self 4 [3] (demo_store_at 3)
           eq_refl [0] ["A"; "B"; "A"]%string).
  by_evaluation.
Defined.

(** A solved root under the default thresholds. *)
Lemma solve_goal_root_raises_no_solution_witness :
  (solve (H := demo_collaborators) demo_self None 99 (demo_store "n0")).1
  = Raise (NoIDASolution 0 100).
Proof.
  apply (solve_goal_root_raises_no_solution (H := demo_collaborators)
           demo_self None 99 (demo_store "n0") [0]);
    vm_compute; reflexivity.
Defined.

(** C8 as stated fails: at threshold 1 the search from a solved root
    records the empty solution and [get_best_ida_solution] selects it, but
    [solve] neither resets nor returns; it raises the no-solution error. *)
Theorem solve_drops_recorded_empty_solution :
  let s := (init_ida_graph_nodes (demo_store "n0")).2 in
  let r := ida_search demo_self 0 [] 1 None [0] s in
  r.1 = Ok (0, true)
  ∧ ida_nodes r.2 = [([0], [])]
  ∧ get_best_ida_solution r.2 = Some []
  ∧ (solve (H := demo_collaborators) demo_self None 1 (demo_store "n0")).1
    = Raise (NoIDASolution 0 2).
Proof. vm_compute. repeat split; reflexivity. Qed.



(** ** Two consequences for long searches *)

(** The chain of length 100 has the solution B, A, ..., B, A of 100 moves,
    but at threshold 101 the unvisited node at depth 99 is taken as
    explored (memo default 99), so [solve] with thresholds up to 101 ends
    in the no-solution error. *)
Lemma solve_misses_solution_at_depth_99 :
  follow chain_self (chain_table 100) 100 (concat (replicate 50 ["B"; "A"]))
    = Ok 0
  ∧ (solve (H := demo_collaborators) chain_self None 101 (chain_store 100)).1
    = Raise (NoIDASolution 100 102).
Proof. vm_compute. split; reflexivity. Qed.

(** Each threshold iteration starts from the nodes the previous one left
    in the tables (line 347 reads them back without a reset): with
    thresholds up to 105 the same search returns [True] with the single
    move A, which from the puzzle's node 100 leads nowhere. *)
Lemma solve_restarts_from_last_visited_nodes :
  let r := solve (H := demo_collaborators) chain_self None 105
             (chain_store 100) in
  r.1 = Ok true
  ∧ solution (parent r.2) = ["A"]
  ∧ follow chain_self (chain_table 100) 100 ["A"] = Ok 100.
Proof. vm_compute. repeat split; reflexivity. Qed.

(** * Further properties of the code *)

(** ** Scratch nodes *)

Lemma with_node_same (pt : PruneTable) : with_node pt (ida_graph_node pt) = pt.
Proof. by destruct pt. Qed.

Lemma zip_nodes_nodes pts nodes :
  ida_graph_node <$> zip_nodes pts nodes
  = nodes_after_set (ida_graph_node <$> pts) nodes.
Proof.
  unfold nodes_after_set. rewrite length_fmap. revert nodes.
  induction pts as [|pt pts IH]; intros [|n nodes]; simpl; try done.
  by rewrite IH.
Qed.

Lemma zip_nodes_same pts : zip_nodes pts (ida_graph_node <$> pts) = pts.
Proof.
  induction pts as [|pt pts IH]; simpl; [done|].
  f_equal; [apply with_node_same | apply IH].
Qed.

Lemma set_prune_tables_same s : set_prune_tables (prune_tables s) s = s.
Proof. by destruct s. Qed.

(** X1: after [set_ida_graph_nodes(nodes)], [get_ida_graph_nodes()] reads
    the given nodes for the tables [zip] reaches and the old nodes for the
    rest; the graphs are untouched; and writing back the nodes just read
    changes nothing. *)
Theorem set_then_get_ida_graph_nodes (nodes : list Z) (s : Store) :
  (let* _ := set_ida_graph_nodes nodes in get_ida_graph_nodes) s
  = (Ok (nodes_after_set (ida_graph_node <$> prune_tables s) nodes),
     (set_ida_graph_nodes nodes s).2)
  ∧ ida_graph <$> prune_tables (set_ida_graph_nodes nodes s).2
    = ida_graph <$> prune_tables s
  ∧ (length nodes = length (prune_tables s) →
     (let* _ := set_ida_graph_nodes nodes in get_ida_graph_nodes) s
     = (Ok nodes, (set_ida_graph_nodes nodes s).2))
  ∧ (let* nodes' := get_ida_graph_nodes in set_ida_graph_nodes nodes') s
    = (Ok (), s).
Proof.
  unfold bind, set_ida_graph_nodes, get_ida_graph_nodes, modify, gets.
  cbn. repeat split.
  - by rewrite zip_nodes_nodes.
  - apply zip_nodes_graphs.
  - intros Hlen. rewrite zip_nodes_nodes. unfold nodes_after_set.
    rewrite length_fmap, <- Hlen, firstn_all.
    rewrite drop_ge by (rewrite length_fmap; lia). by rewrite app_nil_r.
  - by rewrite zip_nodes_same, set_prune_tables_same.
Qed.

(** ** The move index and the row layout *)

Lemma init_step_index_snoc (moves : list string) (x : string) :
  init_step_index (moves ++ [x])
  = <[x := Z.of_nat (length moves)]> (init_step_index moves).
Proof.
  unfold init_step_index. rewrite imap_app, foldl_app. simpl.
  by rewrite Nat.add_0_r.
Qed.

Lemma init_step_index_last (moves : list string) (step : string) (i : Z) :
  init_step_index moves !! step = Some i ↔
  ∃ n : nat, i = Z.of_nat n ∧ moves !! n = Some step
             ∧ ∀ m : nat, (n < m)%nat → moves !! m ≠ Some step.
Proof.
  revert i. induction moves as [|x moves IH] using rev_ind; intros i.
  - unfold init_step_index. simpl. rewrite lookup_empty. split; [done|].
    by intros (n & _ & Hn & _).
  - rewrite init_step_index_snoc.
    destruct (decide (x = step)) as [->|Hne].
    + rewrite lookup_insert_eq. split.
      * intros [= <-]. exists (length moves). split; [done|]. split.
        -- by rewrite lookup_app_r, Nat.sub_diag by lia.
        -- intros m Hm. rewrite lookup_ge_None_2; [done|].
           rewrite length_app. simpl. lia.
      * intros (n & -> & Hn & Hlast).
        destruct (decide (n = length moves)) as [->|Hn']; [done|].
        apply lookup_lt_Some in Hn as Hlt. rewrite length_app in Hlt.
        simpl in Hlt. destruct (Hlast (length moves)); [lia|].
        by rewrite lookup_app_r, Nat.sub_diag by lia.
    + rewrite lookup_insert_ne by done. rewrite IH. split.
      * intros (n & -> & Hn & Hlast). exists n. split; [done|]. split.
        -- by apply lookup_app_l_Some.
        -- intros m Hm Hmm. apply lookup_app_Some in Hmm as [Hmm|[_ Hmm]].
           ++ by apply (Hlast m).
           ++ apply list_lookup_singleton_Some in Hmm as [_ ?]. done.
      * intros (n & -> & Hn & Hlast). exists n. split; [done|].
        apply lookup_app_Some in Hn as [Hn|[_ Hn]].
        -- split; [done|]. intros m Hm Hmm. apply (Hlast m Hm).
           by apply lookup_app_l_Some.
        -- apply list_lookup_singleton_Some in Hn as [_ ?]. done.
Qed.

Section StepIndex.
Context `{Collaborators}.

(** X2: in a constructed instance every move of [moves_all], and nothing
    else, has an index; the index is the position of the move's last
    occurrence in [moves_all]; and the four successor bytes of that index
    lie inside a row of [ROW_LENGTH] bytes. *)
Theorem init_step_index_positions all illegal legal mult self :
  init all illegal legal mult = Ok self →
  (∀ step i, step_index self !! step = Some i ↔
     ∃ n : nat, i = Z.of_nat n ∧ moves_all self !! n = Some step
                ∧ ∀ m : nat, (n < m)%nat → moves_all self !! m ≠ Some step)
  ∧ (∀ step, step ∈ moves_all self ↔ is_Some (step_index self !! step))
  ∧ (∀ step i, step_index self !! step = Some i →
       0 ≤ i ∧ 1 + 4 * i + 4 ≤ ROW_LENGTH self)
  ∧ ROW_LENGTH self = 1 + 4 * Z.of_nat (length (moves_all self)).
Proof.
  unfold init. destruct (check_moves_illegal _ _); [|done].
  intros [= <-]. cbn [step_index moves_all ROW_LENGTH].
  set (moves := init_moves_all all illegal legal).
  split; [apply init_step_index_last|]. split; [|split; [|done]].
  - intros step. split.
    + intros Hin. induction moves as [|x moves IH] using rev_ind.
      * by apply elem_of_nil in Hin.
      * rewrite init_step_index_snoc.
        destruct (decide (x = step)) as [->|Hne].
        -- rewrite lookup_insert_eq. by eexists.
        -- rewrite lookup_insert_ne by done. apply IH.
           apply elem_of_app in Hin as [Hin|Hin]; [done|].
           by apply list_elem_of_singleton in Hin.
    + intros [i (n & _ & Hn & _)%init_step_index_last].
      by eapply list_elem_of_lookup_2.
  - intros step i (n & -> & Hn & _)%init_step_index_last.
    apply lookup_lt_Some in Hn. lia.
Qed.
End StepIndex.

Lemma init_step_index_positions_witness :
  step_index demo_self !! "B"%string = Some 3
  ∧ ("B2"%string ∈ moves_all demo_self ↔
     is_Some (step_index demo_self !! "B2"%string)).
Proof.
  destruct (init_step_index_positions (H := demo_collaborators)
              demo_moves [] [] None demo_self demo_self_init)
    as (Hpos & Hin & _).
  split; [|apply Hin].
  apply Hpos. exists 3%nat. split; [reflexivity|]. split; [reflexivity|].
  intros [|[|[|[|[|[|m]]]]]] Hm; try lia; vm_compute; discriminate.
Defined.

(** ** The two move tables *)

Section MoveTables.
Context `{Collaborators}.

Lemma filter_unrelated_nil p (l : list string) :
  filter (λ m, steps_on_same_face_and_layer p m = false) l = [] ↔
  ∀ m, m ∈ l → steps_on_same_face_and_layer p m = true.
Proof.
  split.
  - intros Hnil m Hm.
    destruct (steps_on_same_face_and_layer p m) eqn:Hpm; [done|].
    assert (m ∈ filter (λ m, steps_on_same_face_and_layer p m = false) l)
      as Hf by by apply list_elem_of_filter.
    rewrite Hnil in Hf. by apply elem_of_nil in Hf.
  - intros Hall.
    destruct (filter (λ m, steps_on_same_face_and_layer p m = false) l)
      as [|y fl] eqn:Hf; [done|].
    assert (y ∈ filter (λ m, steps_on_same_face_and_layer p m = false) l)
      as [Hy Hin]%list_elem_of_filter by (rewrite Hf; by left).
    rewrite (Hall y Hin) in Hy. done.
Qed.

Lemma notsame_fold_inner_None p l acc q :
  (foldl (cache_pair p) acc l).2 !! q = None ↔
  acc.2 !! q = None
  ∧ (q = p → filter (λ m, steps_on_same_face_and_layer p m = false) l = []).
Proof.
  rewrite notsame_fold_inner.
  destruct (filter (λ m, steps_on_same_face_and_layer p m = false) l)
    as [|y fl] eqn:Hf.
  - split; [by intros ->|by intros [? _]].
  - destruct (decide (q = p)) as [->|Hne].
    + rewrite lookup_insert_eq. split; [done|]. intros [_ Hq]. by specialize (Hq eq_refl).
    + rewrite lookup_insert_ne by done. split; [by intros ->|by intros [? _]].
Qed.

Lemma notsame_fold_outer_None ps moves acc q :
  (foldl (λ acc p, foldl (cache_pair p) acc moves) acc ps).2 !! q = None ↔
  acc.2 !! q = None
  ∧ (q ∈ ps →
     filter (λ m, steps_on_same_face_and_layer q m = false) moves = []).
Proof.
  revert acc. induction ps as [|p ps IH]; intros acc; cbn [foldl].
  - split; [|by intros [? _]]. intros Hq. split; [done|].
    by intros ?%elem_of_nil.
  - rewrite IH, notsame_fold_inner_None. split.
    + intros [[Hacc Hp] Hps]. split; [done|].
      intros [->|Hin]%elem_of_cons; [by apply Hp | by apply Hps].
    + intros [Hacc Hin]. split; [split; [done|]|].
      * intros ->. apply Hin. by left.
      * intros Hq. apply Hin. by right.
Qed.

Lemma notsame_fold_inner_elems p l acc q next :
  (∀ q l', acc.2 !! q = Some l' → l' ≠ [] ∧ Forall (λ m, m ∈ l) l') →
  (foldl (cache_pair p) acc l).2 !! q = Some next →
  next ≠ [] ∧ Forall (λ m, m ∈ l) next.
Proof.
  intros Hacc. rewrite notsame_fold_inner.
  assert (Hsub : ∀ m,
    m ∈ filter (λ m, steps_on_same_face_and_layer p m = false) l → m ∈ l)
    by (by intros m [_ ?]%list_elem_of_filter).
  destruct (filter (λ m, steps_on_same_face_and_layer p m = false) l)
    as [|y fl] eqn:Hf; [apply Hacc|].
  destruct (decide (p = q)) as [<-|Hne].
  - rewrite lookup_insert_eq. intros [= <-]. split.
    + by destruct (default [] (acc.2 !! p)).
    + apply Forall_app. split.
      * destruct (acc.2 !! p) as [l0|] eqn:Hl0; simpl; [|done].
        by apply (Hacc p).
      * apply Forall_forall. intros m Hm. by apply Hsub.
  - rewrite lookup_insert_ne by done. apply Hacc.
Qed.

Lemma init_caches_elems moves q next :
  (init_caches moves).2 !! q = Some next →
  next ≠ [] ∧ Forall (λ m, m ∈ moves) next.
Proof.
  unfold init_caches. generalize ((Some <$> moves) ++ [None]). intros ps.
  assert (Hempty : ∀ q l',
    (∅ : gmap (option string * string) bool,
     ∅ : gmap (option string) (list string)).2 !! q = Some l' →
    l' ≠ [] ∧ Forall (λ m, m ∈ moves) l').
  { intros q' l'. simpl. by rewrite lookup_empty. }
  revert Hempty q next.
  generalize (∅ : gmap (option string * string) bool,
              ∅ : gmap (option string) (list string)).
  induction ps as [|p ps IH]; intros acc Hacc q next; cbn [foldl].
  - apply Hacc.
  - apply IH. intros q' l'. by apply notsame_fold_inner_elems.
Qed.

(** X3: the relation cache of a constructed instance answers exactly for
    the pairs of a move of [moves_all] (or [None]) with a move of
    [moves_all], and with the value of the relation; it has no other key. *)
Theorem built_cache_exact self p m :
  caches_built self →
  steps_on_same_face_and_layer_cache self !! (p, m)
  = if bool_decide (p ∈ cache_keys (moves_all self) ∧ m ∈ moves_all self)
    then Some (steps_on_same_face_and_layer p m) else None.
Proof.
  intros [-> _]. unfold init_caches. rewrite cache_fold_outer. simpl.
  by rewrite lookup_empty.
Qed.

Lemma candidate_table_keys self p :
  caches_built self →
  (steps_not_on_same_face_and_layer self !! p = None ↔
     p ∉ cache_keys (moves_all self)
     ∨ ∀ m, m ∈ moves_all self → steps_on_same_face_and_layer p m = true)
  ∧ (∀ next, steps_not_on_same_face_and_layer self !! p = Some next →
       next ≠ []
       ∧ Forall (λ m, m ∈ moves_all self) next
       ∧ Forall (λ m, steps_on_same_face_and_layer p m = false) next).
Proof.
  intros Hbuilt. pose proof (built_unrelated _ Hbuilt) as Hun.
  destruct Hbuilt as [_ Hns]. split.
  - rewrite Hns. unfold init_caches. rewrite notsame_fold_outer_None.
    simpl. rewrite lookup_empty. fold (cache_keys (moves_all self)).
    rewrite filter_unrelated_nil. split.
    + intros [_ Hin].
      destruct (decide (p ∈ cache_keys (moves_all self))) as [Hp|Hp];
        [right; by apply Hin | by left].
    + intros Hcases. split; [done|]. intros Hp.
      by destruct Hcases as [Hnot|Hall].
  - intros next Hnext. split; [|split].
    + rewrite Hns in Hnext. by apply init_caches_elems in Hnext as [? _].
    + rewrite Hns in Hnext. by apply init_caches_elems in Hnext as [_ ?].
    + by apply (Hun p).
Qed.

(** X4: the candidate table of a constructed instance has an entry for a
    previous step exactly when that step is a move of [moves_all] or
    [None] and some move is unrelated to it; an entry is never empty, holds
    only moves of [moves_all], and none of them is related to its key. *)
Theorem built_candidate_keys self p :
  caches_built self →
  (steps_not_on_same_face_and_layer self !! p = None ↔
     p ∉ cache_keys (moves_all self)
     ∨ ∀ m, m ∈ moves_all self → steps_on_same_face_and_layer p m = true)
  ∧ (∀ next, steps_not_on_same_face_and_layer self !! p = Some next →
       next ≠ []
       ∧ Forall (λ m, m ∈ moves_all self) next
       ∧ Forall (λ m, steps_on_same_face_and_layer p m = false) next).
Proof. apply candidate_table_keys. Qed.

(** X5: when every move is related to the previous step, a call that gets
    past the cutoff, the goal test and the memo finds no entry for that
    step in the candidate table and ends in [KeyError], after counting
    itself and recording the node in the memo. *)
Theorem ida_search_no_candidates_KeyError self cost steps T prev nodes s
    lt_state cost_to_goal :
  caches_built self →
  (ida_heuristic self s).1 = Ok (lt_state, cost_to_goal) →
  cost + cost_to_goal < T → cost_to_goal ≠ 0 →
  cost < default 99 (explored s !! lt_state) →
  (∀ m, m ∈ moves_all self → steps_on_same_face_and_layer prev m = true) →
  ida_search self cost steps T prev nodes s
  = (Raise KeyError,
     set_explored (<[lt_state := cost]> (explored s))
       (set_ida_count (ida_count s + 1) s)).
Proof.
  intros Hbuilt Hh Hlt Hne Hmemo Hall.
  unfold ida_heuristic in Hh. simpl in Hh.
  rewrite ida_search_unfold, Hh. cbn zeta.
  destruct (Z.geb_spec (cost + cost_to_goal) T); [lia|].
  destruct (Z.eqb_spec cost_to_goal 0); [done|].
  destruct (Z.leb_spec (default 99 (explored s !! lt_state)) cost); [lia|].
  destruct (candidate_table_keys self prev Hbuilt) as [Hkey _].
  rewrite (proj2 Hkey); [done | by right].
Qed.
End MoveTables.

Lemma built_cache_exact_witness :
  steps_on_same_face_and_layer_cache demo_self !! (Some "A"%string, "A2"%string)
    = Some true
  ∧ steps_on_same_face_and_layer_cache demo_self !! (Some "A"%string, "C"%string)
    = None.
Proof.
  split.
  - exact (built_cache_exact (H := demo_collaborators) demo_self
             (Some "A"%string) "A2"%string demo_self_caches_built).
  - exact (built_cache_exact (H := demo_collaborators) demo_self
             (Some "A"%string) "C"%string demo_self_caches_built).
Defined.

Lemma oneface_self_caches_built :
  caches_built (H := demo_collaborators) oneface_self.
Proof.
  apply (init_caches_built (H := demo_collaborators) ["A"; "A2"] [] [] None).
  vm_compute. reflexivity.
Qed.

Lemma built_candidate_keys_witness :
  steps_not_on_same_face_and_layer oneface_self !! Some "A"%string = None.
Proof.
  apply (proj1 (built_candidate_keys (H := demo_collaborators) oneface_self
                  (Some "A"%string) oneface_self_caches_built)).
  right. intros m Hm.
  assert (m = "A"%string ∨ m = "A2"%string) as [-> | ->]; [|done..].
  revert Hm. change (moves_all oneface_self) with ["A"%string; "A2"%string].
  intros [->|[->|[]%elem_of_nil]%elem_of_cons]%elem_of_cons; auto.
Defined.

(** With only A and A2 to choose from, the call below the first move A
    has no candidate left. *)
Lemma ida_search_no_candidates_KeyError_witness :
  (ida_search oneface_self 1 ["A"] 3 (Some "A"%string) [1]
     (chain_store_at 3 1)).1
  = Raise KeyError.
Proof.
  rewrite (ida_search_no_candidates_KeyError (H := demo_collaborators)
             oneface_self 1 ["A"%string] 3 (Some "A"%string) [1]
             (chain_store_at 3 1) [1] 1 oneface_self_caches_built);
    [reflexivity | vm_compute; reflexivity | lia | lia
    | vm_compute; reflexivity |].
  intros m Hm.
  assert (m = "A"%string ∨ m = "A2"%string) as [-> | ->]; [|done..].
  revert Hm. change (moves_all oneface_self) with ["A"%string; "A2"%string].
  intros [->|[->|[]%elem_of_nil]%elem_of_cons]%elem_of_cons; auto.
Defined.

(** ** Reading a successor *)

Lemma byte_val_range (b : byte) : 0 ≤ byte_val b < 256.
Proof.
  unfold byte_val. pose proof (Byte.to_N_bounded b) as Hb. lia.
Qed.

Lemma land_shiftl_small (a b k : Z) :
  0 ≤ k → 0 ≤ b < 2 ^ k → Z.land (Z.shiftl a k) b = 0.
Proof.
  intros Hk Hb. apply Z.bits_inj'. intros n Hn.
  rewrite Z.land_spec, Z.bits_0.
  destruct (Z.lt_ge_cases n k) as [Hlt|Hge].
  - by rewrite Z.shiftl_spec_low.
  - destruct (decide (b = 0)) as [->|Hb0].
    + by rewrite Z.bits_0, andb_false_r.
    + rewrite (Z.bits_above_log2 b n), andb_false_r; [done|lia|].
      assert (Z.log2 b < k) by (apply Z.log2_lt_pow2; lia). lia.
Qed.

Lemma lor_shiftl_add (a b k : Z) :
  0 ≤ k → 0 ≤ b < 2 ^ k → Z.lor (Z.shiftl a k) b = a * 2 ^ k + b.
Proof.
  intros Hk Hb. pose proof (land_shiftl_small a b k Hk Hb) as Hland.
  rewrite <- Z.lxor_lor by done. rewrite <- Z.add_nocarry_lxor by done.
  by rewrite Z.shiftl_mul_pow2.
Qed.

Lemma unpack_L_big_endian b0 b1 b2 b3 :
  unpack_L [b0; b1; b2; b3] = Some (big_endian b0 b1 b2 b3).
Proof.
  unfold unpack_L, big_endian.
  pose proof (byte_val_range b0). pose proof (byte_val_range b1).
  pose proof (byte_val_range b2). pose proof (byte_val_range b3).
  rewrite (lor_shiftl_add (byte_val b2) (byte_val b3) 8) by lia.
  rewrite (lor_shiftl_add (byte_val b1) _ 16) by lia.
  rewrite (lor_shiftl_add (byte_val b0) _ 24) by lia.
  f_equal. lia.
Qed.

Lemma unpack_L_length (bs : list byte) :
  is_Some (unpack_L bs) ↔ length bs = 4%nat.
Proof.
  destruct bs as [|b0 [|b1 [|b2 [|b3 [|b4 bs]]]]]; simpl;
    split; try done; try (by intros [? [=]]); try (by eexists).
Qed.

Lemma py_slice_nonneg {A} (l : list A) (start : Z) :
  0 ≤ start →
  py_slice l start (start + 4) = take 4 (drop (Z.to_nat start) l).
Proof.
  intros Hs. unfold py_slice.
  destruct (Z.ltb_spec start 0); [lia|].
  destruct (Z.ltb_spec (start + 4) 0); [lia|].
  destruct (Z.le_gt_cases (start + 4) (Z.of_nat (length l))) as [Hin|Hout].
  - rewrite !Z.min_l by lia. f_equal. lia.
  - rewrite (Z.min_r (start + 4)) by lia.
    destruct (Z.le_gt_cases start (Z.of_nat (length l))) as [Hs'|Hs'].
    + rewrite Z.min_l by lia. rewrite !take_ge; [done|..];
        rewrite length_drop; lia.
    + rewrite Z.min_r by lia.
      rewrite !drop_ge by lia. by rewrite !take_nil.
Qed.

Lemma advance_pt_cases self step pt :
  (step_index self !! step = None →
   advance_pt self step pt = Raise KeyError)
  ∧ ∀ index, step_index self !! step = Some index →
      let start := successor_offset self pt index in
      0 ≤ start →
      (start + 4 ≤ Z.of_nat (length (ida_graph pt)) →
         ∃ b0 b1 b2 b3,
           ida_graph pt !! Z.to_nat start = Some b0
           ∧ ida_graph pt !! Z.to_nat (start + 1) = Some b1
           ∧ ida_graph pt !! Z.to_nat (start + 2) = Some b2
           ∧ ida_graph pt !! Z.to_nat (start + 3) = Some b3
           ∧ advance_pt self step pt
             = Ok (with_node pt (big_endian b0 b1 b2 b3))
           ∧ 0 ≤ big_endian b0 b1 b2 b3 < 2 ^ 32)
      ∧ (Z.of_nat (length (ida_graph pt)) < start + 4 →
         advance_pt self step pt = Raise StructError).
Proof.
  split; [unfold advance_pt; by intros ->|].
  intros index Hidx start Hstart. unfold advance_pt. rewrite Hidx.
  unfold successor_offset in start. fold start.
  rewrite (py_slice_nonneg _ start Hstart). split.
  - intros Hin.
    assert (length (take 4 (drop (Z.to_nat start) (ida_graph pt))) = 4%nat)
      as Hlen by (rewrite length_take, length_drop; lia).
    destruct (take 4 (drop (Z.to_nat start) (ida_graph pt)))
      as [|b0 [|b1 [|b2 [|b3 [|b4 bs]]]]] eqn:Hbs; try done.
    assert (∀ i : nat, (i < 4)%nat →
              ida_graph pt !! (Z.to_nat start + i)%nat
              = [b0; b1; b2; b3] !! i) as Hget.
    { intros i Hi. rewrite <- Hbs, lookup_take_lt, lookup_drop by done. done. }
    exists b0, b1, b2, b3.
    replace (Z.to_nat (start + 1)) with (Z.to_nat start + 1)%nat by lia.
    replace (Z.to_nat (start + 2)) with (Z.to_nat start + 2)%nat by lia.
    replace (Z.to_nat (start + 3)) with (Z.to_nat start + 3)%nat by lia.
    rewrite <- (Nat.add_0_r (Z.to_nat start)) at 1.
    rewrite !Hget by lia. rewrite unpack_L_big_endian.
    repeat split; try done; unfold big_endian;
      pose proof (byte_val_range b0); pose proof (byte_val_range b1);
      pose proof (byte_val_range b2); pose proof (byte_val_range b3); lia.
  - intros Hout.
    destruct (unpack_L _) as [node|] eqn:Hun; [|done].
    assert (is_Some (unpack_L (take 4 (drop (Z.to_nat start) (ida_graph pt)))))
      as Hlen%unpack_L_length by by eexists.
    rewrite length_take, length_drop in Hlen. lia.
Qed.

(** X6: advancing a table along a step raises [KeyError] when the step has
    no index.  Otherwise, with the successor's offset not negative, it
    succeeds exactly when the four bytes at that offset lie inside the
    graph, the new node is their big-endian value (so between 0 and
    2^32 - 1) and the graph itself is kept; when the graph ends before them
    it raises [struct.error]. *)
Theorem advance_pt_reads_successor self step pt :
  (step_index self !! step = None →
   advance_pt self step pt = Raise KeyError)
  ∧ ∀ index, step_index self !! step = Some index →
      let start := successor_offset self pt index in
      0 ≤ start →
      (start + 4 ≤ Z.of_nat (length (ida_graph pt)) →
         ∃ b0 b1 b2 b3,
           ida_graph pt !! Z.to_nat start = Some b0
           ∧ ida_graph pt !! Z.to_nat (start + 1) = Some b1
           ∧ ida_graph pt !! Z.to_nat (start + 2) = Some b2
           ∧ ida_graph pt !! Z.to_nat (start + 3) = Some b3
           ∧ advance_pt self step pt
             = Ok (with_node pt (big_endian b0 b1 b2 b3))
           ∧ 0 ≤ big_endian b0 b1 b2 b3 < 2 ^ 32)
      ∧ (Z.of_nat (length (ida_graph pt)) < start + 4 →
         advance_pt self step pt = Raise StructError).
Proof. apply advance_pt_cases. Qed.

(** Node 2 of the demo graph under move B (index 3): bytes 63 to 66. *)
Lemma advance_pt_reads_successor_witness :
  advance_pt demo_self "B" (with_node demo_table 2)
    = Ok (with_node (with_node demo_table 2) 1)
  ∧ advance_pt demo_self "B" (with_node demo_table 4) = Raise StructError.
Proof.
  destruct (advance_pt_reads_successor demo_self "B"
              (with_node demo_table 2)) as [_ Hok].
  destruct (advance_pt_reads_successor demo_self "B"
              (with_node demo_table 4)) as [_ Hbad].
  split.
  - destruct (proj1 (Hok 3 eq_refl ltac:(vm_compute; discriminate))
                ltac:(vm_compute; discriminate))
      as (b0 & b1 & b2 & b3 & H0 & H1 & H2 & H3 & Hadv & _).
    vm_compute in H0, H1, H2, H3.
    injection H0 as <-. injection H1 as <-. injection H2 as <-.
    injection H3 as <-. exact Hadv.
  - apply (Hbad 3 eq_refl); [vm_compute; discriminate | reflexivity].
Defined.

(** ** What a consistent search returns *)

Lemma same_tables_refl pts : same_tables pts pts.
Proof. induction pts; by constructor. Qed.

Lemma same_tables_sym pts pts' : same_tables pts pts' → same_tables pts' pts.
Proof.
  induction 1 as [|a b pts pts' [Hg Hs] _ IH]; constructor; [by split | done].
Qed.

Lemma same_tables_trans pts1 pts2 pts3 :
  same_tables pts1 pts2 → same_tables pts2 pts3 → same_tables pts1 pts3.
Proof.
  intros H12. revert pts3.
  induction H12 as [|a b pts1 pts2 [Hg Hs] _ IH]; intros pts3 H23;
    inversion H23 as [|b' c pts2' pts3' [Hg' Hs'] H23']; subst;
    constructor; [split; congruence | by apply IH].
Qed.

Lemma same_tables_length pts pts' :
  same_tables pts pts' → length pts = length pts'.
Proof. induction 1; simpl; congruence. Qed.

Lemma zip_nodes_restore pts pts' :
  same_tables pts pts' → zip_nodes pts' (ida_graph_node <$> pts) = pts.
Proof.
  induction 1 as [|a b pts pts' [Hg Hs] _ IH]; simpl; [done|].
  f_equal; [|exact IH]. destruct a, b. simpl in *. by subst.
Qed.

Lemma for_each_pt_from_done f done todo :
  for_each_pt_from f done todo
  = ((for_each_pt_from f [] todo).1, done ++ (for_each_pt_from f [] todo).2).
Proof.
  revert done. induction todo as [|pt todo IH]; intros done; simpl.
  - by rewrite app_nil_r.
  - destruct (f pt) as [pt'|e]; [|done].
    rewrite (IH (done ++ [pt'])), (IH [pt']). simpl.
    by rewrite <- app_assoc.
Qed.

Lemma for_each_pt_from_same self step todo :
  same_tables todo (for_each_pt_from (advance_pt self step) [] todo).2.
Proof.
  induction todo as [|pt todo IH]; simpl; [constructor|].
  destruct (advance_pt self step pt) as [pt'|e] eqn:Hpt.
  - rewrite for_each_pt_from_done. simpl. constructor; [|exact IH].
    unfold advance_pt in Hpt. destruct (_ !! step); [|done].
    destruct (unpack_L _); [|done]. by injection Hpt as <-.
  - simpl. apply same_tables_refl.
Qed.

Lemma for_each_pt_advance self step s :
  for_each_pt (advance_pt self step) s
  = (match advance_all self step (prune_tables s) with
     | Ok _ => Ok ()
     | Raise e => Raise e
     end,
     set_prune_tables
       (for_each_pt_from (advance_pt self step) [] (prune_tables s)).2 s).
Proof.
  unfold for_each_pt, advance_all. cbn zeta.
  by destruct (for_each_pt_from _ _ _).1 as [[]|e].
Qed.

Lemma heuristic_loop_nodes row pts lt acc lt' c :
  heuristic_loop row pts lt acc = Ok (lt', c) →
  lt' = lt ++ (ida_graph_node <$> pts).
Proof.
  revert lt acc. induction pts as [|pt pts IH]; intros lt acc; simpl.
  - intros [= <- _]. by rewrite app_nil_r.
  - destruct (py_getitem _ _); [|done]. intros ->%IH.
    by rewrite <- app_assoc.
Qed.

Lemma memo_rel_refl cost T e : memo_rel cost T e e.
Proof. split; [intros k v ?; exists v; split; [done|lia] | by left]. Qed.

Lemma memo_rel_trans cost T e1 e2 e3 :
  memo_rel cost T e1 e2 → memo_rel cost T e2 e3 → memo_rel cost T e1 e3.
Proof.
  intros [A1 A2] [B1 B2]. split.
  - intros k v (v' & Hv' & Hle)%A1. apply B1 in Hv' as (v'' & ? & ?).
    exists v''. split; [done|lia].
  - intros k v'' [Hold|(Hc & HT & Hlt)]%B2; [by apply A2|].
    right. split; [done|]. split; [done|].
    destruct (e2 !! k) as [w|] eqn:Hw; simpl in Hlt.
    + apply A2 in Hw as [->|(_ & _ & Hw)]; simpl; lia.
    + destruct (e1 !! k) as [u|] eqn:Hu; [|done].
      apply A1 in Hu as (? & ? & _). congruence.
Qed.

Lemma memo_rel_child cost T e e' :
  memo_rel (cost + 1) T e e' → memo_rel cost T e e'.
Proof.
  intros [A1 A2]. split; [done|].
  intros k v' [?|(? & ? & ?)]%A2; [by left|right; lia].
Qed.

Lemma memo_rel_insert cost T e k :
  cost + 2 ≤ T → cost < default 99 (e !! k) →
  memo_rel cost T e (<[k := cost]> e).
Proof.
  intros HT Hlt. split.
  - intros k' v Hk'. destruct (decide (k = k')) as [<-|Hne].
    + rewrite lookup_insert_eq. exists cost. rewrite Hk' in Hlt. simpl in Hlt.
      split; [done|lia].
    + rewrite lookup_insert_ne by done. exists v. split; [done|lia].
  - intros k' v'. destruct (decide (k = k')) as [<-|Hne].
    + rewrite lookup_insert_eq. intros [= <-]. right. lia.
    + rewrite lookup_insert_ne by done. by left.
Qed.

Section ConsistentSearch.
Variable self : LookupTableIDAViaGraph.

Lemma try_step_consistent rec cost steps T step s pts :
  (∀ steps' prev' s0,
     wp (rec (cost + 1) steps' T prev' (ida_graph_node <$> prune_tables s0))
        (consistent_post self (cost + 1) steps' T s0) s0) →
  same_tables pts (prune_tables s) →
  wp (try_step self rec cost steps T (ida_graph_node <$> pts) step)
     (candidate_post self cost steps T pts s) s.
Proof.
  intros Hrec Hsame. unfold try_step. apply wp_bind.
  unfold wp at 1, set_ida_graph_nodes, modify. cbn [fst snd].
  rewrite (zip_nodes_restore _ _ Hsame). apply wp_bind.
  unfold wp at 1. rewrite for_each_pt_advance. cbn [fst snd prune_tables
    set_prune_tables].
  pose proof (for_each_pt_from_same self step pts) as Hsame'.
  unfold advance_all. cbn zeta.
  destruct (for_each_pt_from (advance_pt self step) [] pts) as [r1 ptsX]
    eqn:Hfor. cbn [fst snd] in Hsame' |- *.
  destruct r1 as [[]|e].
  2:{ split; [done|]. split; [cbn; lia|]. split; [apply memo_rel_refl|done]. }
  apply wp_bind. unfold wp at 1, get_ida_graph_nodes, gets. cbn [fst snd].
  match goal with |- wp _ _ ?s2 => set (s2' := s2) end.
  change (ida_graph_node <$> prune_tables (set_prune_tables ptsX s))
    with (ida_graph_node <$> prune_tables s2').
  eapply wp_mono; [|apply Hrec].
  intros r s3 (C1 & C2 & C3 & C4). cbn in C1, C2, C3.
  split; [by eapply same_tables_trans|]. split; [lia|].
  split; [by apply memo_rel_child|].
  destruct r as [[f []]|e]; [|by destruct C4|done].
  destruct C4 as (ext & -> & Hlt & Hfollow & Hgoal & Hnodes).
  exists (step :: ext). split; [done|]. split; [rewrite length_cons; lia|].
  split; [done|]. split; [|split; [done|]].
  - cbn [follow_all]. unfold advance_all. rewrite Hfor. cbn [fst snd].
    exact Hfollow.
  - rewrite Hnodes, <- app_assoc. done.
Qed.

Lemma ida_loop_consistent rec cost steps T f next skip s pts :
  (∀ steps' prev' s0,
     wp (rec (cost + 1) steps' T prev' (ida_graph_node <$> prune_tables s0))
        (consistent_post self (cost + 1) steps' T s0) s0) →
  same_tables pts (prune_tables s) →
  wp (ida_loop self rec cost steps T (ida_graph_node <$> pts) f next skip)
     (λ r s', candidate_post self cost steps T pts s r s'
              ∧ ∀ f', r = Ok (f', false) → f' = f) s.
Proof.
  intros Hrec. revert skip s.
  induction next as [|step rest IH]; intros skip s Hsame.
  - unfold wp, ret. cbn. split; [|by intros f' [= ->]].
    split; [done|]. split; [lia|]. split; [apply memo_rel_refl|done].
  - cbn [ida_loop]. apply wp_bind.
    assert (Hskip : ∃ o : option bool,
      match skip with
      | None => ret false
      | Some marker => lookup_or KeyError
          (steps_on_same_face_and_layer_cache self !! (Some marker, step))
      end s = (match o with Some b => Ok b | None => Raise KeyError end, s)).
    { destruct skip as [marker|]; [|by exists (Some false)].
      unfold lookup_or. destruct (_ !! (Some marker, step)) as [b|];
        [by exists (Some b) | by exists None]. }
    unfold wp at 1. destruct Hskip as [[[]|] ->]; cbn [fst snd].
    + by apply IH.
    + apply wp_bind. eapply wp_mono; [|by apply try_step_consistent].
      intros r s1 (C1 & C2 & C3 & C4).
      destruct r as [[f' []]|e].
      * unfold wp, ret. cbn [fst snd]. split; [|done].
        split; [done|]. split; [done|]. split; [done|]. exact C4.
      * eapply wp_mono; [|apply IH; exact C1].
        intros r' s2 [(D1 & D2 & D3 & D4) D5]. split; [|done].
        split; [done|]. split; [lia|].
        split; [by eapply memo_rel_trans|].
        destruct r' as [[f'' []]|e'].
        -- destruct D4 as (ext & ? & ? & ? & ? & ? & ?). exists ext.
           repeat split; try done. congruence.
        -- congruence.
        -- congruence.
      * split; [|done].
        split; [done|]. split; [done|]. split; [done|]. exact C4.
    + split; [|done]. split; [done|]. split; [lia|].
      split; [apply memo_rel_refl|done].
Qed.

Lemma ida_search_fuel_consistent n cost steps T prev s :
  (Z.to_nat (T - cost) < n)%nat →
  wp (ida_search_fuel self n cost steps T prev
        (ida_graph_node <$> prune_tables s))
     (consistent_post self cost steps T s) s.
Proof.
  revert cost steps prev s.
  induction n as [|n IH]; intros cost steps prev s Hn; [lia|].
  unfold wp. rewrite ida_search_fuel_S. cbn zeta.
  destruct (heuristic_loop _ _ _ _) as [[lt ctg]|e] eqn:Hh.
  2:{ split; [apply same_tables_refl|]. split; [cbn; lia|].
      split; [apply memo_rel_refl|done]. }
  pose proof (heuristic_loop_lower _ _ _ _ _ _ Hh) as Hctg.
  pose proof (heuristic_loop_nodes _ _ _ _ _ _ Hh) as Hlt. simpl in Hlt.
  destruct (Z.geb_spec (cost + ctg) T).
  { split; [apply same_tables_refl|]. split; [cbn; lia|].
    split; [apply memo_rel_refl|]. split; [done|]. by exists lt, ctg. }
  destruct (Z.eqb_spec ctg 0) as [->|Hne].
  { split; [apply same_tables_refl|]. split; [cbn; lia|].
    split; [apply memo_rel_refl|]. exists []. cbn.
    rewrite app_nil_r, <- Hlt. repeat split; try done; lia. }
  destruct (Z.leb_spec (default 99 (explored s !! lt)) cost).
  { split; [apply same_tables_refl|]. split; [cbn; lia|].
    split; [apply memo_rel_refl|]. split; [done|]. by exists lt, ctg. }
  set (s2 := set_explored _ _).
  assert (Hmemo : memo_rel cost T (explored s) (explored s2))
    by (apply memo_rel_insert; lia).
  destruct (_ !! prev) as [next|] eqn:Hnext.
  2:{ split; [apply same_tables_refl|]. split; [cbn; lia|]. by split. }
  pose proof (ida_loop_consistent (ida_search_fuel self n) cost steps T
                (cost + ctg) next None s2 (prune_tables s)) as Hloop.
  unfold wp in Hloop.
  destruct Hloop as [(D1 & D2 & D3 & D4) D5].
  - intros steps' prev' s0. apply IH. lia.
  - apply same_tables_refl.
  - destruct (ida_loop _ _ _ _ _ _ _ _ _ s2) as [r s3].
    cbn [fst snd] in D1, D2, D3, D4, D5 |- *. cbn in D2.
    split; [done|]. split; [lia|].
    split; [by eapply memo_rel_trans|].
    destruct r as [[f' []]|e'].
    + destruct D4 as (ext & ? & ? & ? & ? & ? & ?). by exists ext.
    + split; [done|]. exists lt, ctg. split; [done|]. by apply D5.
    + done.
Qed.

Lemma ida_search_consistent cost steps T prev s :
  wp (ida_search self cost steps T prev (ida_graph_node <$> prune_tables s))
     (consistent_post self cost steps T s) s.
Proof. apply ida_search_fuel_consistent. lia. Qed.
End ConsistentSearch.

(** X7: a call of [ida_search] whose [nodes] argument is the tables'
    current nodes and that returns found has recorded exactly one
    solution: [steps_to_here] extended by moves that lead, table by table,
    from the entry nodes to the nodes the tables are left on, all of which
    store cost 0; the record's key is that final tuple of nodes, and the
    returned f-cost is the length of the path, below the threshold. *)
Theorem ida_search_found_reaches_goal self cost steps T prev s f s' :
  ida_search self cost steps T prev (ida_graph_node <$> prune_tables s) s
    = (Ok (f, true), s') →
  ∃ ext,
    f = cost + Z.of_nat (length ext) ∧ f < T
    ∧ follow_all self (prune_tables s) ext = Ok (prune_tables s')
    ∧ (ida_heuristic self s').1 = Ok (ida_graph_node <$> prune_tables s', 0)
    ∧ ida_nodes s'
      = dict_set (ida_graph_node <$> prune_tables s') (steps ++ ext)
          (ida_nodes s).
Proof.
  intros Hrun. pose proof (ida_search_consistent self cost steps T prev s)
    as Hpost.
  unfold wp in Hpost. rewrite Hrun in Hpost.
  by destruct Hpost as (_ & _ & _ & Hfound).
Qed.

Lemma ida_search_found_reaches_goal_witness :
  ∃ ext,
    3 = 0 + Z.of_nat (length ext) ∧ 3 < 4
    ∧ follow_all demo_self (prune_tables (demo_store_at 3)) ext
      = Ok (prune_tables
              (ida_search demo_self 0 [] 4 None [3] (demo_store_at 3)).2)
    ∧ (ida_heuristic demo_self
         (ida_search demo_self 0 [] 4 None [3] (demo_store_at 3)).2).1
      = Ok (ida_graph_node <$>
              prune_tables
                (ida_search demo_self 0 [] 4 None [3] (demo_store_at 3)).2, 0)
    ∧ ida_nodes (ida_search demo_self 0 [] 4 None [3] (demo_store_at 3)).2
      = dict_set
          (ida_graph_node <$>
             prune_tables
               (ida_search demo_self 0 [] 4 None [3] (demo_store_at 3)).2)
          ([] ++ ext) (ida_nodes (demo_store_at 3)).
Proof.
  apply (ida_search_found_reaches_goal demo_self 0 [] 4 None
           (demo_store_at 3) 3).
  vm_compute. reflexivity.
Defined.

(** X8: a consistent call that does not return found - it returns
    not-found or raises - leaves [ida_nodes] as it was; and a not-found
    call returns its own f-cost, [cost_to_here] plus the heuristic of the
    node it was entered on, whatever its children returned. *)
Theorem ida_search_not_found_records_nothing self cost steps T prev s :
  let r := ida_search self cost steps T prev
             (ida_graph_node <$> prune_tables s) s in
  ((∀ f, r.1 ≠ Ok (f, true)) → ida_nodes r.2 = ida_nodes s)
  ∧ (∀ f, r.1 = Ok (f, false) →
       ∃ lt_state cost_to_goal,
         (ida_heuristic self s).1 = Ok (lt_state, cost_to_goal)
         ∧ f = cost + cost_to_goal).
Proof.
  intros r. pose proof (ida_search_consistent self cost steps T prev s)
    as Hpost.
  unfold wp in Hpost. fold r in Hpost.
  destruct Hpost as (_ & _ & _ & Hcase). split.
  - intros Hnot. destruct r.1 as [[f []]|e]; [by destruct (Hnot f)| |done].
    by destruct Hcase.
  - intros f Hf. rewrite Hf in Hcase. by destruct Hcase.
Qed.

(** X9: a consistent call counts at least itself in [ida_count], keeps the
    tables apart from their scratch nodes, and treats the memo
    monotonically: no key is dropped, no recorded cost grows, and a cost
    it writes lies between [cost_to_here] and the threshold minus 2 and is
    below what the memo answered before (99 for a missing key) - so from
    an empty memo every recorded cost is below 99. *)
Theorem ida_search_memo_monotone self cost steps T prev s :
  let s' := (ida_search self cost steps T prev
               (ida_graph_node <$> prune_tables s) s).2 in
  ida_count s < ida_count s'
  ∧ same_tables (prune_tables s) (prune_tables s')
  ∧ (∀ k v, explored s !! k = Some v →
       ∃ v', explored s' !! k = Some v' ∧ v' ≤ v)
  ∧ (∀ k v', explored s' !! k = Some v' →
       explored s !! k = Some v'
       ∨ (cost ≤ v' ∧ v' + 2 ≤ T ∧ v' < default 99 (explored s !! k)))
  ∧ (explored s = ∅ → ∀ k v', explored s' !! k = Some v' → v' < 99).
Proof.
  intros s'. pose proof (ida_search_consistent self cost steps T prev s)
    as Hpost.
  unfold wp in Hpost. fold s' in Hpost.
  destruct Hpost as (Hsame & Hcount & [Hkeep Hnew] & _).
  repeat split; try done.
  intros Hempty k v' [Hold|(_ & _ & Hlt)]%Hnew.
  - by rewrite Hempty, lookup_empty in Hold.
  - by rewrite Hempty, lookup_empty in Hlt.
Qed.

(** ** Searches on well-formed tables *)

Lemma init_step_index_member moves step :
  step ∈ moves → is_Some (init_step_index moves !! step).
Proof.
  induction moves as [|x moves IH] using rev_ind; intros Hin.
  - by apply elem_of_nil in Hin.
  - rewrite init_step_index_snoc.
    destruct (decide (x = step)) as [->|Hne].
    + rewrite lookup_insert_eq. by eexists.
    + rewrite lookup_insert_ne by done. apply IH.
      apply elem_of_app in Hin as [Hin|Hin]; [done|].
      by apply list_elem_of_singleton in Hin.
Qed.

Section SafeSearch.
Context `{Collaborators}.
Variable self : LookupTableIDAViaGraph.
Hypothesis Hself : constructed self.

Lemma constructed_index step :
  step ∈ moves_all self →
  ∃ index, step_index self !! step = Some index
           ∧ 0 ≤ index ∧ 1 + 4 * index + 4 ≤ ROW_LENGTH self.
Proof.
  destruct Hself as (_ & Hidx & Hrow). intros Hin.
  destruct (init_step_index_member _ _ Hin) as [i Hi].
  exists i. rewrite Hidx. split; [done|].
  apply init_step_index_last in Hi as (n & -> & Hn & _).
  apply lookup_lt_Some in Hn. lia.
Qed.

Lemma table_closed_heuristic pt :
  table_closed self pt →
  is_Some (py_getitem (ida_graph pt) (ida_graph_node pt * ROW_LENGTH self)).
Proof.
  destruct Hself as (_ & _ & Hrow). intros (n & Hlen & Hnode & _).
  unfold py_getitem, py_index.
  assert (0 ≤ ida_graph_node pt * ROW_LENGTH self
          < Z.of_nat (length (ida_graph pt))) as Hoff by nia.
  destruct (Z.leb_spec 0 (ida_graph_node pt * ROW_LENGTH self)); [|lia].
  destruct (Z.ltb_spec (ida_graph_node pt * ROW_LENGTH self)
              (Z.of_nat (length (ida_graph pt)))); [|lia].
  simpl. apply lookup_lt_is_Some. lia.
Qed.

Lemma closed_heuristic_loop pts lt acc :
  Forall (table_closed self) pts →
  ∃ lt' c, heuristic_loop (ROW_LENGTH self) pts lt acc = Ok (lt', c).
Proof.
  intros Hpts. revert lt acc.
  induction Hpts as [|pt pts Hpt _ IH]; intros lt acc; simpl; [by eexists _, _|].
  destruct (table_closed_heuristic pt Hpt) as [b ->]. apply IH.
Qed.

Lemma closed_advance_pt step pt :
  step ∈ moves_all self → table_closed self pt →
  ∃ pt', advance_pt self step pt = Ok pt' ∧ table_closed self pt'.
Proof.
  intros Hstep Hpt. pose proof Hpt as (n & Hlen & Hnode & Hclosed).
  destruct (constructed_index step Hstep) as (index & Hidx & Hi0 & Hi1).
  destruct (advance_pt_cases self step pt) as [_ Hcases].
  specialize (Hcases index Hidx). cbn zeta in Hcases.
  unfold successor_offset in Hcases.
  destruct Hcases as [Hok _]; [nia|].
  destruct Hok as (b0 & b1 & b2 & b3 & _ & _ & _ & _ & Hadv & Hrange);
    [nia|].
  eexists. split; [exact Hadv|]. exists n. cbn. split; [done|]. split.
  - split; [lia|].
    apply (Hclosed (ida_graph_node pt) step
             (with_node pt (big_endian b0 b1 b2 b3))); [done|].
    by rewrite with_node_same.
  - intros node step' pt' Hn Hadv'. by apply (Hclosed node step').
Qed.

Lemma closed_advance_all step pts :
  step ∈ moves_all self → Forall (table_closed self) pts →
  ∃ pts', for_each_pt_from (advance_pt self step) [] pts = (Ok (), pts')
          ∧ Forall (table_closed self) pts'.
Proof.
  intros Hstep. induction 1 as [|pt pts Hpt _ IH]; simpl; [by eexists|].
  destruct (closed_advance_pt step pt Hstep Hpt) as (pt' & -> & Hpt').
  destruct IH as (pts' & Hfor & Hpts').
  rewrite for_each_pt_from_done, Hfor. simpl. eexists. split; [done|].
  by constructor.
Qed.

Lemma try_step_safe rec cost steps T step s pts :
  (∀ steps' prev' s0,
     Forall (table_closed self) (prune_tables s0) →
     prev' ∈ cache_keys (moves_all self) →
     wp (rec (cost + 1) steps' T prev' (ida_graph_node <$> prune_tables s0))
        (safe_post self (prune_tables s0)) s0) →
  step ∈ moves_all self →
  Forall (table_closed self) pts →
  same_tables pts (prune_tables s) →
  wp (try_step self rec cost steps T (ida_graph_node <$> pts) step)
     (safe_post self pts) s.
Proof.
  intros Hrec Hstep Hclosed Hsame. unfold try_step. apply wp_bind.
  unfold wp at 1, set_ida_graph_nodes, modify. cbn [fst snd].
  rewrite (zip_nodes_restore _ _ Hsame). apply wp_bind.
  unfold wp at 1, for_each_pt. cbn [fst snd prune_tables set_prune_tables].
  pose proof (for_each_pt_from_same self step pts) as Hsame'.
  destruct (closed_advance_all step pts Hstep Hclosed) as (pts' & Hfor & Hpts').
  rewrite Hfor in Hsame' |- *. cbn [fst snd] in Hsame' |- *.
  apply wp_bind. unfold wp at 1, get_ida_graph_nodes, gets. cbn [fst snd].
  match goal with |- wp _ _ ?s2 => set (s2' := s2) end.
  change (ida_graph_node <$> prune_tables (set_prune_tables pts' s))
    with (ida_graph_node <$> prune_tables s2').
  eapply wp_mono; [|apply Hrec].
  - intros r s3 (Hok & Hcl & Hs3). cbn in Hs3. split; [done|].
    split; [done|]. by eapply same_tables_trans.
  - done.
  - apply elem_of_app. left. by apply list_elem_of_fmap_2.
Qed.

Lemma ida_loop_safe rec cost steps T f next skip s pts :
  (∀ steps' prev' s0,
     Forall (table_closed self) (prune_tables s0) →
     prev' ∈ cache_keys (moves_all self) →
     wp (rec (cost + 1) steps' T prev' (ida_graph_node <$> prune_tables s0))
        (safe_post self (prune_tables s0)) s0) →
  Forall (λ m, m ∈ moves_all self) next →
  (∀ marker, skip = Some marker → marker ∈ moves_all self) →
  Forall (table_closed self) pts →
  Forall (table_closed self) (prune_tables s) →
  same_tables pts (prune_tables s) →
  wp (ida_loop self rec cost steps T (ida_graph_node <$> pts) f next skip)
     (safe_post self pts) s.
Proof.
  intros Hrec Hnext. revert skip s.
  induction Hnext as [|step rest Hstep _ IH];
    intros skip s Hskip Hclosed Hcl Hsame.
  - unfold wp, ret. cbn. split; [by eexists|]. by split.
  - cbn [ida_loop]. apply wp_bind.
    assert (Hlook : ∃ b : bool,
      match skip with
      | None => ret false
      | Some marker => lookup_or KeyError
          (steps_on_same_face_and_layer_cache self !! (Some marker, step))
      end s = (Ok b, s)).
    { destruct skip as [marker|]; [|by exists false].
      destruct Hself as ([Hcache _] & _).
      rewrite Hcache. rewrite (init_caches_cache _ marker step);
        [by eexists | by apply Hskip | done]. }
    unfold wp at 1. destruct Hlook as [[] ->]; cbn [fst snd].
    + by apply IH.
    + apply wp_bind. eapply wp_mono; [|by apply try_step_safe].
      intros r s1 ([[f' found] ->] & Hcl1 & Hs1).
      destruct found.
      * unfold wp, ret. cbn. split; [by eexists|]. by split.
      * apply IH; try done.
        intros marker. destruct (f' >? T); [|done]. by intros [= <-].
Qed.

Lemma ida_search_fuel_safe n cost steps T prev s :
  always_a_candidate self →
  (Z.to_nat (T - cost) < n)%nat →
  Forall (table_closed self) (prune_tables s) →
  prev ∈ cache_keys (moves_all self) →
  wp (ida_search_fuel self n cost steps T prev
        (ida_graph_node <$> prune_tables s))
     (safe_post self (prune_tables s)) s.
Proof.
  intros Hcand. revert cost steps prev s.
  induction n as [|n IH]; intros cost steps prev s Hn Hcl Hprev; [lia|].
  unfold wp. rewrite ida_search_fuel_S. cbn zeta.
  destruct (closed_heuristic_loop (prune_tables s) [] 0 Hcl)
    as (lt & ctg & Hh).
  rewrite Hh. pose proof (heuristic_loop_lower _ _ _ _ _ _ Hh) as Hctg.
  destruct (Z.geb_spec (cost + ctg) T).
  { split; [by eexists|]. split; [done | apply same_tables_refl]. }
  destruct (ctg =? 0).
  { split; [by eexists|]. split; [done | apply same_tables_refl]. }
  destruct (_ <=? cost).
  { split; [by eexists|]. split; [done | apply same_tables_refl]. }
  destruct Hself as (Hbuilt & _).
  destruct (candidate_table_keys self prev Hbuilt) as [Hnone Hsome].
  destruct (_ !! prev) as [next|] eqn:Hnext.
  2:{ destruct (proj1 Hnone eq_refl) as [Hnot|Hall]; [done|].
      destruct (Hcand prev Hprev) as (m & Hm & Hrel).
      rewrite (Hall m Hm) in Hrel. done. }
  destruct (Hsome next eq_refl) as (_ & Hin & _).
  apply (ida_loop_safe (ida_search_fuel self n) cost steps T (cost + ctg)
           next None _ (prune_tables s)); try done.
  - intros steps' prev' s0 Hcl0 Hprev'. apply IH; [lia|done..].
  - apply same_tables_refl.
Qed.
End SafeSearch.

Lemma init_step_index_is_move moves step index :
  init_step_index moves !! step = Some index → step ∈ moves.
Proof.
  intros Hi. apply init_step_index_last in Hi as (n & _ & Hn & _).
  by eapply list_elem_of_lookup_2.
Qed.

Lemma table_closedb_sound `{Collaborators} self pt n :
  constructed self → table_closedb self pt n = true → table_closed self pt.
Proof.
  intros (_ & Hidx & _) Hb. unfold table_closedb in Hb.
  apply andb_prop in Hb as [Hb Hall]. apply andb_prop in Hb as [Hlen Hnode].
  apply bool_decide_eq_true in Hlen, Hnode.
  exists n. split; [done|]. split; [done|].
  intros node step pt' Hn Hadv.
  assert (step ∈ moves_all self) as Hstep.
  { unfold advance_pt in Hadv.
    destruct (step_index self !! step) as [index|] eqn:Hi; [|done].
    rewrite Hidx in Hi. by eapply init_step_index_is_move. }
  rewrite forallb_forall in Hall.
  assert (In node (seqZ 0 n)) as Hin.
  { apply list_elem_of_In, elem_of_seqZ. lia. }
  specialize (Hall node Hin). rewrite forallb_forall in Hall.
  apply list_elem_of_In in Hstep. specialize (Hall step Hstep).
  rewrite Hadv in Hall. by apply bool_decide_eq_true in Hall.
Qed.

Lemma init_constructed `{Collaborators} all illegal legal mult self :
  init all illegal legal mult = Ok self → constructed self.
Proof.
  intros Hinit. split; [by eapply init_caches_built|].
  unfold init in Hinit.
  destruct (check_moves_illegal all illegal); [|done].
  injection Hinit as <-. by cbn.
Qed.

Lemma with_recolor_constructed `{Collaborators} positions colors self :
  constructed self → constructed (with_recolor positions colors self).
Proof.
  intros (Hb & Hi & Hr). split; [by apply with_recolor_caches_built|done].
Qed.

Lemma demo_self_constructed : constructed (H := demo_collaborators) demo_self.
Proof. exact (init_constructed _ _ _ _ _ demo_self_init). Qed.

Lemma demo_self_always_a_candidate :
  always_a_candidate (H := demo_collaborators) demo_self.
Proof.
  intros p Hp.
  assert (Forall (λ p, Exists (λ m,
            steps_on_same_face_and_layer (Collaborators := demo_collaborators)
              p m = false) (moves_all demo_self))
            (cache_keys (moves_all demo_self))) as Hall by by_evaluation.
  rewrite Forall_forall in Hall. specialize (Hall p Hp).
  apply Exists_exists in Hall as (m & Hm & Hrel). by exists m.
Qed.

Lemma demo_table_closed node :
  0 ≤ node < 4 → table_closed demo_self (with_node demo_table node).
Proof.
  intros Hnode.
  apply (table_closedb_sound (H := demo_collaborators) _ _ 4
           demo_self_constructed).
  assert (node = 0 ∨ node = 1 ∨ node = 2 ∨ node = 3)
    as [->|[->|[->| ->]]] by lia; vm_compute; reflexivity.
Qed.

Section SafeDriver.
Context `{Collaborators}.
Variable self : LookupTableIDAViaGraph.
Hypothesis Hself : constructed self.
Hypothesis Hcand : always_a_candidate self.

Lemma ida_search_safe cost steps T prev s :
  Forall (table_closed self) (prune_tables s) →
  prev ∈ cache_keys (moves_all self) →
  wp (ida_search self cost steps T prev (ida_graph_node <$> prune_tables s))
     (safe_post self (prune_tables s)) s.
Proof.
  intros Hcl Hprev. unfold ida_search.
  apply (ida_search_fuel_safe self Hself); [done|lia|done..].
Qed.

Lemma solve_loop_safe thresholds s :
  Forall (table_closed self) (prune_tables s) →
  wp (solve_loop self thresholds)
     (λ r _, r = Ok (Some true) ∨ r = Ok None) s.
Proof.
  revert s. induction thresholds as [|T rest IH]; intros s Hcl.
  - by right.
  - cbn [solve_loop].
    apply wp_bind, wp_modify, wp_bind, wp_modify, wp_bind, wp_modify.
    apply wp_bind, wp_gets. apply wp_bind.
    match goal with |- wp _ _ ?s1 => set (s1' := s1) end.
    change (ida_graph_node <$> prune_tables s)
      with (ida_graph_node <$> prune_tables s1').
    eapply wp_mono; [|apply ida_search_safe].
    + intros r sB ([v ->] & HclB & _). apply wp_bind, wp_gets.
      destruct (get_best_ida_solution sB) as [[|x best]|];
        [by apply IH| |by apply IH].
      apply wp_bind, wp_modify, wp_bind, wp_modify, wp_bind, wp_modify.
      apply wp_bind, wp_modify. by left.
    + done.
    + apply elem_of_app. right. by apply list_elem_of_singleton.
Qed.

Lemma solve_safe min_ida_threshold max_ida_threshold s :
  avoid_oll self = None →
  (recolor self
     (set_pre_recolor (state (parent s)) (solution (parent s)) s)).1 = Ok () →
  Forall (table_closed self) (prune_tables (search_start self s)) →
  wp (solve self min_ida_threshold max_ida_threshold)
     (λ r _, r = Ok true
             ∨ ∃ lo, r = Raise (NoIDASolution lo (max_ida_threshold + 1))) s.
Proof.
  intros Holl Hrec Hcl. unfold solve. apply wp_bind, wp_modify. apply wp_bind.
  unfold wp at 1. rewrite Hrec.
  fold (after_recolor self s). apply wp_bind, wp_modify. apply wp_bind.
  unfold check_avoid_oll. rewrite Holl. unfold wp at 1, ret. cbn [fst snd].
  apply wp_bind, wp_modify.
  change (init_ida_graph_nodes _).2 with (search_start self s) in *.
  match goal with |- wp _ _ ?s1 => change s1 with (search_start self s) end.
  apply wp_bind. unfold wp at 1, ida_heuristic. cbn [fst snd].
  destruct (closed_heuristic_loop self Hself _ [] 0 Hcl) as (lt & c & ->).
  destruct (_ >=? _); [right; by eexists|].
  apply wp_bind. eapply wp_mono; [|by apply solve_loop_safe].
  intros r s' [->| ->]; [by left|].
  apply wp_bind, wp_modify. right. by eexists.
Qed.
End SafeDriver.

(** ** More on the heuristic and the search *)

Lemma py_index_range (len i : Z) :
  is_Some (py_index len i) ↔ - len ≤ i < len.
Proof.
  unfold py_index.
  destruct (Z.leb_spec 0 i), (Z.ltb_spec i len); cbn [andb].
  - split; [lia | by eexists].
  - destruct (Z.leb_spec (- len) i), (Z.ltb_spec i 0); cbn [andb];
      (split; [intros [? ?]; (done || lia) | (by eexists) || lia]).
  - destruct (Z.leb_spec (- len) i), (Z.ltb_spec i 0); cbn [andb];
      (split; [intros [? ?]; (done || lia) | (by eexists) || lia]).
  - destruct (Z.leb_spec (- len) i), (Z.ltb_spec i 0); cbn [andb];
      (split; [intros [? ?]; (done || lia) | (by eexists) || lia]).
Qed.

Lemma py_index_lt (len i : Z) n :
  py_index len i = Some n → (Z.of_nat n < len).
Proof.
  unfold py_index.
  destruct (Z.leb_spec 0 i), (Z.ltb_spec i len); cbn [andb];
    try (intros [= <-]; lia);
    destruct (Z.leb_spec (- len) i), (Z.ltb_spec i 0); cbn [andb];
    try done; intros [= <-]; lia.
Qed.

Lemma py_getitem_range {A} (l : list A) (i : Z) :
  is_Some (py_getitem l i) ↔ - Z.of_nat (length l) ≤ i < Z.of_nat (length l).
Proof.
  rewrite <- py_index_range. unfold py_getitem.
  destruct (py_index _ i) as [n|] eqn:Hn.
  - split; [by eexists|]. intros _. apply lookup_lt_is_Some.
    apply py_index_lt in Hn. lia.
  - split; by intros [? ?].
Qed.

Lemma stored_cost_range self pt c : stored_cost self pt c → 0 ≤ c ≤ 255.
Proof.
  unfold stored_cost. destruct (py_getitem _ _) as [b|]; [|done].
  intros [= <-]. pose proof (byte_val_range b). lia.
Qed.

Lemma heuristic_loop_Ok self pts lt acc lt' c :
  heuristic_loop (ROW_LENGTH self) pts lt acc = Ok (lt', c) →
  lt' = lt ++ (ida_graph_node <$> pts)
  ∧ (c = acc ∨ Exists (λ pt, stored_cost self pt c) pts)
  ∧ Forall (λ pt, ∃ c', stored_cost self pt c' ∧ c' ≤ c) pts.
Proof.
  revert lt acc. induction pts as [|pt pts IH]; intros lt acc; simpl.
  - intros [= <- <-]. rewrite app_nil_r. split; [done|]. split; [by left|done].
  - destruct (py_getitem _ _) as [b|] eqn:Hb; [|done]. intros Hrec.
    pose proof (heuristic_loop_lower _ _ _ _ _ _ Hrec) as Hlow.
    apply IH in Hrec as (-> & Hc & Hall). rewrite <- app_assoc.
    split; [done|].
    assert (stored_cost self pt (byte_val b)) as Hpt
      by (unfold stored_cost; by rewrite Hb).
    split.
    + destruct Hc as [->|Hex]; [|right; by constructor].
      destruct (Z.gtb_spec (byte_val b) acc); [right; by constructor|by left].
    + constructor; [|done]. exists (byte_val b). split; [done|].
      destruct (Z.gtb_spec (byte_val b) acc); lia.
Qed.

Lemma heuristic_loop_Raise self pts lt acc e :
  heuristic_loop (ROW_LENGTH self) pts lt acc = Raise e →
  e = IndexError
  ∧ Exists (λ pt, ¬ (- Z.of_nat (length (ida_graph pt))
                     ≤ ida_graph_node pt * ROW_LENGTH self
                     < Z.of_nat (length (ida_graph pt)))) pts.
Proof.
  revert lt acc. induction pts as [|pt pts IH]; intros lt acc; simpl; [done|].
  destruct (py_getitem _ _) as [b|] eqn:Hb.
  - intros Hrec. apply IH in Hrec as [-> Hex]. split; [done|].
    by apply Exists_cons_tl.
  - intros [= <-]. split; [done|]. apply Exists_cons_hd.
    rewrite <- py_getitem_range, Hb. by intros [? ?].
Qed.

Lemma ida_heuristic_outcome_cases (self : LookupTableIDAViaGraph) (s : Store) :
  match (ida_heuristic self s).1 with
  | Ok (lt_state, c) =>
      lt_state = ida_graph_node <$> prune_tables s
      ∧ 0 ≤ c ≤ 255
      ∧ Forall (λ pt, ∃ c', stored_cost self pt c' ∧ c' ≤ c) (prune_tables s)
      ∧ (c = 0 ↔ Forall (λ pt, stored_cost self pt 0) (prune_tables s))
  | Raise e =>
      e = IndexError
      ∧ Exists (λ pt, ¬ (- Z.of_nat (length (ida_graph pt))
                         ≤ ida_graph_node pt * ROW_LENGTH self
                         < Z.of_nat (length (ida_graph pt))))
               (prune_tables s)
  end.
Proof.
  unfold ida_heuristic. cbn [fst].
  destruct (heuristic_loop _ _ _ _) as [[lt c]|e] eqn:Hh;
    [|by apply heuristic_loop_Raise in Hh].
  apply heuristic_loop_Ok in Hh as (-> & Hc & Hall).
  split; [done|]. split; [|split; [done|]].
  - destruct Hc as [->|Hex]; [lia|].
    apply Exists_exists in Hex as (pt & _ & Hpt).
    by apply stored_cost_range in Hpt.
  - split.
    + intros ->. eapply Forall_impl; [exact Hall|].
      intros pt (c' & Hc' & Hle). pose proof (stored_cost_range _ _ _ Hc').
      by replace 0 with c' by lia.
    + intros Hzero. destruct Hc as [->|Hex]; [done|].
      apply Exists_exists in Hex as (pt & Hin & Hpt).
      rewrite Forall_forall in Hzero. specialize (Hzero pt Hin).
      unfold stored_cost in Hpt, Hzero. congruence.
Qed.

(** X12: [ida_heuristic] either returns the tables' nodes with a cost
    between 0 and 255 that no table's stored cost exceeds and that is 0
    exactly when every table stores cost 0 for its node - the goal test of
    the search - or raises [IndexError], which needs a table whose row
    offset lies outside its graph (offsets from [-len] on count from the
    end, as Python indexing does). *)
Theorem ida_heuristic_outcome (self : LookupTableIDAViaGraph) (s : Store) :
  match (ida_heuristic self s).1 with
  | Ok (lt_state, c) =>
      lt_state = ida_graph_node <$> prune_tables s
      ∧ 0 ≤ c ≤ 255
      ∧ Forall (λ pt, ∃ c', stored_cost self pt c' ∧ c' ≤ c) (prune_tables s)
      ∧ (c = 0 ↔ Forall (λ pt, stored_cost self pt 0) (prune_tables s))
  | Raise e =>
      e = IndexError
      ∧ Exists (λ pt, ¬ (- Z.of_nat (length (ida_graph pt))
                         ≤ ida_graph_node pt * ROW_LENGTH self
                         < Z.of_nat (length (ida_graph pt))))
               (prune_tables s)
  end.
Proof. exact (ida_heuristic_outcome_cases self s). Qed.

(** X13: the recursion of [ida_search] nests at most
    [threshold - cost_to_here + 1] calls deep (one call when the threshold
    is not above the cost): under any larger bound on the nesting the call
    ends in the same outcome and store, and the bound is never hit. *)
Theorem ida_search_nesting_bounded self (n : nat) cost steps T prev nodes s :
  (Z.to_nat (T - cost) < n)%nat →
  ida_search_fuel self n cost steps T prev nodes s
    = ida_search self cost steps T prev nodes s
  ∧ (ida_search_fuel self n cost steps T prev nodes s).1
    ≠ Raise RecursionError.
Proof.
  intros Hn.
  assert (ida_search_fuel self n cost steps T prev nodes s
          = ida_search self cost steps T prev nodes s) as Heq
    by (unfold ida_search; apply ida_search_fuel_irrel; lia).
  split; [done|]. rewrite Heq. apply ida_search_fuel_enough.
Qed.

Lemma ida_search_nesting_bounded_witness :
  ida_search_fuel demo_self 9 0 [] 4 None [3] (demo_store_at 3)
    = ida_search demo_self 0 [] 4 None [3] (demo_store_at 3)
  ∧ (ida_search_fuel demo_self 9 0 [] 4 None [3] (demo_store_at 3)).1
    ≠ Raise RecursionError.
Proof.
  apply (ida_search_nesting_bounded demo_self 9 0 [] 4 None [3]
           (demo_store_at 3)).
  vm_compute. lia.
Defined.

Lemma with_node_twice pt a b : with_node (with_node pt a) b = with_node pt b.
Proof. done. Qed.

Lemma init_nodes_after_zip (f : PruneTable → Z) pts nodes :
  (∀ pt node, f (with_node pt node) = f pt) →
  (λ pt, with_node pt (f pt)) <$> zip_nodes pts nodes
  = (λ pt, with_node pt (f pt)) <$> pts.
Proof.
  intros Hf. revert nodes.
  induction pts as [|pt pts IH]; intros [|node nodes]; simpl; [done..|].
  by rewrite Hf, IH.
Qed.

(** X15: [init_ida_graph_nodes] puts every table on the node its
    [state_index] gives for the puzzle's current state, whatever node it
    was on: running it after [set_ida_graph_nodes] is the same as running
    it alone, running it twice is the same as once, and
    [get_ida_graph_nodes] then reads those nodes back. *)
Theorem init_ida_graph_nodes_resets (nodes : list Z) (s : Store) :
  init_ida_graph_nodes (set_ida_graph_nodes nodes s).2
    = init_ida_graph_nodes s
  ∧ init_ida_graph_nodes (init_ida_graph_nodes s).2 = init_ida_graph_nodes s
  ∧ (get_ida_graph_nodes (init_ida_graph_nodes s).2).1
    = Ok ((λ pt, state_index pt (state (parent s))) <$> prune_tables s)
  ∧ ida_graph <$> prune_tables (init_ida_graph_nodes s).2
    = ida_graph <$> prune_tables s.
Proof.
  unfold init_ida_graph_nodes, set_ida_graph_nodes, get_ida_graph_nodes,
    modify, gets.
  cbn [fst snd prune_tables set_prune_tables parent]. repeat split.
  - unfold set_prune_tables at 1 3. cbn [prune_tables set_prune_tables parent
      ida_count explored ida_nodes pre_recolor_state pre_recolor_solution
      original_state original_solution].
    by rewrite (init_nodes_after_zip
                  (λ pt, state_index pt (state (parent s)))).
  - unfold set_prune_tables at 1 3. cbn [prune_tables set_prune_tables parent
      ida_count explored ida_nodes pre_recolor_state pre_recolor_solution
      original_state original_solution].
    by rewrite <- list_fmap_compose.
  - by rewrite <- list_fmap_compose.
  - by rewrite <- list_fmap_compose.
Qed.

Lemma ida_heuristic_goal self s lt_state :
  (ida_heuristic self s).1 = Ok (lt_state, 0) →
  Forall (λ pt, stored_cost self pt 0) (prune_tables s).
Proof.
  intros Hh. pose proof (ida_heuristic_outcome_cases self s) as Hout.
  rewrite Hh in Hout. destruct Hout as (_ & _ & _ & Hzero). by apply Hzero.
Qed.

(** ** Recolouring *)

Lemma set_parent_state_same s : set_parent_state (state (parent s)) s = s.
Proof. by destruct s as [[] ? ? ? ? ? ? ? ?]. Qed.

Lemma times_listed_cons len x rest i :
  times_listed len (x :: rest) i
  = ((if decide (py_index len x = Some i) then 1 else 0)
     + times_listed len rest i)%nat.
Proof.
  unfold times_listed. rewrite filter_cons. by destruct (decide _).
Qed.

Lemma valid_prefix_all len positions :
  valid_prefix len positions = positions
  ↔ Forall (λ x, - len ≤ x < len) positions.
Proof.
  induction positions as [|x rest IH]; simpl; [done|].
  destruct (py_index len x) as [n|] eqn:Hx.
  - rewrite Forall_cons, <- IH, <- py_index_range, Hx.
    split; [intros [= ->]; split; [by eexists|done] | by intros [_ ->]].
  - split; [done|]. intros [Hr _]%Forall_cons.
    apply py_index_range in Hr. rewrite Hx in Hr. by destruct Hr.
Qed.

Section Recolor.
Context `{Collaborators}.
Variable self : LookupTableIDAViaGraph.

Lemma recolor_loop_effect positions s :
  let st := state (parent s) in
  let len := Z.of_nat (length st) in
  recolor_loop self positions s
  = (if bool_decide (valid_prefix len positions = positions)
     then Ok () else Raise IndexError,
     set_parent_state
       (imap (λ i c, Nat.iter (times_listed len (valid_prefix len positions) i)
                       (recolor_color self) c) st) s).
Proof.
  revert s. induction positions as [|x rest IH]; intros s st len.
  - cbn [recolor_loop valid_prefix]. unfold ret.
    rewrite bool_decide_eq_true_2 by done. f_equal.
    replace (imap _ st) with st;
      [unfold st; by rewrite set_parent_state_same|].
    apply list_eq. intros i. rewrite list_lookup_imap.
    by destruct (st !! i).
  - cbn [recolor_loop valid_prefix]. unfold bind at 1, gets. cbn [fst snd].
    fold st. unfold bind at 1, lookup_or, py_getitem. fold len.
    destruct (py_index len x) as [n|] eqn:Hx.
    2:{ rewrite bool_decide_eq_false_2 by done. f_equal.
        replace (imap _ st) with st;
      [unfold st; by rewrite set_parent_state_same|].
        apply list_eq. intros i. rewrite list_lookup_imap.
        by destruct (st !! i). }
    pose proof (py_index_lt _ _ _ Hx) as Hn.
    destruct (lookup_lt_is_Some_2 st n) as [c Hc]; [lia|].
    rewrite Hc.
    set (st1 := <[n := recolor_color self c]> st).
    assert (Hnext : ∀ s1, s1 = set_parent_state st1 s →
              recolor_loop self rest s1
              = (if bool_decide (x :: valid_prefix len rest = x :: rest)
                 then Ok () else Raise IndexError,
                 set_parent_state
                   (imap (λ i c0,
                      Nat.iter (times_listed len (x :: valid_prefix len rest) i)
                        (recolor_color self) c0) st) s)).
    { intros s1 ->. rewrite IH. cbn [set_parent_state set_parent parent state].
      assert (Z.of_nat (length st1) = len) as ->
        by (unfold st1; by rewrite length_insert).
      f_equal.
      - rewrite (bool_decide_ext (valid_prefix len rest = rest)
                   (x :: valid_prefix len rest = x :: rest)); [done|].
        split; [by intros ->|by intros [= ->]].
      - unfold set_parent_state, set_parent.
        cbn [parent state solution prune_tables ida_count explored ida_nodes
             pre_recolor_state pre_recolor_solution original_state
             original_solution].
        f_equal. f_equal.
        apply list_eq. intros i. rewrite !list_lookup_imap.
        rewrite times_listed_cons. unfold st1.
        destruct (decide (n = i)) as [<-|Hne].
        + rewrite list_lookup_insert_eq by (apply lookup_lt_is_Some; by eexists).
          rewrite Hc. cbn. rewrite decide_True by done.
          by rewrite Nat.add_comm, Nat.iter_add.
        + rewrite list_lookup_insert_ne by done.
          rewrite decide_False by congruence. done. }
    unfold ret at 1. cbv beta iota. unfold recolor_color in st1.
    destruct (truthy_color (recolor_map self !! c)) as [c'|] eqn:Hmap.
    + unfold py_setitem. fold len. rewrite Hx.
      unfold bind, modify, ret. by apply Hnext.
    + unfold bind at 1, ret. apply Hnext.
      unfold st1. cbn [default]. rewrite list_insert_id by done.
      unfold st. by rewrite set_parent_state_same.
Qed.

Lemma recolor_is_loop_after_nuke s :
  recolor self s = recolor_loop self (recolor_positions self) (nuked self s).
Proof.
  unfold recolor, nuked.
  destruct (nuke_corners self), (nuke_edges self), (nuke_centers self);
    cbn [orb]; try done.
  case_bool_decide as Hpos; [done|].
  by rewrite Hpos.
Qed.

Lemma nuked_same_but_parent s : same_but_parent s (nuked self s).
Proof.
  unfold nuked.
  destruct (nuke_corners self), (nuke_edges self), (nuke_centers self);
    by repeat split.
Qed.
End Recolor.

(** X16: after the [nuke_*] calls its flags ask for, [recolor] walks
    [recolor_positions] in order; it ends normally when every position
    [x] has [-len <= x < len] for the state's length, and otherwise raises
    [IndexError] at the first position outside, with the positions before
    it already applied.  A sticker's colour is passed through the map
    once for each time it is addressed by an applied position ([x] and
    [x - len] address the same sticker), a colour without a non-empty
    entry in the map staying as it is; the other stickers, the length of
    the state, the solution log and everything but the puzzle stay. *)
Theorem recolor_effect `{Collaborators} (self : LookupTableIDAViaGraph)
    (s : Store) :
  let st := state (parent (nuked self s)) in
  let len := Z.of_nat (length st) in
  let applied := valid_prefix len (recolor_positions self) in
  let r := recolor self s in
  r.1 = (if bool_decide (Forall (λ x, - len ≤ x < len) (recolor_positions self))
         then Ok () else Raise IndexError)
  ∧ state (parent r.2)
    = imap (λ i c, Nat.iter (times_listed len applied i)
                     (recolor_color self) c) st
  ∧ solution (parent r.2) = solution (parent (nuked self s))
  ∧ same_but_parent s r.2.
Proof.
  intros st len applied r. unfold r.
  rewrite recolor_is_loop_after_nuke, recolor_loop_effect.
  fold st len applied. cbn [fst snd]. split; [|split; [done|split; [done|]]].
  - rewrite (bool_decide_ext _ _ (valid_prefix_all len (recolor_positions self))).
    done.
  - pose proof (nuked_same_but_parent self s) as Hn.
    unfold same_but_parent in *. cbn. exact Hn.
Qed.

(** X17: [get_best_ida_solution] answers [None] exactly for an empty
    [ida_nodes], and otherwise the first, in insertion order, of the
    shortest recorded solutions: none is shorter, and every record before
    it is strictly longer. *)
Theorem get_best_ida_solution_picks_first_shortest (s : Store) :
  match get_best_ida_solution s with
  | None => ida_nodes s = []
  | Some best =>
      ∃ i k, ida_nodes s !! i = Some (k, best) ∧
        ∀ j k' sol, ida_nodes s !! j = Some (k', sol) →
          (length best ≤ length sol)%nat
          ∧ ((j < i)%nat → (length best < length sol)%nat)
  end.
Proof. exact (get_best_ida_solution_first_shortest s). Qed.

(** ** More on the driver *)

Section DriverOutcomes.
Context `{Collaborators}.
Variable self : LookupTableIDAViaGraph.

Lemma solve_avoid_oll min_ida_threshold max_ida_threshold s v :
  avoid_oll self = Some v →
  let s1 := after_recolor self s in
  solve self min_ida_threshold max_ida_threshold s
  = match (recolor self
             (set_pre_recolor (state (parent s)) (solution (parent s)) s)).1
    with
    | Ok _ =>
        (Raise (NameError "pformat"),
         set_original (state (parent s1)) (solution (parent s1)) s1)
    | Raise e => (Raise e, s1)
    end.
Proof.
  intros Holl s1. unfold solve. unfold bind at 1, modify at 1.
  cbv beta iota. unfold bind at 1. unfold s1, after_recolor.
  destruct (recolor self _) as [[[]|e] s2]; [|done]. cbn [fst snd].
  unfold bind at 1, modify at 1. cbv beta iota.
  unfold bind at 1, check_avoid_oll. rewrite Holl.
  by destruct (existsb _ _).
Qed.

End DriverOutcomes.

(** X18: with [avoid_oll] set, [solve] never gets as far as initialising
    the tables: both arms of the check at lines 289-299 call [pformat],
    which the module does not import.  It ends in that [NameError] (or in
    the [IndexError] of a failed [recolor] before it), the puzzle is left
    as [recolor] made it and the tables stay on their nodes. *)
Theorem solve_avoid_oll_raises_NameError `{Collaborators}
    self min_ida_threshold max_ida_threshold s v :
  avoid_oll self = Some v →
  let r := solve self min_ida_threshold max_ida_threshold s in
  r.1 = match (recolor self
                 (set_pre_recolor (state (parent s)) (solution (parent s))
                    s)).1 with
        | Ok _ => Raise (NameError "pformat")
        | Raise e => Raise e
        end
  ∧ parent r.2 = parent (after_recolor self s)
  ∧ prune_tables r.2 = prune_tables s.
Proof.
  intros Holl r. unfold r.
  rewrite (solve_avoid_oll self min_ida_threshold max_ida_threshold s v Holl).
  pose proof (recolor_post self
    (set_pre_recolor (state (parent s)) (solution (parent s)) s)) as Hpost.
  unfold wp in Hpost. destruct Hpost as [_ (P1 & _)].
  fold (after_recolor self s) in P1.
  destruct (recolor self _).1 as [[]|e]; by cbn.
Qed.

Lemma solve_avoid_oll_raises_NameError_witness :
  let r := solve (H := demo_collaborators)
             (with_avoid_oll 1 demo_self_recolor) None 99 (demo_store "n3") in
  r.1 = match (recolor (H := demo_collaborators)
                 (with_avoid_oll 1 demo_self_recolor)
                 (set_pre_recolor (state (parent (demo_store "n3")))
                    (solution (parent (demo_store "n3")))
                    (demo_store "n3"))).1 with
        | Ok _ => Raise (NameError "pformat")
        | Raise e => Raise e
        end
  ∧ parent r.2
    = parent (after_recolor (H := demo_collaborators)
                (with_avoid_oll 1 demo_self_recolor) (demo_store "n3"))
  ∧ prune_tables r.2 = prune_tables (demo_store "n3").
Proof.
  apply (solve_avoid_oll_raises_NameError (H := demo_collaborators)
           (with_avoid_oll 1 demo_self_recolor) None 99 (demo_store "n3") 1).
  reflexivity.
Defined.

(** ** The first threshold above the root's cost *)

Section FirstProductiveThreshold.
Context `{Collaborators}.
Variable self : LookupTableIDAViaGraph.

Lemma solve_loop_skips_cut_off c lt_state ths rest s :
  heuristic_loop (ROW_LENGTH self) (prune_tables s) [] 0
    = Ok (lt_state, c) →
  Forall (λ T, T ≤ c) ths →
  ∃ s', solve_loop self (ths ++ rest) s = solve_loop self rest s'
        ∧ search_reset s' = search_reset s.
Proof.
  intros Hh Hths. revert s Hh.
  induction Hths as [|T ths HT _ IH]; intros s Hh; [by exists s|].
  cbn [app solve_loop].
  unfold bind at 1, modify at 1. cbv beta iota.
  unfold bind at 1, modify at 1. cbv beta iota.
  unfold bind at 1, modify at 1. cbv beta iota.
  unfold bind at 1, get_ida_graph_nodes, gets. cbv beta iota.
  unfold bind at 1. rewrite ida_search_unfold. cbv zeta.
  cbn [prune_tables set_ida_nodes set_explored set_ida_count]. rewrite Hh.
  rewrite Z.add_0_l. destruct (Z.geb_spec c T) as [_|Hlt]; [|lia].
  unfold bind at 1, gets. cbv beta iota.
  unfold get_ida_graph_nodes, get_best_ida_solution.
  cbn [ida_nodes set_ida_count set_ida_nodes foldl fst].
  match goal with |- context [solve_loop self (ths ++ rest) ?s1] =>
    destruct (IH s1) as (s' & Hs' & Hreset); [done|] end.
  exists s'. by rewrite Hs'.
Qed.

Lemma solve_loop_returns_single_record T rest s f s3 k x best :
  ida_search self 0 [] T None
    (ida_graph_node <$> prune_tables (search_reset s)) (search_reset s)
    = (Ok (f, true), s3) →
  ida_nodes s3 = [(k, x :: best)] →
  solve_loop self (T :: rest) s
  = (Ok (Some true),
     set_ida_nodes [] (set_explored ∅
       (set_parent
          (foldl (λ c step, rotate step c)
             {| state := pre_recolor_state s3;
                solution := pre_recolor_solution s3 |} (x :: best)) s3))).
Proof.
  intros Hrun Hnodes. cbn [solve_loop].
  unfold bind at 1, modify at 1. cbv beta iota.
  unfold bind at 1, modify at 1. cbv beta iota.
  unfold bind at 1, modify at 1. cbv beta iota.
  unfold bind at 1, get_ida_graph_nodes, gets. cbv beta iota.
  unfold bind at 1. fold (search_reset s).
  change (prune_tables s) with (prune_tables (search_reset s)).
  rewrite Hrun. unfold bind at 1, gets. cbv beta iota.
  unfold get_best_ida_solution. rewrite Hnodes. cbn [foldl best_step fst snd].
  done.
Qed.

Lemma solve_first_productive min_ida_threshold max_ida_threshold
    s lt_state c f s3 :
  avoid_oll self = None →
  (recolor self
     (set_pre_recolor (state (parent s)) (solution (parent s)) s)).1 = Ok () →
  (ida_heuristic self (search_start self s)).1 = Ok (lt_state, c) →
  0 < c →
  let T := Z.max (default c min_ida_threshold) (c + 1) in
  T ≤ max_ida_threshold →
  let s2 := search_reset (search_start self s) in
  ida_search self 0 [] T None (ida_graph_node <$> prune_tables s2) s2
    = (Ok (f, true), s3) →
  ∃ best,
    (solve self min_ida_threshold max_ida_threshold s).1 = Ok true
    ∧ state (parent (solve self min_ida_threshold max_ida_threshold s).2)
      = state (foldl (λ c step, rotate step c) (parent s) best)
    ∧ solution (parent (solve self min_ida_threshold max_ida_threshold s).2)
      = solution (foldl (λ c step, rotate step c) (parent s) best)
    ∧ best ≠ [] ∧ Z.of_nat (length best) = f ∧ f < T
    ∧ follow_all self (prune_tables (search_start self s)) best
      = Ok (prune_tables s3)
    ∧ Forall (λ pt, stored_cost self pt 0) (prune_tables s3).
Proof.
  intros Holl Hrec Hh Hc T HT s2 Hrun.
  (* the search *)
  pose proof (ida_search_consistent self 0 [] T None s2) as Hcons.
  unfold wp in Hcons. rewrite Hrun in Hcons. cbn [fst snd] in Hcons.
  destruct Hcons as (_ & _ & _ & ext & Hf & HfT & Hfollow & Hgoal & Hnodes).
  pose proof (ida_search_post (H := unrelated_collaborators) self
                (unrelated_collaborators_lists _) 0 [] T None
                (ida_graph_node <$> prune_tables s2) s2) as Hframe.
  unfold wp in Hframe. rewrite Hrun in Hframe. cbn [fst snd] in Hframe.
  destruct Hframe as (_ & _ & F2 & F3 & _).
  assert (Hext : ext ≠ []).
  { intros ->. cbn [follow_all] in Hfollow. injection Hfollow as Hpts.
    unfold ida_heuristic in Hh. cbn [fst] in Hh.
    rewrite <- Hpts in Hgoal.
    pose proof (eq_trans (eq_sym Hh) Hgoal) as Heq.
    injection Heq as _ ->. lia. }
  destruct ext as [|x best]; [done|].
  exists (x :: best).
  assert (Hzero : Forall (λ pt, stored_cost self pt 0) (prune_tables s3)).
  { by apply (ida_heuristic_goal self s3
                 (ida_graph_node <$> prune_tables s3)). }
  (* the driver *)
  pose proof (recolor_post self
    (set_pre_recolor (state (parent s)) (solution (parent s)) s)) as Hpost.
  unfold wp in Hpost. destruct Hpost as [_ (_ & _ & _ & _ & P5 & P6 & _)].
  cbn in P5, P6. fold (after_recolor self s) in P5, P6.
  assert (solve self min_ida_threshold max_ida_threshold s
          = (Ok true,
             set_ida_nodes [] (set_explored ∅
               (set_parent
                  (foldl (λ c step, rotate step c)
                     {| state := pre_recolor_state s3;
                        solution := pre_recolor_solution s3 |} (x :: best))
                  s3)))) as ->.
  { assert (Hrc : recolor self
              (set_pre_recolor (state (parent s)) (solution (parent s)) s)
              = (Ok (), after_recolor self s)).
    { unfold after_recolor. destruct (recolor self _) as [r1 s1].
      cbn [fst snd] in Hrec |- *. by subst r1. }
    unfold solve. unfold bind at 1, modify at 1. cbv beta iota.
    unfold bind at 1. rewrite Hrc.
    unfold bind at 1, modify at 1. cbv beta iota.
    unfold bind at 1, check_avoid_oll. rewrite Holl. unfold ret at 1.
    cbv beta iota.
    unfold bind at 1, init_ida_graph_nodes at 1, modify at 1. cbv beta iota.
    match goal with |- _ ?S = _ => change S with (search_start self s) end.
    set (s0 := search_start self s) in *.
    unfold bind at 1. unfold ida_heuristic in Hh |- *. cbn [fst] in Hh.
    rewrite Hh. fold T in HT.
    set (m := default c min_ida_threshold) in *.
    destruct (Z.geb_spec m (max_ida_threshold + 1)) as [Hge|Hlt]; [lia|].
    replace (max_ida_threshold + 1 - m)
      with ((T - m) + (max_ida_threshold + 1 - T)) by lia.
    rewrite seqZ_app by lia.
    rewrite (seqZ_cons (m + (T - m))) by lia.
    replace (m + (T - m)) with T by lia.
    destruct (solve_loop_skips_cut_off c lt_state (seqZ m (T - m))
                (T :: seqZ (Z.succ T) (Z.pred (max_ida_threshold + 1 - T)))
                s0) as (s' & Hskip & Hreset).
    { done. }
    { apply Forall_seqZ. lia. }
    unfold bind at 1. rewrite Hskip.
    rewrite (solve_loop_returns_single_record T _ s' f s3
               (ida_graph_node <$> prune_tables s3) x best);
      [done| by rewrite Hreset | by rewrite Hnodes]. }
  cbn [fst snd parent set_parent set_explored set_ida_nodes].
  assert ({| state := pre_recolor_state s3;
             solution := pre_recolor_solution s3 |} = parent s) as ->.
  { rewrite F2, F3. unfold s2, search_start, search_reset.
    cbn. rewrite P5, P6. by destruct (parent s). }
  cbn [length] in Hf |- *. repeat split; try done; lia.
Qed.
End FirstProductiveThreshold.

(** ** A freshly constructed instance *)

Lemma init_stages_nothing `{Collaborators} all illegal legal mult self s :
  init all illegal legal mult = Ok self →
  avoid_oll self = None ∧ recolor self s = (Ok (), s).
Proof.
  unfold init. destruct (check_moves_illegal all illegal); [|done].
  intros [= <-]. by split.
Qed.

(** ** The node key of [build_ida_graph] *)

Lemma string_app_cons c (s t : string) : String c s +:+ t = String c (s +:+ t).
Proof. done. Qed.

Lemma string_app_nil_l (t : string) : "" +:+ t = t.
Proof. done. Qed.

Lemma string_length_app (s t : string) :
  String.length (s +:+ t) = (String.length s + String.length t)%nat.
Proof.
  induction s as [|c s IH]; [done|].
  rewrite string_app_cons. cbn [String.length]. by rewrite IH.
Qed.

Lemma string_app_assoc (s t u : string) : (s +:+ t) +:+ u = s +:+ t +:+ u.
Proof.
  induction s as [|c s IH]; [done|]. rewrite !string_app_cons. by rewrite IH.
Qed.

Lemma string_app_nil_r (s : string) : s +:+ "" = s.
Proof.
  induction s as [|c s IH]; [done|]. rewrite string_app_cons. by rewrite IH.
Qed.

Lemma string_app_inj_length (s s' t t' : string) :
  String.length s = String.length s' → s +:+ t = s' +:+ t' →
  s = s' ∧ t = t'.
Proof.
  revert s'. induction s as [|c s IH]; intros [|c' s'];
    rewrite ?string_app_cons, ?string_app_nil_l; cbn [String.length];
    try done.
  intros [= Hlen] [= -> Happ]. destruct (IH s' Hlen Happ) as [-> ->]. done.
Qed.

Lemma zeros_length n : String.length (zeros n) = n.
Proof. induction n as [|n IH]; simpl; [done|]. by rewrite IH. Qed.

Lemma digits_value_zeros n s : digits_value 0 (zeros n +:+ s) = digits_value 0 s.
Proof.
  induction n as [|n IH]; [done|].
  cbn [zeros]. rewrite string_app_cons. exact IH.
Qed.

Lemma is_nat_pretty_N_char (d : N) :
  (d < 10)%N → Ascii.is_nat (pretty_N_char d) = Some (N.to_nat d).
Proof.
  intros Hd.
  assert (d = 0 ∨ d = 1 ∨ d = 2 ∨ d = 3 ∨ d = 4 ∨ d = 5 ∨ d = 6 ∨ d = 7
          ∨ d = 8 ∨ d = 9)%N as Hcases by lia.
  repeat destruct Hcases as [->|Hcases]; try done. by subst d.
Qed.

Lemma digits_value_pretty_N_go (x : N) (s : string) :
  digits_value 0 (pretty_N_go x s) = digits_value x s.
Proof.
  revert s. induction (N.lt_wf_0 x) as [x _ IH]; intros s.
  destruct (decide (x = 0)%N) as [->|Hx]; [by rewrite pretty_N_go_0|].
  rewrite pretty_N_go_step by lia.
  rewrite IH by (apply N.div_lt; lia). cbn [digits_value].
  rewrite is_nat_pretty_N_char by (apply N.mod_lt; lia).
  rewrite N2Nat.id. f_equal.
  pose proof (N.div_mod x 10). lia.
Qed.

Lemma digits_value_pretty (x : N) : digits_value 0 (pretty x) = Some x.
Proof.
  unfold pretty, pretty_N. destruct (decide (x = 0)%N) as [->|Hx]; [done|].
  by rewrite digits_value_pretty_N_go.
Qed.

Lemma pretty_N_go_length (k : nat) (x : N) (s : string) :
  (x < 10 ^ N.of_nat k)%N →
  (String.length (pretty_N_go x s) ≤ k + String.length s)%nat.
Proof.
  revert x s. induction k as [|k IH]; intros x s Hx.
  - assert (x = 0%N) as -> by (cbn in Hx; lia). rewrite pretty_N_go_0. lia.
  - destruct (decide (x = 0)%N) as [->|Hx0]; [rewrite pretty_N_go_0; lia|].
    rewrite pretty_N_go_step by lia.
    etrans; [apply IH|simpl; lia].
    rewrite Nat2N.inj_succ, N.pow_succ_r' in Hx.
    apply N.Div0.div_lt_upper_bound. lia.
Qed.

Lemma pretty_N_length (k : nat) (x : N) :
  (0 < k)%nat → (x < 10 ^ N.of_nat k)%N →
  (String.length (pretty x) ≤ k)%nat.
Proof.
  intros Hk Hx. unfold pretty, pretty_N.
  destruct (decide (x = 0)%N) as [->|Hx0]; [simpl; lia|].
  etrans; [by apply (pretty_N_go_length k)|simpl; lia].
Qed.

(** A string of decimal digits. *)
Lemma digits_value_no_dash acc s v :
  digits_value acc s = Some v → ∀ t, rstrip_dash (s +:+ t) = s +:+ rstrip_dash t.
Proof.
  revert acc. induction s as [|c s IH]; intros acc Hv t; [done|].
  cbn [digits_value] in Hv.
  destruct (Ascii.is_nat c) as [d|] eqn:Hc; [|done].
  assert (Ascii.eqb c "-" = false) as Hdash.
  { apply Ascii.eqb_neq. intros ->. done. }
  rewrite !string_app_cons. cbn [rstrip_dash]. rewrite (IH _ Hv), Hdash.
  by destruct (s +:+ rstrip_dash t).
Qed.

Lemma format_07d_in_range (x : Z) :
  0 ≤ x ≤ 9999999 →
  String.length (format_07d x) = 7%nat
  ∧ digits_value 0 (format_07d x) = Some (Z.to_N x).
Proof.
  intros Hx. unfold format_07d.
  destruct (Z.ltb_spec x 0) as [?|_]; [lia|]. unfold zero_pad.
  pose proof (pretty_N_length 7 (Z.to_N x)) as Hlen.
  split.
  - rewrite string_length_app, zeros_length.
    assert (String.length (pretty (Z.to_N x)) ≤ 7)%nat; [|lia].
    apply Hlen; [lia|]. change (10 ^ N.of_nat 7)%N with 10000000%N. lia.
  - by rewrite digits_value_zeros, digits_value_pretty.
Qed.

Lemma lt_state_loop_in_range nodes acc :
  Forall (λ x, x ≤ 9999999) nodes →
  lt_state_loop nodes acc
  = Some (acc +:+ foldr (λ x r, format_07d x +:+ String "-" r) "" nodes).
Proof.
  intros Hall. revert acc.
  induction Hall as [|x nodes Hx _ IH]; intros acc; cbn [lt_state_loop foldr].
  - by rewrite string_app_nil_r.
  - destruct (Z.leb_spec x 9999999) as [_|?]; [|lia].
    rewrite IH. f_equal. rewrite !string_app_assoc. done.
Qed.

Lemma lt_state_loop_None nodes acc :
  lt_state_loop nodes acc = None ↔ Exists (λ x, 9999999 < x) nodes.
Proof.
  revert acc. induction nodes as [|x nodes IH]; intros acc;
    cbn [lt_state_loop].
  - split; [done|]. by intros ?%Exists_nil.
  - rewrite Exists_cons. destruct (Z.leb_spec x 9999999) as [Hle|Hgt].
    + rewrite IH. split; [by right|]. intros [?|?]; [lia|done].
    + split; [by left|done].
Qed.

Lemma join_dash_cons f fields :
  fields ≠ [] → join_dash (f :: fields) = f +:+ String "-" (join_dash fields).
Proof. by destruct fields. Qed.

Lemma rstrip_dash_fields nodes :
  Forall (λ x, 0 ≤ x ≤ 9999999) nodes →
  rstrip_dash (foldr (λ x r, format_07d x +:+ String "-" r) "" nodes)
  = join_dash (format_07d <$> nodes)
  ∧ (nodes ≠ [] → join_dash (format_07d <$> nodes) ≠ "").
Proof.
  induction 1 as [|x nodes Hx _ [IH Hne]]; [done|].
  destruct (format_07d_in_range x Hx) as [Hlen Hval].
  assert (format_07d x ≠ "") as Hfx by (intros E; by rewrite E in Hlen).
  cbn [foldr]. rewrite fmap_cons, (digits_value_no_dash _ _ _ Hval).
  cbn [rstrip_dash]. rewrite IH.
  destruct nodes as [|y nodes].
  - cbn. rewrite string_app_nil_r. split; [done|]. intros _. exact Hfx.
  - rewrite fmap_cons in Hne |- *.
    rewrite (join_dash_cons (format_07d x)) by done.
    specialize (Hne ltac:(done)).
    destruct (join_dash (format_07d y :: (format_07d <$> nodes)))
      eqn:Hj; [done|].
    split; [done|]. intros _. by destruct (format_07d x).
Qed.

Lemma join_dash_length nodes :
  Forall (λ x, 0 ≤ x ≤ 9999999) nodes → nodes ≠ [] →
  String.length (join_dash (format_07d <$> nodes))
  = (8 * length nodes - 1)%nat.
Proof.
  induction 1 as [|x nodes Hx Hall IH]; [done|]. intros _.
  destruct (format_07d_in_range x Hx) as [Hlen _].
  destruct nodes as [|y nodes]; [by cbn|].
  rewrite fmap_cons. rewrite fmap_cons in IH |- *.
  rewrite (join_dash_cons (format_07d x)) by done. rewrite string_length_app.
  cbn [String.length]. specialize (IH ltac:(done)).
  rewrite IH, Hlen. cbn [length]. lia.
Qed.

Lemma join_dash_head x fs :
  join_dash (format_07d x :: fs)
  = format_07d x +:+ match fs with
                     | [] => ""
                     | _ => String "-" (join_dash fs)
                     end.
Proof. destruct fs; [by rewrite string_app_nil_r|done]. Qed.

Lemma join_dash_inj nodes nodes' :
  Forall (λ x, 0 ≤ x ≤ 9999999) nodes →
  Forall (λ x, 0 ≤ x ≤ 9999999) nodes' →
  join_dash (format_07d <$> nodes) = join_dash (format_07d <$> nodes') →
  nodes = nodes'.
Proof.
  intros Hall. revert nodes'.
  induction Hall as [|x nodes Hx Hall IH]; intros nodes' Hall' Heq.
  - destruct Hall' as [|x' nodes' Hx' Hall']; [done|].
    pose proof (join_dash_length (x' :: nodes')
                  ltac:(by constructor) ltac:(done)) as Hlen.
    rewrite <- Heq in Hlen. cbn in Hlen. lia.
  - destruct Hall' as [|x' nodes' Hx' Hall'].
    { pose proof (join_dash_length (x :: nodes)
                    ltac:(by constructor) ltac:(done)) as Hlen.
      rewrite Heq in Hlen. cbn in Hlen. lia. }
    destruct (format_07d_in_range x Hx) as [Hlen Hval].
    destruct (format_07d_in_range x' Hx') as [Hlen' Hval'].
    rewrite !fmap_cons, !join_dash_head in Heq.
    apply string_app_inj_length in Heq as [Hf Htail]; [|congruence].
    assert (x = x') as <-.
    { rewrite Hf, Hval' in Hval. injection Hval as Hv. lia. }
    f_equal. apply IH; [done|].
    destruct nodes as [|y nodes], nodes' as [|y' nodes'];
      rewrite ?fmap_cons in Htail |- *; try done.
    by injection Htail.
Qed.

(** X22: the key [build_ida_graph] writes for a tuple of nodes.  The
    assertion fails exactly when some node is above 9999999.  For nodes
    between 0 and 9999999 the key is the nodes' fields joined by "-",
    each field 7 characters that are decimal digits and read back as the
    node, so a key of [n >= 1] nodes is [8 * n - 1] characters long; and
    two tuples of such nodes with the same key are the same tuple. *)
Theorem build_ida_graph_lt_state_key (nodes : list Z) :
  (build_ida_graph_lt_state nodes = None ↔ Exists (λ x, 9999999 < x) nodes)
  ∧ (Forall (λ x, 0 ≤ x ≤ 9999999) nodes →
     build_ida_graph_lt_state nodes = Some (join_dash (format_07d <$> nodes))
     ∧ Forall (λ x, String.length (format_07d x) = 7%nat
                    ∧ digits_value 0 (format_07d x) = Some (Z.to_N x)) nodes
     ∧ (nodes ≠ [] →
        String.length (join_dash (format_07d <$> nodes))
        = (8 * length nodes - 1)%nat)
     ∧ ∀ nodes', Forall (λ x, 0 ≤ x ≤ 9999999) nodes' →
         build_ida_graph_lt_state nodes' = build_ida_graph_lt_state nodes →
         nodes' = nodes).
Proof.
  assert (Hkey : ∀ l, Forall (λ x, 0 ≤ x ≤ 9999999) l →
            build_ida_graph_lt_state l = Some (join_dash (format_07d <$> l))).
  { intros l Hl. unfold build_ida_graph_lt_state.
    rewrite lt_state_loop_in_range
      by (eapply Forall_impl; [exact Hl|]; intros; cbn in *; lia).
    cbn [fmap option_fmap option_map String.append]. f_equal.
    by apply rstrip_dash_fields. }
  split.
  - unfold build_ida_graph_lt_state. rewrite <- (lt_state_loop_None nodes "").
    by destruct (lt_state_loop nodes "").
  - intros Hall. split; [by apply Hkey|]. split; [|split].
    + eapply Forall_impl; [exact Hall|]. intros x Hx.
      by apply format_07d_in_range.
    + by apply join_dash_length.
    + intros nodes' Hall' Heq. rewrite !Hkey in Heq by done.
      injection Heq as Heq. by apply join_dash_inj.
Qed.

Lemma build_ida_graph_lt_state_key_witness :
  build_ida_graph_lt_state [12; 3456789] = Some "0000012-3456789"
  ∧ String.length "0000012-3456789" = (8 * 2 - 1)%nat.
Proof.
  assert (Forall (λ x, 0 ≤ x ≤ 9999999) [12; 3456789]) as Hall
    by (repeat constructor; lia).
  destruct (proj2 (build_ida_graph_lt_state_key [12; 3456789]) Hall)
    as (Hkey & _ & Hlen & _).
  split; [exact Hkey | exact (Hlen ltac:(done))].
Defined.

(** * Runs with a clock and a recursion limit *)

Section TimedDriver.
Context `{Collaborators}.
Variable self : LookupTableIDAViaGraph.

(** One iteration of the loop, by the outcome of its search and the best
    recorded solution; then the same with the clock. *)
Lemma solve_loop_step T rest s :
  solve_loop self (T :: rest) s
  = let sX := search_reset s in
    let r := ida_search self 0 [] T None
               (ida_graph_node <$> prune_tables sX) sX in
    match r.1 with
    | Raise e => (Raise e, r.2)
    | Ok _ =>
        match get_best_ida_solution r.2 with
        | Some ((_ :: _) as best) =>
            (Ok (Some true),
             set_ida_nodes [] (set_explored ∅
               (set_parent
                  (foldl (λ c step, rotate step c)
                     {| state := pre_recolor_state r.2;
                        solution := pre_recolor_solution r.2 |} best) r.2)))
        | _ => solve_loop self rest r.2
        end
    end.
Proof.
  cbn [solve_loop]. cbv zeta.
  unfold bind at 1, modify at 1. cbv beta iota.
  unfold bind at 1, modify at 1. cbv beta iota.
  unfold bind at 1, modify at 1. cbv beta iota.
  unfold bind at 1, get_ida_graph_nodes, gets. cbv beta iota.
  unfold bind at 1. fold (search_reset s).
  change (prune_tables s) with (prune_tables (search_reset s)).
  destruct (ida_search self 0 [] T None _ (search_reset s)) as [[v|e] sB];
    cbn [fst snd]; [|done].
  unfold bind at 1. cbv beta iota.
  by destruct (get_best_ida_solution sB) as [[|x best]|].
Qed.

Lemma solve_loop_timed_step limit now k t0 total T rest s :
  (Z.to_nat T < limit)%nat →
  solve_loop_timed self limit now k t0 total (T :: rest) s
  = let sX := search_reset s in
    let r := ida_search self 0 [] T None
               (ida_graph_node <$> prune_tables sX) sX in
    match r.1 with
    | Raise e => (Raise e, r.2)
    | Ok _ =>
        match get_best_ida_solution r.2 with
        | Some ((_ :: _) as best) =>
            let s1 := set_parent
                        (foldl (λ c step, rotate step c)
                           {| state := pre_recolor_state r.2;
                              solution := pre_recolor_solution r.2 |} best)
                        r.2 in
            if now (S k) - t0 =? 0 then (Raise ZeroDivisionError, s1)
            else (Ok (Some true), set_ida_nodes [] (set_explored ∅ s1))
        | _ =>
            if now (S k) - now k =? 0 then (Raise ZeroDivisionError, r.2)
            else solve_loop_timed self limit now (S (S k)) t0
                   (total + ida_count r.2) rest r.2
        end
    end.
Proof.
  intros HT. cbn [solve_loop_timed]. cbv zeta.
  unfold bind at 1, modify at 1. cbv beta iota.
  unfold bind at 1, modify at 1. cbv beta iota.
  unfold bind at 1, modify at 1. cbv beta iota.
  unfold bind at 1, get_ida_graph_nodes, gets. cbv beta iota.
  unfold bind at 1. fold (search_reset s).
  change (prune_tables s) with (prune_tables (search_reset s)).
  rewrite (ida_search_fuel_irrel self limit (S (Z.to_nat (T - 0)))) by lia.
  fold (ida_search self 0 [] T None
          (ida_graph_node <$> prune_tables (search_reset s))).
  destruct (ida_search self 0 [] T None _ (search_reset s)) as [[v|e] sB];
    cbn [fst snd]; [|done].
  unfold bind at 1. cbv beta iota. unfold bind at 1. cbv beta iota.
  destruct (get_best_ida_solution sB) as [[|x best]|].
  - unfold bind at 1, nodes_per_sec. by destruct (_ =? 0).
  - unfold bind at 1, modify at 1. cbv beta iota.
    unfold bind at 1, rotate_all, modify at 1. cbv beta iota.
    unfold bind at 1, nodes_per_sec. by destruct (_ =? 0).
  - unfold bind at 1, nodes_per_sec. by destruct (_ =? 0).
Qed.

(** The timed loop and the loop agree, unless two clock readings are
    equal where a rate is computed. *)
Lemma solve_loop_timed_agrees limit now k total ths s :
  Forall (λ T, (Z.to_nat T < limit)%nat) ths →
  solve_loop_timed self limit now k (now O) total ths s
    = solve_loop self ths s
  ∨ ((solve_loop_timed self limit now k (now O) total ths s).1
       = Raise ZeroDivisionError
     ∧ ∃ i j : nat, (i < j)%nat ∧ now i = now j).
Proof.
  intros Hall. revert k total s.
  induction Hall as [|T rest HT _ IH]; intros k total s; [by left|].
  rewrite solve_loop_timed_step, solve_loop_step by done. cbv zeta.
  destruct (ida_search self 0 [] T None _ (search_reset s)) as [[v|e] sB];
    cbn [fst snd]; [|by left].
  destruct (get_best_ida_solution sB) as [[|x best]|].
  - destruct (Z.eqb_spec (now (S k) - now k) 0) as [Heq|_]; [|apply IH].
    right. split; [done|]. exists k, (S k). split; lia.
  - destruct (Z.eqb_spec (now (S k) - now O) 0) as [Heq|_]; [|by left].
    right. split; [done|]. exists O, (S k). split; lia.
  - destruct (Z.eqb_spec (now (S k) - now k) 0) as [Heq|_]; [|apply IH].
    right. split; [done|]. exists k, (S k). split; lia.
Qed.

Lemma solve_timed_agrees limit now min_ida_threshold max_ida_threshold s :
  (Z.to_nat max_ida_threshold < limit)%nat →
  solve_timed self limit now min_ida_threshold max_ida_threshold s
    = solve self min_ida_threshold max_ida_threshold s
  ∨ ((solve_timed self limit now min_ida_threshold max_ida_threshold s).1
       = Raise ZeroDivisionError
     ∧ ∃ i j : nat, (i < j)%nat ∧ now i = now j).
Proof.
  intros Hlimit. unfold solve_timed, solve, init_ida_graph_nodes, bind, modify.
  destruct (recolor self _) as [[[]|e] s1]; [|by left].
  destruct (check_avoid_oll self _) as [[[]|e] s2]; [|by left].
  destruct (ida_heuristic self _) as [[[lt c]|e] s3]; [|by left].
  set (lo := default c min_ida_threshold).
  destruct (lo >=? max_ida_threshold + 1); [by left|]. cbv zeta.
  destruct (solve_loop_timed_agrees limit now 1 0
              (seqZ lo (max_ida_threshold + 1 - lo)) s3) as [->|[Hz Hij]].
  - apply Forall_seqZ. lia.
  - by left.
  - right. split; [|done].
    destruct (solve_loop_timed _ _ _ _ _ _ _ s3) as [r s4].
    cbn [fst] in Hz. by subst r.
Qed.

(** With a clock of which no two readings are equal the timed driver is
    the driver. *)
Lemma solve_timed_advancing_clock limit now
    min_ida_threshold max_ida_threshold s :
  (Z.to_nat max_ida_threshold < limit)%nat →
  (∀ i j : nat, (i < j)%nat → now i ≠ now j) →
  solve_timed self limit now min_ida_threshold max_ida_threshold s
  = solve self min_ida_threshold max_ida_threshold s.
Proof.
  intros Hlimit Hclock.
  destruct (solve_timed_agrees limit now min_ida_threshold max_ida_threshold
              s Hlimit) as [?|[_ (i & j & Hij & Heq)]]; [done|].
  by destruct (Hclock i j Hij).
Qed.
End TimedDriver.

(** X10: on an instance as [__init__] builds it, whose every cache key
    has an unrelated move, and with every table on a node of a graph that
    holds whole rows and whose successors stay inside it, a call of
    [ida_search] with a move of the instance (or [None]) as previous step
    and the tables' current nodes, made with room for more than
    [threshold - cost_to_here] nested calls, raises nothing: it returns,
    and leaves the tables closed again, the same graphs on possibly other
    nodes. *)
Theorem ida_search_closed_tables_no_exception `{Collaborators}
    self (n : nat) cost steps T prev s :
  constructed self → always_a_candidate self →
  Forall (table_closed self) (prune_tables s) →
  prev ∈ cache_keys (moves_all self) →
  (Z.to_nat (T - cost) < n)%nat →
  ∃ f found s',
    ida_search_fuel self n cost steps T prev
      (ida_graph_node <$> prune_tables s) s
      = (Ok (f, found), s')
    ∧ Forall (table_closed self) (prune_tables s')
    ∧ same_tables (prune_tables s) (prune_tables s').
Proof.
  intros Hself Hcand Hcl Hprev Hn.
  pose proof (ida_search_fuel_safe self Hself n cost steps T prev s
                Hcand Hn Hcl Hprev) as Hsafe.
  unfold wp, safe_post in Hsafe.
  destruct (ida_search_fuel _ _ _ _ _ _ _ s) as [r s'].
  cbn [fst snd] in Hsafe.
  destruct Hsafe as ([[f found] ->] & Hcl' & Hsame). by exists f, found, s'.
Qed.

Lemma ida_search_closed_tables_no_exception_witness :
  ∃ f found s',
    ida_search_fuel demo_self 5 0 [] 4 None
      (ida_graph_node <$> prune_tables (demo_store_at 3)) (demo_store_at 3)
      = (Ok (f, found), s')
    ∧ Forall (table_closed demo_self) (prune_tables s')
    ∧ same_tables (prune_tables (demo_store_at 3)) (prune_tables s').
Proof.
  apply (ida_search_closed_tables_no_exception (H := demo_collaborators)
           demo_self 5 0 [] 4 None (demo_store_at 3)
           demo_self_constructed demo_self_always_a_candidate).
  - constructor; [|constructor]. apply demo_table_closed. lia.
  - by_evaluation.
  - vm_compute. lia.
Defined.

(** X14: a call of [ida_search] made with room for more than
    [threshold - cost_to_here] nested calls raises nothing but
    [KeyError], [IndexError] or [StructError], and leaves the puzzle, the
    four snapshots of [solve] and the bytes of every graph untouched: it
    writes only the tables' scratch nodes, [ida_count], [explored] and
    [ida_nodes]. *)
Theorem ida_search_frame self (n : nat) cost steps T prev nodes s :
  (Z.to_nat (T - cost) < n)%nat →
  let r := ida_search_fuel self n cost steps T prev nodes s in
  search_exn r.1
  ∧ parent r.2 = parent s
  ∧ pre_recolor_state r.2 = pre_recolor_state s
  ∧ pre_recolor_solution r.2 = pre_recolor_solution s
  ∧ original_state r.2 = original_state s
  ∧ original_solution r.2 = original_solution s
  ∧ ida_graph <$> prune_tables r.2 = ida_graph <$> prune_tables s.
Proof.
  intros Hn r.
  destruct (ida_search_fuel_post (H := unrelated_collaborators) self
              (unrelated_collaborators_lists _) n cost steps T prev nodes s
              Hn)
    as (Hexn & F1 & F2 & F3 & F4 & F5 & F6 & _).
  by repeat split.
Qed.

Lemma ida_search_frame_witness :
  let r := ida_search_fuel demo_self 5 0 [] 4 None [3] (demo_store_at 3) in
  search_exn r.1
  ∧ parent r.2 = parent (demo_store_at 3)
  ∧ pre_recolor_state r.2 = pre_recolor_state (demo_store_at 3)
  ∧ pre_recolor_solution r.2 = pre_recolor_solution (demo_store_at 3)
  ∧ original_state r.2 = original_state (demo_store_at 3)
  ∧ original_solution r.2 = original_solution (demo_store_at 3)
  ∧ ida_graph <$> prune_tables r.2
    = ida_graph <$> prune_tables (demo_store_at 3).
Proof.
  apply (ida_search_frame demo_self 5 0 [] 4 None [3] (demo_store_at 3)).
  vm_compute. lia.
Defined.

(** X11: under the conditions of X10 on the instance, with [avoid_oll]
    unset, a [recolor] that succeeds, tables whose [state_index] of the
    recoloured state is a node of a closed graph, and room for more than
    [max_ida_threshold] nested calls of [ida_search], [solve] ends in
    one of three ways: it returns [True]; it raises [NoIDASolution] with
    upper bound [max_ida_threshold + 1]; or it raises
    [ZeroDivisionError] while computing a rate for a log line, which
    needs two clock readings that are equal.  It never returns [False],
    and no lookup fails on the way. *)
Theorem solve_timed_closed_tables_outcomes `{Collaborators}
    self (limit : nat) (now : nat → Z)
    min_ida_threshold max_ida_threshold s :
  constructed self → always_a_candidate self →
  avoid_oll self = None →
  (recolor self
     (set_pre_recolor (state (parent s)) (solution (parent s)) s)).1 = Ok () →
  Forall (table_closed self) (prune_tables (search_start self s)) →
  (Z.to_nat max_ida_threshold < limit)%nat →
  let r := (solve_timed self limit now
              min_ida_threshold max_ida_threshold s).1 in
  r = Ok true
  ∨ (∃ lo, r = Raise (NoIDASolution lo (max_ida_threshold + 1)))
  ∨ (r = Raise ZeroDivisionError
     ∧ ∃ i j : nat, (i < j)%nat ∧ now i = now j).
Proof.
  intros Hself Hcand Holl Hrec Hcl Hlimit r. unfold r.
  destruct (solve_timed_agrees self limit now min_ida_threshold
              max_ida_threshold s Hlimit) as [->|Hz]; [|by right; right].
  destruct (solve_safe self Hself Hcand min_ida_threshold max_ida_threshold s
              Holl Hrec Hcl) as [?|?]; [by left | by right; left].
Qed.

Lemma solve_timed_closed_tables_outcomes_witness :
  let r := (solve_timed (H := demo_collaborators) demo_self_recolor 100
              Z.of_nat None 99 (demo_store "n3")).1 in
  r = Ok true
  ∨ (∃ lo, r = Raise (NoIDASolution lo (99 + 1)))
  ∨ (r = Raise ZeroDivisionError
     ∧ ∃ i j : nat, (i < j)%nat ∧ Z.of_nat i = Z.of_nat j).
Proof.
  apply (solve_timed_closed_tables_outcomes (H := demo_collaborators)
           demo_self_recolor 100 Z.of_nat None 99 (demo_store "n3")).
  - apply with_recolor_constructed, demo_self_constructed.
  - exact demo_self_always_a_candidate.
  - reflexivity.
  - vm_compute. reflexivity.
  - constructor; [|constructor].
    change (table_closed demo_self (with_node demo_table 3)).
    apply demo_table_closed. lia.
  - vm_compute. lia.
Defined.

Section TimedOutcomes.
Context `{Collaborators}.
Variable self : LookupTableIDAViaGraph.

Lemma solve_timed_low_max (limit : nat) (now : nat → Z)
    max_ida_threshold s lt_state c :
  avoid_oll self = None →
  (recolor self
     (set_pre_recolor (state (parent s)) (solution (parent s)) s)).1 = Ok () →
  (ida_heuristic self (search_start self s)).1 = Ok (lt_state, c) →
  max_ida_threshold ≤ c →
  (0 < limit)%nat →
  (solve_timed self limit now None max_ida_threshold s).1
  = if bool_decide (max_ida_threshold = c ∧ now 2%nat = now 1%nat)
    then Raise ZeroDivisionError
    else Raise (NoIDASolution c (max_ida_threshold + 1)).
Proof.
  intros Holl Hrec Hh Hmax Hlimit.
  destruct limit as [|limit]; [lia|].
  assert (Hrc : recolor self
            (set_pre_recolor (state (parent s)) (solution (parent s)) s)
            = (Ok (), after_recolor self s)).
  { unfold after_recolor. destruct (recolor self _) as [r1 s1].
    cbn [fst snd] in Hrec |- *. by subst r1. }
  unfold solve_timed. unfold bind at 1, modify at 1. cbv beta iota.
  unfold bind at 1. rewrite Hrc.
  unfold bind at 1, modify at 1. cbv beta iota.
  unfold bind at 1, check_avoid_oll. rewrite Holl. unfold ret at 1.
  cbv beta iota.
  unfold bind at 1, init_ida_graph_nodes at 1, modify at 1. cbv beta iota.
  match goal with |- (_ ?S).1 = _ => change S with (search_start self s) end.
  set (s0 := search_start self s) in *.
  unfold bind at 1. unfold ida_heuristic in Hh |- *. cbn [fst] in Hh.
  rewrite Hh. cbn [default].
  destruct (Z.geb_spec c (max_ida_threshold + 1)) as [Hge|Hlt].
  { rewrite bool_decide_eq_false_2 by lia. done. }
  assert (max_ida_threshold = c) as -> by lia.
  replace (c + 1 - c) with 1 by lia. cbv zeta.
  change (seqZ c 1) with [c]. cbn [solve_loop_timed]. cbv zeta.
  unfold bind at 1. unfold bind at 1, modify at 1. cbv beta iota.
  unfold bind at 1, modify at 1. cbv beta iota.
  unfold bind at 1, modify at 1. cbv beta iota.
  unfold bind at 1, get_ida_graph_nodes, gets. cbv beta iota.
  unfold bind at 1. rewrite ida_search_fuel_S. cbv zeta.
  cbn [prune_tables set_ida_nodes set_explored set_ida_count set_prune_tables]
    in Hh |- *.
  rewrite Hh. rewrite Z.add_0_l.
  destruct (Z.geb_spec c c) as [_|Hlt']; [|lia].
  unfold bind at 1. cbv beta iota. unfold bind at 1. cbv beta iota.
  unfold get_best_ida_solution.
  cbn [ida_nodes set_ida_count set_ida_nodes foldl fst].
  unfold bind at 1, nodes_per_sec.
  destruct (Z.eqb_spec (now 2%nat - now 1%nat) 0) as [Heq|Hne].
  - rewrite bool_decide_eq_true_2 by (split; [done|lia]). done.
  - rewrite bool_decide_eq_false_2 by (intros [_ ?]; lia). done.
Qed.
End TimedOutcomes.

(** X19: called without a lower threshold, [solve] starts at the root's
    heuristic cost [c], and at threshold [c] the root itself is cut off.
    So with [max_ida_threshold] at most [c] no solution is found: below
    [c] the range is empty and [solve] raises [NoIDASolution] with bounds
    [c] and [max_ida_threshold + 1]; at [c] the one iteration cuts the
    root off and then computes its rate, so [solve] raises
    [ZeroDivisionError] when the two clock readings of that iteration
    are equal and the same [NoIDASolution] otherwise.  A solution of [c]
    moves needs a maximum threshold of at least [c + 1]. *)
Theorem solve_timed_max_threshold_must_exceed_root_cost `{Collaborators}
    self (limit : nat) (now : nat → Z) max_ida_threshold s lt_state c :
  avoid_oll self = None →
  (recolor self
     (set_pre_recolor (state (parent s)) (solution (parent s)) s)).1 = Ok () →
  (ida_heuristic self (search_start self s)).1 = Ok (lt_state, c) →
  max_ida_threshold ≤ c →
  (0 < limit)%nat →
  (solve_timed self limit now None max_ida_threshold s).1
  = if bool_decide (max_ida_threshold = c ∧ now 2%nat = now 1%nat)
    then Raise ZeroDivisionError
    else Raise (NoIDASolution c (max_ida_threshold + 1)).
Proof.
  intros Holl Hrec Hh Hmax Hlimit.
  exact (solve_timed_low_max self limit now max_ida_threshold s lt_state c
           Holl Hrec Hh Hmax Hlimit).
Qed.

Lemma solve_timed_max_threshold_must_exceed_root_cost_witness :
  (solve_timed (H := demo_collaborators) demo_self 1 Z.of_nat None 3
     (demo_store "n3")).1
  = Raise (NoIDASolution 3 (3 + 1))
  ∧ (solve_timed (H := demo_collaborators) demo_self 1 (λ _, 0) None 3
       (demo_store "n3")).1
    = Raise ZeroDivisionError.
Proof.
  split.
  - apply (solve_timed_max_threshold_must_exceed_root_cost
             (H := demo_collaborators) demo_self 1 Z.of_nat 3
             (demo_store "n3") [3] 3).
    + reflexivity.
    + vm_compute. reflexivity.
    + vm_compute. reflexivity.
    + lia.
    + lia.
  - apply (solve_timed_max_threshold_must_exceed_root_cost
             (H := demo_collaborators) demo_self 1 (λ _, 0) 3
             (demo_store "n3") [3] 3).
    + reflexivity.
    + vm_compute. reflexivity.
    + vm_compute. reflexivity.
    + lia.
    + lia.
Defined.

(** X20: let [c] be the heuristic cost of the root, not 0, and [T] the
    first threshold [solve] tries that is above [c] (the thresholds up to
    [c] only cut the root off), with room for more than
    [max_ida_threshold] nested calls of [ida_search].  If the search at
    [T], entered on the nodes [init_ida_graph_nodes] chose, returns
    found, then either [solve] returns [True], and the moves it has
    replayed on the puzzle as it was before the call are the one solution
    that search recorded: not empty, [f] moves for the returned f-cost
    [f < T], and leading, table by table, from those entry nodes to nodes
    that all store cost 0; or two clock readings were equal and [solve]
    raises [ZeroDivisionError] from a rate of its log lines. *)
Theorem solve_timed_first_search_above_root_cost `{Collaborators}
    self (limit : nat) (now : nat → Z)
    min_ida_threshold max_ida_threshold s lt_state c f s3 :
  avoid_oll self = None →
  (recolor self
     (set_pre_recolor (state (parent s)) (solution (parent s)) s)).1 = Ok () →
  (ida_heuristic self (search_start self s)).1 = Ok (lt_state, c) →
  0 < c →
  let T := Z.max (default c min_ida_threshold) (c + 1) in
  T ≤ max_ida_threshold →
  (Z.to_nat max_ida_threshold < limit)%nat →
  let s2 := search_reset (search_start self s) in
  ida_search_fuel self limit 0 [] T None
    (ida_graph_node <$> prune_tables s2) s2
    = (Ok (f, true), s3) →
  let r := solve_timed self limit now
             min_ida_threshold max_ida_threshold s in
  (∃ best,
     r.1 = Ok true
     ∧ state (parent r.2)
       = state (foldl (λ c step, rotate step c) (parent s) best)
     ∧ solution (parent r.2)
       = solution (foldl (λ c step, rotate step c) (parent s) best)
     ∧ best ≠ [] ∧ Z.of_nat (length best) = f ∧ f < T
     ∧ follow_all self (prune_tables (search_start self s)) best
       = Ok (prune_tables s3)
     ∧ Forall (λ pt, stored_cost self pt 0) (prune_tables s3))
  ∨ (r.1 = Raise ZeroDivisionError
     ∧ ∃ i j : nat, (i < j)%nat ∧ now i = now j).
Proof.
  intros Holl Hrec Hh Hc T HT Hlimit s2 Hrun r. unfold r.
  destruct (solve_timed_agrees self limit now min_ida_threshold
              max_ida_threshold s Hlimit) as [->|Hz]; [left|by right].
  rewrite (ida_search_fuel_irrel self limit (S (Z.to_nat (T - 0)))) in Hrun
    by lia.
  exact (solve_first_productive self min_ida_threshold max_ida_threshold
           s lt_state c f s3 Holl Hrec Hh Hc HT Hrun).
Qed.

Lemma solve_timed_first_search_above_root_cost_witness :
  let s := demo_store "n3" in
  let s2 := search_reset (search_start (H := demo_collaborators) demo_self s) in
  let s3 := (ida_search_fuel demo_self 100 0 [] 4 None
               (ida_graph_node <$> prune_tables s2) s2).2 in
  let r := solve_timed (H := demo_collaborators) demo_self 100 Z.of_nat
             None 99 s in
  (∃ best,
     r.1 = Ok true
     ∧ state (parent r.2)
       = state (foldl (λ c step, rotate (Collaborators := demo_collaborators)
                                   step c) (parent s) best)
     ∧ solution (parent r.2)
       = solution (foldl (λ c step, rotate (Collaborators := demo_collaborators)
                                      step c) (parent s) best)
     ∧ best ≠ [] ∧ Z.of_nat (length best) = 3
     ∧ 3 < Z.max (default 3 None) (3 + 1)
     ∧ follow_all demo_self
         (prune_tables (search_start (H := demo_collaborators) demo_self s))
         best
       = Ok (prune_tables s3)
     ∧ Forall (λ pt, stored_cost demo_self pt 0) (prune_tables s3))
  ∨ (r.1 = Raise ZeroDivisionError
     ∧ ∃ i j : nat, (i < j)%nat ∧ Z.of_nat i = Z.of_nat j).
Proof.
  intros s s2 s3.
  apply (solve_timed_first_search_above_root_cost (H := demo_collaborators)
           demo_self 100 Z.of_nat None 99 s [3] 3 3 s3).
  - reflexivity.
  - vm_compute. reflexivity.
  - vm_compute. reflexivity.
  - lia.
  - cbn. lia.
  - vm_compute. lia.
  - vm_compute. reflexivity.
Defined.

(** X21: on an instance fresh from [__init__] - nothing staged for
    recolouring, [avoid_oll] unset - in which every move and [None] has an
    unrelated move, whose tables' [state_index] nodes lie in closed
    graphs, and with room for more than [max_ida_threshold] nested calls
    of [ida_search], [solve] ends in one of three ways: it returns
    [True], having replayed on the puzzle a non-empty solution shorter
    than [max_ida_threshold] with no two neighbouring moves on one face
    and layer; it raises [NoIDASolution] with the puzzle's state and
    solution log exactly as before the call; or, two clock readings
    being equal, it raises [ZeroDivisionError] from a rate of its log
    lines. *)
Theorem solve_timed_fresh_instance_outcomes `{Collaborators}
    all illegal legal mult self (limit : nat) (now : nat → Z)
    min_ida_threshold max_ida_threshold s :
  init all illegal legal mult = Ok self →
  always_a_candidate self →
  Forall (table_closed self) (prune_tables (search_start self s)) →
  (Z.to_nat max_ida_threshold < limit)%nat →
  let r := solve_timed self limit now
             min_ida_threshold max_ida_threshold s in
  (r.1 = Ok true
   ∧ ∃ best, best ≠ [] ∧ no_consecutive_same_face best
       ∧ Z.of_nat (length best) < max_ida_threshold
       ∧ parent r.2 = foldl (λ c step, rotate step c) (parent s) best)
  ∨ ((∃ lo, r.1 = Raise (NoIDASolution lo (max_ida_threshold + 1)))
     ∧ state (parent r.2) = state (parent s)
     ∧ solution (parent r.2) = solution (parent s))
  ∨ (r.1 = Raise ZeroDivisionError
     ∧ ∃ i j : nat, (i < j)%nat ∧ now i = now j).
Proof.
  intros Hinit Hcand Hcl Hlimit r. unfold r.
  destruct (solve_timed_agrees self limit now min_ida_threshold
              max_ida_threshold s Hlimit) as [->|Hz]; [|by right; right].
  pose proof (init_constructed _ _ _ _ _ Hinit) as Hself.
  pose proof (init_caches_built _ _ _ _ _ Hinit) as Hbuilt.
  destruct (init_stages_nothing all illegal legal mult self
              (set_pre_recolor (state (parent s)) (solution (parent s)) s)
              Hinit) as [Holl Hrec].
  pose proof (solve_safe self Hself Hcand min_ida_threshold max_ida_threshold
                s Holl) as Hsafe.
  rewrite Hrec in Hsafe. specialize (Hsafe eq_refl Hcl).
  pose proof (solve_has_post (H := H) H self (built_unrelated _ Hbuilt)
                min_ida_threshold max_ida_threshold s) as Hpost.
  unfold wp in Hsafe, Hpost.
  unfold solve_post, after_recolor in Hpost. rewrite Hrec in Hpost.
  destruct Hsafe as [Hr|[lo Hr]]; rewrite Hr in Hpost.
  - left. split; [done|].
    destruct Hpost as (_ & best & Hne & Hch & Hlen & Hp).
    exists best. repeat split; try done. by eapply chain_no_consecutive.
  - right. left. destruct Hpost as (_ & Hst & Hsol).
    split; [by exists lo|done].
Qed.

Lemma solve_timed_fresh_instance_outcomes_witness :
  let r := solve_timed (H := demo_collaborators) demo_self 100 Z.of_nat
             None 99 (demo_store "n3") in
  (r.1 = Ok true
   ∧ ∃ best, best ≠ []
       ∧ no_consecutive_same_face (H := demo_collaborators) best
       ∧ Z.of_nat (length best) < 99
       ∧ parent r.2
         = foldl (λ c step, rotate (Collaborators := demo_collaborators)
                              step c) (parent (demo_store "n3")) best)
  ∨ ((∃ lo, r.1 = Raise (NoIDASolution lo (99 + 1)))
     ∧ state (parent r.2) = state (parent (demo_store "n3"))
     ∧ solution (parent r.2) = solution (parent (demo_store "n3")))
  ∨ (r.1 = Raise ZeroDivisionError
     ∧ ∃ i j : nat, (i < j)%nat ∧ Z.of_nat i = Z.of_nat j).
Proof.
  apply (solve_timed_fresh_instance_outcomes (H := demo_collaborators)
           demo_moves [] [] None demo_self 100 Z.of_nat None 99
           (demo_store "n3")).
  - exact demo_self_init.
  - exact demo_self_always_a_candidate.
  - constructor; [|constructor].
    change (table_closed demo_self (with_node demo_table 3)).
    apply demo_table_closed. lia.
  - vm_compute. lia.
Defined.
